(** * winutils chmod: a shallow embedding of src/winutils/chmod.c

    The development follows the layout of the C file: the enumerations and
    the MODE_CHANGE_ACTION record, ComputeNewMode, the two mode parsers
    (ParseOctalMode and the ParseMode state machine), the ACL synthesis
    (GetWindowsAccessMask, GetWindowsDACLs), and the drivers that talk to the
    operating system (ParseCommandLineArguments, ConvertActionsToMask,
    ChangeFileMode*, Chmod).

    Integers are modelled as [Z]; a USHORT is a [Z] in [0, 2^16) and the
    conversions that C performs are written out with [to_USHORT].  Wide
    strings are lists of UTF-16 code units. *)

From Stdlib Require Import ZArith List Bool Lia String Ascii Btauto.
Import ListNotations.
Local Open Scope Z_scope.

(** ** Machine integers and wide strings *)

Definition USHORT := Z.
Definition DWORD := Z.
Definition WCHAR := Z.

Definition to_USHORT (z : Z) : USHORT := z mod 65536.
Definition to_DWORD (z : Z) : DWORD := z mod 4294967296.

(** A wide string is the list of its code units; as in C, the string ends
    at the first NUL, or at the end of the list when there is none. *)
Definition LPCWSTR := list WCHAR.

(** The code unit of an ASCII character, [L'c'] in the source. *)
Definition wc (c : ascii) : WCHAR := Z.of_N (N_of_ascii c).

(** A wide string literal, [L"..."] in the source. *)
Definition L (s : string) : LPCWSTR := map wc (list_ascii_of_string s).

(** [s[i]]; reading the terminator yields NUL. *)
Definition wchar_at (s : LPCWSTR) (i : nat) : WCHAR := nth i s 0.

Fixpoint wcslen (s : LPCWSTR) : nat :=
  match s with
  | [] => 0%nat
  | c :: s' => if c =? 0 then 0%nat else S (wcslen s')
  end.

(** The characters of a C string, up to its terminator. *)
Fixpoint wcs (s : LPCWSTR) : LPCWSTR :=
  match s with
  | [] => []
  | c :: s' => if c =? 0 then [] else c :: wcs s'
  end.

(** [wcscmp(a, b) == 0] *)
Definition wcs_eqb (a b : LPCWSTR) : bool :=
  if list_eq_dec Z.eq_dec (wcs a) (wcs b) then true else false.

(** The path separator. *)
Definition backslash : WCHAR := 92.

Definition STRSAFE_MAX_CCH : Z := 2147483647.
Definition MAX_PATH : Z := 260.

(** strsafe.h: the length of [psz], provided its terminator is found within
    the first [cchMax] characters. *)
Definition StringCchLengthW (psz : LPCWSTR) (cchMax : Z) : option nat :=
  if Z.of_nat (wcslen psz) <? cchMax then Some (wcslen psz) else None.

(** strsafe.h: copy [src] into a buffer of [cchDest] characters; fails,
    truncating, when [src] and its terminator do not fit. *)
Definition StringCchCopyW (cchDest : Z) (src : LPCWSTR) : option LPCWSTR :=
  if Z.of_nat (wcslen src) <? cchDest then Some (wcs src) else None.

(** strsafe.h: append [src] to the string already in the buffer. *)
Definition StringCchCatW (dest : LPCWSTR) (cchDest : Z) (src : LPCWSTR)
  : option LPCWSTR :=
  if Z.of_nat (wcslen dest) + Z.of_nat (wcslen src) <? cchDest
  then Some (wcs dest ++ wcs src) else None.

(** ** The enumerations of chmod.c *)

Definition CHMOD_WHO_NONE : USHORT := 0.
Definition CHMOD_WHO_OTHER : USHORT := 7.       (* 07 *)
Definition CHMOD_WHO_GROUP : USHORT := 56.      (* 070 *)
Definition CHMOD_WHO_USER : USHORT := 448.      (* 0700 *)
Definition CHMOD_WHO_ALL : USHORT :=
  Z.lor (Z.lor CHMOD_WHO_OTHER CHMOD_WHO_GROUP) CHMOD_WHO_USER.

Inductive CHMOD_OP :=
| CHMOD_OP_INVALID
| CHMOD_OP_PLUS
| CHMOD_OP_MINUS
| CHMOD_OP_EQUAL.

Definition CHMOD_PERM_NA : USHORT := 0.
Definition CHMOD_PERM_R : USHORT := 1.
Definition CHMOD_PERM_W : USHORT := 2.
Definition CHMOD_PERM_X : USHORT := 4.
Definition CHMOD_PERM_LX : USHORT := 8.         (* 010 *)

(** One node of the linked list of mode change actions; the [next_action]
    link is the tail of a Rocq list, and a NULL list is [[]]. *)
Record MODE_CHANGE_ACTION := {
  who : USHORT;
  op : CHMOD_OP;
  perm : USHORT;
  ref : USHORT
}.

Definition INIT_MODE_CHANGE_ACTION : MODE_CHANGE_ACTION :=
  {| who := CHMOD_WHO_NONE; op := CHMOD_OP_INVALID;
     perm := CHMOD_PERM_NA; ref := CHMOD_WHO_NONE |}.

Definition octal (a b c : Z) : Z := 64 * a + 8 * b + c.

(** ** ComputeNewMode *)

Definition readMask : USHORT := 292.   (* 0444 *)
Definition writeMask : USHORT := 146.  (* 0222 *)
Definition exeMask : USHORT := 73.     (* 0111 *)

Section ModeComputer.

(** [UX_DIRECTORY] comes from common.h, which is not part of the sources at
    hand; it is the out-of-band directory flag of a mode. *)
Variable UX_DIRECTORY : USHORT.

(** Lines 610-635: the mask as built from the permission letters and the
    reference class, before it is restricted to [who]. *)
Definition ComputeNewMode_mask (oldMode perm ref : USHORT) : USHORT :=
  let mask := 0 in
  let mask :=
    if negb (perm =? CHMOD_PERM_NA) then
      let mask :=
        if Z.land perm CHMOD_PERM_R =? CHMOD_PERM_R
        then Z.lor mask readMask else mask in
      let mask :=
        if Z.land perm CHMOD_PERM_W =? CHMOD_PERM_W
        then Z.lor mask writeMask else mask in
      let mask :=
        if Z.land perm CHMOD_PERM_X =? CHMOD_PERM_X
        then Z.lor mask exeMask else mask in
      if Z.land perm CHMOD_PERM_LX =? CHMOD_PERM_LX then
        if (Z.land oldMode UX_DIRECTORY =? UX_DIRECTORY)
           || negb (Z.land oldMode exeMask =? 0)
        then Z.lor mask exeMask else mask
      else mask
    else mask in
  Z.lor mask (Z.land oldMode ref).

(** The function as a release build runs it: [assert] expands to nothing. *)
Definition ComputeNewMode (oldMode who : USHORT) (op : CHMOD_OP)
    (perm ref : USHORT) : USHORT :=
  if (perm =? CHMOD_PERM_NA) && (ref =? CHMOD_WHO_NONE) then oldMode
  else
    let mask := ComputeNewMode_mask oldMode perm ref in
    let mask := Z.land mask who in
    match op with
    | CHMOD_OP_EQUAL => mask
    | CHMOD_OP_MINUS => to_USHORT (Z.land oldMode (Z.lnot mask))
    | CHMOD_OP_PLUS => Z.lor oldMode mask
    | CHMOD_OP_INVALID => 0
    end.

(** The two assertions at the entry of the function (lines 601-603). *)
Definition ComputeNewMode_asserts (op : CHMOD_OP) (ref : USHORT) : bool :=
  match op with
  | CHMOD_OP_EQUAL | CHMOD_OP_PLUS | CHMOD_OP_MINUS => true
  | CHMOD_OP_INVALID => false
  end
  && ((ref =? CHMOD_WHO_GROUP) || (ref =? CHMOD_WHO_USER)
      || (ref =? CHMOD_WHO_OTHER)).

(** The function as a build with assertions enabled runs it: [None] is the
    abort of a failed [assert]. *)
Definition ComputeNewMode_checked (oldMode who : USHORT) (op : CHMOD_OP)
    (perm ref : USHORT) : option USHORT :=
  if ComputeNewMode_asserts op ref
  then Some (ComputeNewMode oldMode who op perm ref)
  else None.

End ModeComputer.

(** ** ParseOctalMode *)

(** The C library's [wcstol], for a base that has no prefix of its own
    (chmod.c only calls it with base 8): white space, an optional sign, then
    the longest run of digits of the base.  The result is the value, the
    rest of the string ([end] points at it) and [errno]; LONG has 32 bits, a
    value out of its range is clamped and sets ERANGE, and when there is no
    digit at all [end] is the string itself. *)
Definition LONG_MAX : Z := 2147483647.
Definition LONG_MIN : Z := -2147483648.
Definition ERANGE : Z := 34.

Definition iswspace (c : WCHAR) : bool :=
  (c =? 32) || ((9 <=? c) && (c <=? 13)).

Definition digit_value (c : WCHAR) : option Z :=
  if (wc "0" <=? c) && (c <=? wc "9") then Some (c - wc "0")
  else if (wc "a" <=? c) && (c <=? wc "z") then Some (c - wc "a" + 10)
  else if (wc "A" <=? c) && (c <=? wc "Z") then Some (c - wc "A" + 10)
  else None.

Fixpoint wcstol_skip (s : LPCWSTR) : LPCWSTR :=
  match s with
  | c :: s' => if iswspace c then wcstol_skip s' else s
  | [] => []
  end.

(** The digits: the accumulated value, whether a digit was seen, and the
    rest of the string. *)
Fixpoint wcstol_digits (base : Z) (s : LPCWSTR) (acc : Z) (seen : bool)
  : Z * bool * LPCWSTR :=
  match s with
  | [] => (acc, seen, [])
  | c :: s' =>
      match digit_value c with
      | Some d =>
          if d <? base then wcstol_digits base s' (acc * base + d) true
          else (acc, seen, s)
      | None => (acc, seen, s)
      end
  end.

Definition wcstol (nptr : LPCWSTR) (base : Z) : Z * LPCWSTR * Z :=
  let s := wcstol_skip nptr in
  let '(negative, s) :=
    match s with
    | c :: s' =>
        if c =? wc "-" then (true, s')
        else if c =? wc "+" then (false, s') else (false, s)
    | [] => (false, s)
    end in
  let '(acc, seen, rest) := wcstol_digits base s 0 false in
  if negb seen then (0, nptr, 0)
  else
    let v := if negative : bool then - acc else acc in
    if v >? LONG_MAX then (LONG_MAX, rest, ERANGE)
    else if v <? LONG_MIN then (LONG_MIN, rest, ERANGE)
    else (v, rest, 0).

(** [uMask] is the address of a local of the caller and is never NULL; the
    result is the value stored through it, [None] when the function returns
    FALSE.  The bound [0x0777] is hexadecimal in the source. *)
Definition ParseOctalMode (tsMask : LPCWSTR) : option USHORT :=
  match StringCchLengthW tsMask STRSAFE_MAX_CCH with
  | None => None
  | Some tsMaskLen =>
      if negb (tsMaskLen =? 4)%nat && negb (tsMaskLen =? 3)%nat then None
      else if negb (forallb
                      (fun i : nat =>
                         let c := wchar_at tsMask (tsMaskLen - i - 1) in
                         (wc "0" <=? c) && (c <=? wc "7"))
                      (seq 0 tsMaskLen))
      then None
      else
        let '(l, end_, errno) :=
          if (tsMaskLen =? 4)%nat then wcstol (skipn 1 tsMask) 8
          else wcstol tsMask 8 in
        if negb (errno =? 0) || (l >? 1911) || (l <? 0)
           || negb (wchar_at end_ 0 =? 0)
        then None
        else Some (to_USHORT l)
  end.

(** ** ParseMode *)

Inductive PARSE_MODE_ACTION_STATE :=
| PARSE_MODE_ACTION_WHO_STATE
| PARSE_MODE_ACTION_OP_STATE
| PARSE_MODE_ACTION_PERM_STATE
| PARSE_MODE_ACTION_REF_STATE
| PARSE_MODE_ACTION_END_STATE.

(** The locals of ParseMode that live across iterations of its loop;
    [actions] is the list hanging from [*pActions]. *)
Record ParseModeLocals := {
  state : PARSE_MODE_ACTION_STATE;
  action : MODE_CHANGE_ACTION;
  actions : list MODE_CHANGE_ACTION;
  i : nat
}.

Inductive ParseModeStep :=
| Continue (l : ParseModeLocals)
| ReturnFALSE.

Definition set_who (a : MODE_CHANGE_ACTION) (w : USHORT) :=
  {| who := w; op := op a; perm := perm a; ref := ref a |}.
Definition set_op (a : MODE_CHANGE_ACTION) (o : CHMOD_OP) :=
  {| who := who a; op := o; perm := perm a; ref := ref a |}.
Definition set_perm (a : MODE_CHANGE_ACTION) (p : USHORT) :=
  {| who := who a; op := op a; perm := p; ref := ref a |}.
Definition set_ref (a : MODE_CHANGE_ACTION) (r : USHORT) :=
  {| who := who a; op := op a; perm := perm a; ref := r |}.

(** Four USHORTs and a pointer, on a 64-bit target. *)
Definition sizeof_MODE_CHANGE_ACTION : Z := 16.

Section ModeGrammarParser.

(** [LocalAlloc(LPTR, n)] returns a block or NULL; the oracle says which,
    from the number of bytes asked for. *)
Variable LocalAlloc : Z -> bool.

(** One iteration of the loop of ParseMode (lines 783-923) at a position
    [i <= len]. *)
Definition ParseMode_body (modeString : LPCWSTR) (l : ParseModeLocals)
  : ParseModeStep :=
  let c := wchar_at modeString (i l) in
  let a := action l in
  let who_case w :=
    Continue {| state := state l; action := set_who a (Z.lor (who a) w);
                actions := actions l; i := S (i l) |} in
  let perm_case p :=
    Continue {| state := state l; action := set_perm a (Z.lor (perm a) p);
                actions := actions l; i := S (i l) |} in
  let ref_case r :=
    Continue {| state := state l; action := set_ref a r;
                actions := actions l; i := S (i l) |} in
  let next st :=
    Continue {| state := st; action := a; actions := actions l;
                i := i l |} in
  match state l with
  | PARSE_MODE_ACTION_WHO_STATE =>
      if c =? wc "a" then who_case CHMOD_WHO_ALL
      else if c =? wc "u" then who_case CHMOD_WHO_USER
      else if c =? wc "g" then who_case CHMOD_WHO_GROUP
      else if c =? wc "o" then who_case CHMOD_WHO_OTHER
      else next PARSE_MODE_ACTION_OP_STATE
  | PARSE_MODE_ACTION_OP_STATE =>
      let op_case o :=
        Continue {| state := PARSE_MODE_ACTION_PERM_STATE;
                    action := set_op a o;
                    actions := actions l; i := S (i l) |} in
      if c =? wc "+" then op_case CHMOD_OP_PLUS
      else if c =? wc "-" then op_case CHMOD_OP_MINUS
      else if c =? wc "=" then op_case CHMOD_OP_EQUAL
      else ReturnFALSE
  | PARSE_MODE_ACTION_PERM_STATE =>
      if c =? wc "r" then perm_case CHMOD_PERM_R
      else if c =? wc "w" then perm_case CHMOD_PERM_W
      else if c =? wc "x" then perm_case CHMOD_PERM_X
      else if c =? wc "X" then perm_case CHMOD_PERM_LX
      else next PARSE_MODE_ACTION_REF_STATE
  | PARSE_MODE_ACTION_REF_STATE =>
      if c =? wc "u" then ref_case CHMOD_WHO_USER
      else if c =? wc "g" then ref_case CHMOD_WHO_GROUP
      else if c =? wc "o" then ref_case CHMOD_WHO_OTHER
      else next PARSE_MODE_ACTION_END_STATE
  | PARSE_MODE_ACTION_END_STATE =>
      let consumed := (c =? 0) || (c =? wc ",") in
      if consumed || (c =? wc "+") || (c =? wc "-") || (c =? wc "=") then
        (* case NULL, case L',': i++ and fall through *)
        let i' := if consumed then S (i l) else i l in
        if LocalAlloc sizeof_MODE_CHANGE_ACTION then
          let a :=
            if who a =? CHMOD_WHO_NONE then set_who a CHMOD_WHO_ALL
            else a in
          let lastWho := who a in
          Continue {| state := PARSE_MODE_ACTION_WHO_STATE;
                      action :=
                        if negb (c =? wc ",")
                        then set_who INIT_MODE_CHANGE_ACTION lastWho
                        else INIT_MODE_CHANGE_ACTION;
                      actions := actions l ++ [a];
                      i := i' |}
        else ReturnFALSE
      else ReturnFALSE
  end.

(** The loop [while (i <= len)]; [None] only when the fuel runs out. *)
Fixpoint ParseMode_loop (fuel : nat) (modeString : LPCWSTR) (len : nat)
    (l : ParseModeLocals) : option (option (list MODE_CHANGE_ACTION)) :=
  if (len <? i l)%nat then Some (Some (actions l))
  else
    match fuel with
    | O => None
    | S fuel' =>
        match ParseMode_body modeString l with
        | Continue l' => ParseMode_loop fuel' modeString len l'
        | ReturnFALSE => Some None
        end
    end.

Definition ParseMode_init : ParseModeLocals :=
  {| state := PARSE_MODE_ACTION_WHO_STATE;
     action := INIT_MODE_CHANGE_ACTION;
     actions := [];
     i := 0 |}.

(** Every iteration consumes a character or moves to a state closer to the
    one that consumes, so five iterations for each position are enough. *)
Definition ParseMode_fuel (len : nat) : nat := 5 * (len + 1) + 5.

(** ParseMode as Chmod calls it, with [*pActions == NULL] on entry (which
    also keeps the assertion of line 887 true); the result is the list left
    in [*pActions], [None] when the function returns FALSE. *)
Definition ParseMode (modeString : LPCWSTR)
  : option (list MODE_CHANGE_ACTION) :=
  match StringCchLengthW modeString STRSAFE_MAX_CCH with
  | None => None
  | Some len =>
      match ParseMode_loop (ParseMode_fuel len) modeString len
              ParseMode_init with
      | Some r => r
      | None => None
      end
  end.

End ModeGrammarParser.

(** ** GetWindowsAccessMask *)

Definition ACCESS_MASK := Z.

(** Modelled from the spec: the UnixAclMask bits of common.h, which is not
    part of the sources at hand.  A mode has three bits (read, write,
    execute) for each of owner, group and other; the layout is the one of
    the masks 0444, 0222, 0111 and of CHMOD_WHO_* in chmod.c. *)
Definition UX_O_EXECUTE : USHORT := 1.    (* 0001 *)
Definition UX_O_WRITE : USHORT := 2.      (* 0002 *)
Definition UX_O_READ : USHORT := 4.       (* 0004 *)
Definition UX_G_EXECUTE : USHORT := 8.    (* 0010 *)
Definition UX_G_WRITE : USHORT := 16.     (* 0020 *)
Definition UX_G_READ : USHORT := 32.      (* 0040 *)
Definition UX_U_EXECUTE : USHORT := 64.   (* 0100 *)
Definition UX_U_WRITE : USHORT := 128.    (* 0200 *)
Definition UX_U_READ : USHORT := 256.     (* 0400 *)

(** The indices of the table [WinMasks] (common.h). *)
Inductive WindowsAclMask :=
| WIN_READ
| WIN_WRITE
| WIN_EXECUTE
| WIN_OWNER_SE
| WIN_ALL.

(** winnt.h *)
Definition FILE_GENERIC_READ : ACCESS_MASK := 1179785.   (* 0x120089 *)

Record WindowsAccessMasks := {
  userAllow : ACCESS_MASK;
  userDeny : ACCESS_MASK;
  groupAllow : ACCESS_MASK;
  groupDeny : ACCESS_MASK;
  otherAllow : ACCESS_MASK
}.

(** [(unixMask & bit) == bit] *)
Definition has_bit (unixMask bit : Z) : bool := Z.land unixMask bit =? bit.

Section AclSynthesizer.

(** The table [WinMasks] is defined in libwinutils.c, which is not part of
    the sources at hand. *)
Variable WinMasks : WindowsAclMask -> ACCESS_MASK.

Definition GetWindowsAccessMask (unixMask : USHORT) : WindowsAccessMasks :=
  let or_if (b : bool) (m acc : ACCESS_MASK) :=
    if b then Z.lor acc m else acc in
  let userAllow := Z.lor (WinMasks WIN_ALL) (WinMasks WIN_OWNER_SE) in
  let userAllow :=
    or_if (has_bit unixMask UX_U_READ) (WinMasks WIN_READ) userAllow in
  let userAllow :=
    or_if (has_bit unixMask UX_U_WRITE) (WinMasks WIN_WRITE) userAllow in
  let userAllow :=
    or_if (has_bit unixMask UX_U_EXECUTE) (WinMasks WIN_EXECUTE) userAllow in
  let userDeny := 0 in
  let userDeny :=
    or_if (negb (has_bit unixMask UX_U_READ)
           && (has_bit unixMask UX_G_READ || has_bit unixMask UX_O_READ))
      (WinMasks WIN_READ) userDeny in
  let userDeny :=
    or_if (negb (has_bit unixMask UX_U_WRITE)
           && (has_bit unixMask UX_G_WRITE || has_bit unixMask UX_O_WRITE))
      (WinMasks WIN_WRITE) userDeny in
  let userDeny :=
    or_if (negb (has_bit unixMask UX_U_EXECUTE)
           && (has_bit unixMask UX_G_EXECUTE
               || has_bit unixMask UX_O_EXECUTE))
      (WinMasks WIN_EXECUTE) userDeny in
  let groupAllow := WinMasks WIN_ALL in
  let groupAllow :=
    or_if (has_bit unixMask UX_G_READ) FILE_GENERIC_READ groupAllow in
  let groupAllow :=
    or_if (has_bit unixMask UX_G_WRITE) (WinMasks WIN_WRITE) groupAllow in
  let groupAllow :=
    or_if (has_bit unixMask UX_G_EXECUTE) (WinMasks WIN_EXECUTE)
      groupAllow in
  let groupDeny := 0 in
  let groupDeny :=
    or_if (negb (has_bit unixMask UX_G_READ) && has_bit unixMask UX_O_READ)
      (WinMasks WIN_READ) groupDeny in
  let groupDeny :=
    or_if (negb (has_bit unixMask UX_G_WRITE) && has_bit unixMask UX_O_WRITE)
      (WinMasks WIN_WRITE) groupDeny in
  let groupDeny :=
    or_if (negb (has_bit unixMask UX_G_EXECUTE)
           && has_bit unixMask UX_O_EXECUTE)
      (WinMasks WIN_EXECUTE) groupDeny in
  let otherAllow := WinMasks WIN_ALL in
  let otherAllow :=
    or_if (has_bit unixMask UX_O_READ) (WinMasks WIN_READ) otherAllow in
  let otherAllow :=
    or_if (has_bit unixMask UX_O_WRITE) (WinMasks WIN_WRITE) otherAllow in
  let otherAllow :=
    or_if (has_bit unixMask UX_O_EXECUTE) (WinMasks WIN_EXECUTE)
      otherAllow in
  {| userAllow := userAllow; userDeny := userDeny;
     groupAllow := groupAllow; groupDeny := groupDeny;
     otherAllow := otherAllow |}.

End AclSynthesizer.

(** ** The operating system *)

(** A security identifier: its authority and its sub-authorities. *)
Record SID := {
  IdentifierAuthority : Z;
  SubAuthority : list DWORD
}.

(** The well-known SID of Everyone, S-1-1-0, as GetWindowsDACLs asks for it:
    SECURITY_WORLD_SID_AUTHORITY with the one sub-authority
    SECURITY_WORLD_RID. *)
Definition EveryoneSid : SID :=
  {| IdentifierAuthority := 1; SubAuthority := [0] |}.

Definition GetLengthSid (s : SID) : DWORD :=
  8 + 4 * Z.of_nat (List.length (SubAuthority s)).

Inductive ACE_TYPE :=
| ACCESS_ALLOWED_ACE_TYPE
| ACCESS_DENIED_ACE_TYPE.

(** An access control entry, and an ACL as the list of its entries in the
    order in which they were added. *)
Record ACE := {
  AceType : ACE_TYPE;
  Mask : ACCESS_MASK;
  AceSid : SID
}.

Definition ACL := list ACE.

Definition sizeof_ACL : Z := 8.
Definition sizeof_ACCESS_ALLOWED_ACE : Z := 12.
Definition sizeof_ACCESS_DENIED_ACE : Z := 12.
Definition sizeof_DWORD : Z := 4.
Definition sizeof_WCHAR : Z := 2.

Record BY_HANDLE_FILE_INFORMATION := {
  dwFileAttributes : DWORD
}.

Definition FILE_ATTRIBUTE_DIRECTORY : DWORD := 16.
Definition SE_SELF_RELATIVE : Z := 32768.              (* 0x8000 *)
Definition ERROR_INSUFFICIENT_BUFFER : DWORD := 122.

(** Modelled from the spec: IsDirFileInfo is defined in libwinutils.c, which
    is not part of the sources at hand; it reads the directory flag from the
    file metadata. *)
Definition IsDirFileInfo (fileInformation : BY_HANDLE_FILE_INFORMATION)
  : bool :=
  Z.land (dwFileAttributes fileInformation) FILE_ATTRIBUTE_DIRECTORY
  =? FILE_ATTRIBUTE_DIRECTORY.

(** A security descriptor is only handed from one system call to the next;
    it is identified by a number. *)
Definition PSECURITY_DESCRIPTOR := Z.

Record MakeAbsoluteSD_sizes := {
  lastError : DWORD;
  absSDSize : DWORD;
  daclSize : DWORD;
  saclSize : DWORD;
  ownerSize : DWORD;
  primaryGroupSize : DWORD
}.

(** What the operating system and libwinutils answer.  Every field is the
    outcome of one call as a function of its arguments; [None] and [false]
    are the failure of the call. *)
Record NativeEnv := {
  LocalAlloc : Z -> bool;
  AllocateAndInitializeSid : SID -> bool;
  InitializeAcl : DWORD -> bool;
  AddAccessDeniedAce_ok : ACL -> ACCESS_MASK -> SID -> bool;
  AddAccessAllowedAce_ok : ACL -> ACCESS_MASK -> SID -> bool;
  GetFileInformationByName : LPCWSTR -> option BY_HANDLE_FILE_INFORMATION;
  ConvertToLongPath : LPCWSTR -> option LPCWSTR;
  (* the mode behind [pMask] before the call, and after it *)
  FindFileOwnerAndPermission : LPCWSTR -> USHORT -> option USHORT;
  (* the name found first, then the names FindNextFileW delivers until it
     returns FALSE *)
  FindFirstFile : LPCWSTR -> option (LPCWSTR * list LPCWSTR);
  (* owner, group, descriptor *)
  GetNamedSecurityInfoW : LPCWSTR -> option (SID * SID * PSECURITY_DESCRIPTOR);
  GetSecurityDescriptorControl : PSECURITY_DESCRIPTOR -> option Z;
  (* the first call of MakeAbsoluteSD, which only asks for the sizes *)
  MakeAbsoluteSD_query : PSECURITY_DESCRIPTOR -> MakeAbsoluteSD_sizes;
  MakeAbsoluteSD : PSECURITY_DESCRIPTOR -> bool;
  (* the descriptor is NULL ([None]) when the one read was not
     self-relative *)
  SetSecurityDescriptorDacl : option PSECURITY_DESCRIPTOR -> ACL -> bool;
  SetFileSecurity : LPCWSTR -> option PSECURITY_DESCRIPTOR -> ACL -> bool
}.

(** The calls that reach the file system or the security of an object, as
    the program issues them. *)
Inductive NativeCall :=
| Call_GetFileInformationByName (path : LPCWSTR)
| Call_ConvertToLongPath (path : LPCWSTR)
| Call_FindFileOwnerAndPermission (path : LPCWSTR)
| Call_FindFirstFile (dir : LPCWSTR)
| Call_FindNextFileW (dir : LPCWSTR)
| Call_GetNamedSecurityInfoW (path : LPCWSTR)
| Call_SetFileSecurity (path : LPCWSTR) (dacl : ACL).

(** A computation returns its result and the calls it issued, in order, each
    with whether it succeeded. *)
Definition IO (A : Type) : Type := A * list (NativeCall * bool).

Definition ret {A} (a : A) : IO A := (a, []).

Definition bind {A B} (m : IO A) (k : A -> IO B) : IO B :=
  (fst (k (fst m)), snd m ++ snd (k (fst m))).

Definition call_opt {A} (c : NativeCall) (answer : option A)
  : IO (option A) :=
  (answer, [(c, match answer with Some _ => true | None => false end)]).

Definition call_bool (c : NativeCall) (answer : bool) : IO bool :=
  (answer, [(c, answer)]).

Notation "x <- m ;; k" := (bind m (fun x => k))
  (at level 61, m at next level, right associativity).

Definition result {A} (m : IO A) : A := fst m.
Definition calls {A} (m : IO A) : list (NativeCall * bool) := snd m.

Definition EXIT_SUCCESS : Z := 0.
Definition EXIT_FAILURE : Z := 1.

(** ** The drivers *)

Section Drivers.

Variable UX_DIRECTORY : USHORT.
Variable WinMasks : WindowsAclMask -> ACCESS_MASK.
Variable env : NativeEnv.

(** advapi32: both calls append one entry to the ACL, or fail. *)
Definition AddAccessDeniedAce (pAcl : ACL) (AccessMask : ACCESS_MASK)
    (pSid : SID) : option ACL :=
  if AddAccessDeniedAce_ok env pAcl AccessMask pSid
  then Some (pAcl ++ [{| AceType := ACCESS_DENIED_ACE_TYPE;
                         Mask := AccessMask; AceSid := pSid |}])
  else None.

Definition AddAccessAllowedAce (pAcl : ACL) (AccessMask : ACCESS_MASK)
    (pSid : SID) : option ACL :=
  if AddAccessAllowedAce_ok env pAcl AccessMask pSid
  then Some (pAcl ++ [{| AceType := ACCESS_ALLOWED_ACE_TYPE;
                         Mask := AccessMask; AceSid := pSid |}])
  else None.

(** The result is the ACL stored in [*ppNewDACL], [None] when the function
    returns FALSE. *)
Definition GetWindowsDACLs (unixMask : USHORT) (pOwnerSid pGroupSid : SID)
  : option ACL :=
  let m := GetWindowsAccessMask WinMasks unixMask in
  let winUserAccessAllowMask := userAllow m in
  let winUserAccessDenyMask := userDeny m in
  let winGroupAccessAllowMask := groupAllow m in
  let winGroupAccessDenyMask := groupDeny m in
  let winOtherAccessAllowMask := otherAllow m in
  if negb (AllocateAndInitializeSid env EveryoneSid) then None
  else
    let pEveryoneSid := EveryoneSid in
    let dwNewAclSize := sizeof_ACL in
    let dwNewAclSize :=
      to_DWORD (dwNewAclSize + (sizeof_ACCESS_ALLOWED_ACE
                                + GetLengthSid pOwnerSid - sizeof_DWORD)) in
    let dwNewAclSize :=
      if negb (winUserAccessDenyMask =? 0)
      then to_DWORD (dwNewAclSize + (sizeof_ACCESS_DENIED_ACE
                                     + GetLengthSid pOwnerSid - sizeof_DWORD))
      else dwNewAclSize in
    let dwNewAclSize :=
      to_DWORD (dwNewAclSize + (sizeof_ACCESS_ALLOWED_ACE
                                + GetLengthSid pGroupSid - sizeof_DWORD)) in
    let dwNewAclSize :=
      if negb (winGroupAccessDenyMask =? 0)
      then to_DWORD (dwNewAclSize + (sizeof_ACCESS_DENIED_ACE
                                     + GetLengthSid pGroupSid - sizeof_DWORD))
      else dwNewAclSize in
    let dwNewAclSize :=
      to_DWORD (dwNewAclSize + (sizeof_ACCESS_ALLOWED_ACE
                                + GetLengthSid pEveryoneSid
                                - sizeof_DWORD)) in
    if negb (LocalAlloc env dwNewAclSize) then None
    else if negb (InitializeAcl env dwNewAclSize) then None
    else
      let pNewDACL : ACL := [] in
      match (if negb (winUserAccessDenyMask =? 0)
             then AddAccessDeniedAce pNewDACL winUserAccessDenyMask pOwnerSid
             else Some pNewDACL) with
      | None => None
      | Some pNewDACL =>
      match AddAccessAllowedAce pNewDACL winUserAccessAllowMask pOwnerSid with
      | None => None
      | Some pNewDACL =>
      match (if negb (winGroupAccessDenyMask =? 0)
             then AddAccessDeniedAce pNewDACL winGroupAccessDenyMask pGroupSid
             else Some pNewDACL) with
      | None => None
      | Some pNewDACL =>
      match AddAccessAllowedAce pNewDACL winGroupAccessAllowMask pGroupSid with
      | None => None
      | Some pNewDACL =>
          AddAccessAllowedAce pNewDACL winOtherAccessAllowMask pEveryoneSid
      end end end end.

Definition ChangeFileModeByMask (path : LPCWSTR) (mode : USHORT) : IO bool :=
  r <- call_opt (Call_GetNamedSecurityInfoW path)
         (GetNamedSecurityInfoW env path) ;;
  match r with
  | None => ret false
  | Some (pOwnerSid, pGroupSid, pSD) =>
      match GetSecurityDescriptorControl env pSD with
      | None => ret false
      | Some control =>
          (* [None]: one of the steps failed; otherwise the value of pAbsSD *)
          let absolute : option (option PSECURITY_DESCRIPTOR) :=
            if Z.land control SE_SELF_RELATIVE =? SE_SELF_RELATIVE then
              let q := MakeAbsoluteSD_query env pSD in
              if negb (lastError q =? ERROR_INSUFFICIENT_BUFFER) then None
              else if negb (LocalAlloc env (absSDSize q)
                            && LocalAlloc env (daclSize q)
                            && LocalAlloc env (saclSize q)
                            && LocalAlloc env (ownerSize q)
                            && LocalAlloc env (primaryGroupSize q))
              then None
              else if negb (MakeAbsoluteSD env pSD) then None
              else Some (Some pSD)
            else Some None in
          match absolute with
          | None => ret false
          | Some pAbsSD =>
              match GetWindowsDACLs mode pOwnerSid pGroupSid with
              | None => ret false
              | Some pNewDACL =>
                  if negb (SetSecurityDescriptorDacl env pAbsSD pNewDACL)
                  then ret false
                  else
                    call_bool (Call_SetFileSecurity path pNewDACL)
                      (SetFileSecurity env path pAbsSD pNewDACL)
              end
          end
      end
  end.

(** The result is the mode stored in [*puMask], [None] when the function
    returns FALSE. *)
Definition ConvertActionsToMask (path : LPCWSTR)
    (actions : list MODE_CHANGE_ACTION) : IO (option USHORT) :=
  r <- call_opt (Call_GetFileInformationByName path)
         (GetFileInformationByName env path) ;;
  match r with
  | None => ret None
  | Some fileInformation =>
      let mode := 0 in
      let mode :=
        if IsDirFileInfo fileInformation then Z.lor mode UX_DIRECTORY
        else mode in
      r <- call_opt (Call_FindFileOwnerAndPermission path)
             (FindFileOwnerAndPermission env path mode) ;;
      match r with
      | None => ret None
      | Some mode =>
          ret (Some (fold_left
                       (fun mode curr =>
                          ComputeNewMode UX_DIRECTORY mode (who curr)
                            (op curr) (perm curr) (ref curr))
                       actions mode))
      end
  end.

Definition ChangeFileModeByActions (path : LPCWSTR)
    (actions : list MODE_CHANGE_ACTION) : IO bool :=
  r <- ConvertActionsToMask path actions ;;
  match r with
  | Some mask => ChangeFileModeByMask path mask
  | None => ret false
  end.

Definition ChangeFileMode (path : LPCWSTR) (unixAccessMask : USHORT)
    (actions : list MODE_CHANGE_ACTION) : IO bool :=
  match actions with
  | _ :: _ => ChangeFileModeByActions path actions
  | [] => ChangeFileModeByMask path unixAccessMask
  end.

(** The do-while loop of ChangeFileModeRecursively over the names that the
    enumeration of [dir] delivers; [self] is the recursive call.  The result
    is [Some true] when the loop runs to its end, [Some false] when it leaves
    through [goto ChangeFileModeRecursivelyEnd]. *)
Fixpoint ChangeFileModeRecursively_loop
    (self : LPCWSTR -> IO (option bool))
    (path dir : LPCWSTR) (pathSize : nat) (names : list LPCWSTR)
  : IO (option bool) :=
  match names with
  | [] => ret (Some true)
  | cFileName :: names' =>
      let next :=
        more <- call_bool (Call_FindNextFileW dir)
                  (match names' with [] => false | _ => true end) ;;
        ChangeFileModeRecursively_loop self path dir pathSize names' in
      if wcs_eqb cFileName (L ".") || wcs_eqb cFileName (L "..") then next
      else
        let filenameSize :=
          Z.of_nat pathSize + Z.of_nat (wcslen cFileName) + 2 in
        if negb (LocalAlloc env (filenameSize * sizeof_WCHAR))
        then ret (Some false)
        else
          match StringCchCopyW filenameSize path with
          | None => ret (Some false)
          | Some filename =>
          match StringCchCatW filename filenameSize [backslash] with
          | None => ret (Some false)
          | Some filename =>
          match StringCchCatW filename filenameSize cFileName with
          | None => ret (Some false)
          | Some filename =>
              r <- self filename ;;
              match r with
              | None => ret None
              | Some false => ret (Some false)
              | Some true => next
              end
          end end end
  end.

(** The recursion descends only below a directory whose path is shorter than
    MAX_PATH - 3 and every child has a longer path, so it is at most that
    deep; [None] only when the fuel runs out. *)
Fixpoint ChangeFileModeRecursively_fuel (fuel : nat) (path : LPCWSTR)
    (mode : USHORT) (actions : list MODE_CHANGE_ACTION)
  : IO (option bool) :=
  match fuel with
  | O => ret None
  | S fuel' =>
      r <- call_opt (Call_GetFileInformationByName path)
             (GetFileInformationByName env path) ;;
      match r with
      | None => ret (Some false)
      | Some fileInfo =>
          if negb (IsDirFileInfo fileInfo) then
            b <- ChangeFileMode path mode actions ;;
            ret (Some b)
          else
            match StringCchLengthW path (MAX_PATH - 3) with
            | None => ret (Some false)
            | Some pathSize =>
                let dirSize := Z.of_nat pathSize + 3 in
                if negb (LocalAlloc env (dirSize * sizeof_WCHAR))
                then ret (Some false)
                else
                  match StringCchCopyW dirSize path with
                  | None => ret (Some false)
                  | Some dir =>
                  match StringCchCatW dir dirSize [backslash; wc "*"] with
                  | None => ret (Some false)
                  | Some dir =>
                      r <- call_opt (Call_FindFirstFile dir)
                             (FindFirstFile env dir) ;;
                      match r with
                      | None => ret (Some false)
                      | Some (first, rest) =>
                          r <- ChangeFileModeRecursively_loop
                                 (fun filename =>
                                    ChangeFileModeRecursively_fuel fuel'
                                      filename mode actions)
                                 path dir pathSize (first :: rest) ;;
                          match r with
                          | None => ret None
                          | Some false => ret (Some false)
                          | Some true =>
                              b <- ChangeFileMode path mode actions ;;
                              ret (Some b)
                          end
                      end
                  end end
            end
      end
  end.

Definition ChangeFileModeRecursively (path : LPCWSTR) (mode : USHORT)
    (actions : list MODE_CHANGE_ACTION) : IO bool :=
  r <- ChangeFileModeRecursively_fuel (Z.to_nat MAX_PATH) path mode actions ;;
  ret (match r with Some b => b | None => false end).

(** What ParseCommandLineArguments stores through its out parameters. *)
Record CommandLine := {
  rec : bool;
  mask : USHORT;
  cl_actions : list MODE_CHANGE_ACTION;
  cl_path : LPCWSTR
}.

(** [argc] is the length of [argv]; [mask] and [actions] start as Chmod
    initialises them, 0 and NULL.  The result is [None] when the function
    returns FALSE. *)
Definition ParseCommandLineArguments (argv : list LPCWSTR)
  : IO (option CommandLine) :=
  let parse (rec : bool) (maskString path : LPCWSTR) :=
    match ParseOctalMode maskString with
    | Some mask =>
        Some {| rec := rec; mask := mask; cl_actions := [];
                cl_path := path |}
    | None =>
        match ParseMode (LocalAlloc env) maskString with
        | Some actions =>
            Some {| rec := rec; mask := 0; cl_actions := actions;
                    cl_path := path |}
        | None => None
        end
    end in
  match argv with
  | [_; argv1; argv2; argv3] =>
      let maskString := argv2 in
      let path := argv3 in
      if wcs_eqb argv1 (L "-R") then
        r <- call_opt (Call_GetFileInformationByName path)
               (GetFileInformationByName env path) ;;
        match r with
        | None => ret None
        | Some fileInfo =>
            ret (parse (IsDirFileInfo fileInfo) maskString path)
        end
      else ret None
  | [_; argv1; argv2] => ret (parse false argv1 argv2)
  | _ => ret None
  end.

Definition Chmod (argv : list LPCWSTR) : IO Z :=
  r <- ParseCommandLineArguments argv ;;
  match r with
  | None => ret EXIT_FAILURE
  | Some cl =>
      let pathName := cl_path cl in
      let recursive := rec cl in
      let unixAccessMask := mask cl in
      let actions := cl_actions cl in
      r <- call_opt (Call_ConvertToLongPath pathName)
             (ConvertToLongPath env pathName) ;;
      match r with
      | None => ret EXIT_FAILURE
      | Some longPathName =>
          if negb recursive then
            b <- ChangeFileMode longPathName unixAccessMask actions ;;
            ret (if b : bool then EXIT_SUCCESS else EXIT_FAILURE)
          else
            b <- ChangeFileModeRecursively longPathName unixAccessMask
                   actions ;;
            ret (if b : bool then EXIT_SUCCESS else EXIT_FAILURE)
      end
  end.

End Drivers.

(** ** Specification-side definitions

    What the statements below compare the code with. *)

(** The three classes of a mode and what can be granted to one. *)
Inductive CLASS := OWNER | GROUP | OTHER.
Inductive RIGHT := READ | WRITE | EXECUTE.

Definition class_selector (c : CLASS) : USHORT :=
  match c with
  | OWNER => CHMOD_WHO_USER
  | GROUP => CHMOD_WHO_GROUP
  | OTHER => CHMOD_WHO_OTHER
  end.

Definition right_triple (r : RIGHT) : USHORT :=
  match r with
  | READ => readMask
  | WRITE => writeMask
  | EXECUTE => exeMask
  end.

(** The bit of right [r] for class [c] in a mode. *)
Definition mode_bit (c : CLASS) (r : RIGHT) : USHORT :=
  Z.land (right_triple r) (class_selector c).

Definition has_right (m : USHORT) (c : CLASS) (r : RIGHT) : Prop :=
  Z.land m (mode_bit c r) <> 0.

Definition is_directory (UX_DIRECTORY m : USHORT) : Prop :=
  Z.land m UX_DIRECTORY = UX_DIRECTORY.

Definition win_right (r : RIGHT) : WindowsAclMask :=
  match r with
  | READ => WIN_READ
  | WRITE => WIN_WRITE
  | EXECUTE => WIN_EXECUTE
  end.

(** An access mask contains a right when it has every bit that the table
    gives this right. *)
Definition contains_right (WinMasks : WindowsAclMask -> ACCESS_MASK)
    (m : ACCESS_MASK) (r : RIGHT) : Prop :=
  Z.land m (WinMasks (win_right r)) = WinMasks (win_right r).

(** The three rights of the table are told apart: each has a bit, and no two
    share one. *)
Definition rights_distinct (WinMasks : WindowsAclMask -> ACCESS_MASK)
  : Prop :=
  (forall r, WinMasks (win_right r) <> 0) /\
  (forall r1 r2, r1 <> r2 ->
     Z.land (WinMasks (win_right r1)) (WinMasks (win_right r2)) = 0).

Definition is_octal_digit (c : WCHAR) : Prop := wc "0" <= c <= wc "7".

(** The letters of the grammar and what they stand for. *)
Definition who_of_char (c : WCHAR) : option USHORT :=
  if c =? wc "a" then Some CHMOD_WHO_ALL
  else if c =? wc "u" then Some CHMOD_WHO_USER
  else if c =? wc "g" then Some CHMOD_WHO_GROUP
  else if c =? wc "o" then Some CHMOD_WHO_OTHER
  else None.

Definition op_of_char (c : WCHAR) : option CHMOD_OP :=
  if c =? wc "+" then Some CHMOD_OP_PLUS
  else if c =? wc "-" then Some CHMOD_OP_MINUS
  else if c =? wc "=" then Some CHMOD_OP_EQUAL
  else None.

Definition perm_of_char (c : WCHAR) : option USHORT :=
  if c =? wc "r" then Some CHMOD_PERM_R
  else if c =? wc "w" then Some CHMOD_PERM_W
  else if c =? wc "x" then Some CHMOD_PERM_X
  else if c =? wc "X" then Some CHMOD_PERM_LX
  else None.

(** The union of the sets that a run of letters names. *)
Definition union_of (f : WCHAR -> option USHORT) (cs : list WCHAR)
  : USHORT :=
  fold_left (fun acc c => match f c with
                          | Some v => Z.lor acc v
                          | None => acc
                          end) cs CHMOD_WHO_NONE.

Definition all_letters {A} (f : WCHAR -> option A) (cs : list WCHAR)
  : Prop :=
  Forall (fun c => f c <> None) cs.

(** The order in which the loop of ParseMode visits its states between two
    characters, and the number of iterations that are left at most. *)
Definition ParseMode_rank (st : PARSE_MODE_ACTION_STATE) : nat :=
  match st with
  | PARSE_MODE_ACTION_OP_STATE => 0
  | PARSE_MODE_ACTION_WHO_STATE => 1
  | PARSE_MODE_ACTION_END_STATE => 2
  | PARSE_MODE_ACTION_REF_STATE => 3
  | PARSE_MODE_ACTION_PERM_STATE => 4
  end.

Definition ParseMode_measure (len : nat) (l : ParseModeLocals) : nat :=
  5 * (len + 1 - i l) + ParseMode_rank (state l).

(** The action as the END state stores it: an empty [who] becomes "all". *)
Definition finalized (a : MODE_CHANGE_ACTION) : MODE_CHANGE_ACTION :=
  if who a =? CHMOD_WHO_NONE then set_who a CHMOD_WHO_ALL else a.

(** The letter of a reference class. *)
Definition ref_of_char (c : WCHAR) : option USHORT :=
  if c =? wc "u" then Some CHMOD_WHO_USER
  else if c =? wc "g" then Some CHMOD_WHO_GROUP
  else if c =? wc "o" then Some CHMOD_WHO_OTHER
  else None.

(** The union of the sets that a run of letters names, added to [init]. *)
Definition union_from (f : WCHAR -> option USHORT) (init : USHORT)
    (cs : list WCHAR) : USHORT :=
  fold_left (fun acc c => match f c with
                          | Some v => Z.lor acc v
                          | None => acc
                          end) cs init.

(** The loop of ParseMode gets from [l] to [l'] in some iterations. *)
Definition ParseMode_reaches (alloc : Z -> bool) (s : LPCWSTR) (len : nat)
    (l l' : ParseModeLocals) : Prop :=
  exists n, forall fuel,
    ParseMode_loop alloc (n + fuel) s len l
    = ParseMode_loop alloc fuel s len l'.

(** When a class lacks a right that a broader class has. *)
Definition owner_must_be_denied (m : USHORT) (r : RIGHT) : Prop :=
  ~ has_right m OWNER r /\ (has_right m GROUP r \/ has_right m OTHER r).

Definition group_must_be_denied (m : USHORT) (r : RIGHT) : Prop :=
  ~ has_right m GROUP r /\ has_right m OTHER r.

Definition deny_entry (sid : SID) (m : ACCESS_MASK) : ACL :=
  if m =? 0 then []
  else [{| AceType := ACCESS_DENIED_ACE_TYPE; Mask := m; AceSid := sid |}].

Definition allow_entry (sid : SID) (m : ACCESS_MASK) : ACL :=
  [{| AceType := ACCESS_ALLOWED_ACE_TYPE; Mask := m; AceSid := sid |}].

(** The ACL of a mode: for the owner and for the group a deny entry, when
    there is something to deny, before the allow entry; then the allow
    entry of Everyone. *)
Definition expected_acl (m : WindowsAccessMasks) (owner group : SID) : ACL :=
  deny_entry owner (userDeny m) ++ allow_entry owner (userAllow m)
  ++ deny_entry group (groupDeny m) ++ allow_entry group (groupAllow m)
  ++ allow_entry EveryoneSid (otherAllow m).

(** Every call that builds an ACL succeeds. *)
Definition acl_calls_succeed (env : NativeEnv) : Prop :=
  AllocateAndInitializeSid env EveryoneSid = true /\
  (forall n, LocalAlloc env n = true) /\
  (forall n, InitializeAcl env n = true) /\
  (forall acl m sid, AddAccessDeniedAce_ok env acl m sid = true) /\
  (forall acl m sid, AddAccessAllowedAce_ok env acl m sid = true).

(** The paths whose security was rewritten, in the order of the calls. *)
Definition applied (t : list (NativeCall * bool)) : list LPCWSTR :=
  flat_map (fun e => match e with
                     | (Call_SetFileSecurity path _, true) => [path]
                     | _ => []
                     end) t.

Definition child_path (path name : LPCWSTR) : LPCWSTR :=
  wcs path ++ [backslash] ++ wcs name.

Definition is_pseudo_entry (name : LPCWSTR) : bool :=
  wcs_eqb name (L ".") || wcs_eqb name (L "..").

(** The post-order listing of the tree below [path], as the file system
    describes it: the listings of the children in the order of the
    enumeration, without the two pseudo-entries, then [path] itself.
    [depth] bounds the levels that are listed. *)
Fixpoint postorder (env : NativeEnv) (depth : nat) (path : LPCWSTR)
  : list LPCWSTR :=
  match depth with
  | O => [path]
  | S depth' =>
      match GetFileInformationByName env path with
      | Some fileInfo =>
          if IsDirFileInfo fileInfo then
            match FindFirstFile env (wcs path ++ [backslash; wc "*"]) with
            | Some (first, rest) =>
                flat_map (fun name => postorder env depth'
                                        (child_path path name))
                  (filter (fun name => negb (is_pseudo_entry name))
                     (first :: rest))
                ++ [path]
            | None => [path]
            end
          else [path]
      | None => [path]
      end
  end.


(** ** An example system

    A directory [d] that holds a file [f] and an empty directory [s]; every
    file has mode 0644 and every call succeeds. *)

(** A table of rights built from the access rights of winnt.h. *)
Definition example_WinMasks (w : WindowsAclMask) : ACCESS_MASK :=
  match w with
  | WIN_READ => 1               (* FILE_READ_DATA *)
  | WIN_WRITE => 342            (* FILE_WRITE_DATA | FILE_WRITE_ATTRIBUTES
                                   | FILE_APPEND_DATA | FILE_WRITE_EA
                                   | FILE_DELETE_CHILD *)
  | WIN_EXECUTE => 32           (* FILE_EXECUTE *)
  | WIN_OWNER_SE => 852240      (* DELETE | WRITE_DAC | WRITE_OWNER
                                   | FILE_WRITE_EA | FILE_WRITE_ATTRIBUTES *)
  | WIN_ALL => 1179784          (* READ_CONTROL | FILE_READ_EA
                                   | FILE_READ_ATTRIBUTES | SYNCHRONIZE *)
  end.

Definition example_UX_DIRECTORY : USHORT := 16384.   (* 0040000 *)

Definition example_owner : SID :=
  {| IdentifierAuthority := 5; SubAuthority := [21; 1000] |}.
Definition example_group : SID :=
  {| IdentifierAuthority := 5; SubAuthority := [21; 513] |}.

Definition example_env : NativeEnv := {|
  LocalAlloc := fun _ => true;
  AllocateAndInitializeSid := fun _ => true;
  InitializeAcl := fun _ => true;
  AddAccessDeniedAce_ok := fun _ _ _ => true;
  AddAccessAllowedAce_ok := fun _ _ _ => true;
  GetFileInformationByName := fun p =>
    if wcs_eqb p (L "d") || wcs_eqb p (child_path (L "d") (L "s"))
    then Some {| dwFileAttributes := FILE_ATTRIBUTE_DIRECTORY |}
    else Some {| dwFileAttributes := 32 |};
  ConvertToLongPath := fun p => Some p;
  FindFileOwnerAndPermission := fun _ m => Some (Z.lor m 420);
  FindFirstFile := fun p =>
    if wcs_eqb p (L "d" ++ [backslash; wc "*"])
    then Some (L ".", [L ".."; L "f"; L "s"])
    else Some (L ".", [L ".."]);
  GetNamedSecurityInfoW := fun _ => Some (example_owner, example_group, 1);
  GetSecurityDescriptorControl := fun _ => Some SE_SELF_RELATIVE;
  MakeAbsoluteSD_query := fun _ =>
    {| lastError := ERROR_INSUFFICIENT_BUFFER; absSDSize := 20;
       daclSize := 64; saclSize := 0; ownerSize := 16;
       primaryGroupSize := 16 |};
  MakeAbsoluteSD := fun _ => true;
  SetSecurityDescriptorDacl := fun _ _ => true;
  SetFileSecurity := fun _ _ _ => true
|}.

(** ** More specification-side definitions *)

(** The triples of the letters r, w and x of a permission set. *)
Definition literal_mask (perm : USHORT) : USHORT :=
  Z.lor (Z.lor (if Z.land perm CHMOD_PERM_R =? CHMOD_PERM_R
                then readMask else 0)
               (if Z.land perm CHMOD_PERM_W =? CHMOD_PERM_W
                then writeMask else 0))
        (if Z.land perm CHMOD_PERM_X =? CHMOD_PERM_X then exeMask else 0).

(** Whether the letter X grants execute on a mode. *)
Definition grants_conditional_execute (UX_DIRECTORY m : USHORT) : bool :=
  (Z.land m UX_DIRECTORY =? UX_DIRECTORY) || negb (Z.land m exeMask =? 0).

Definition conditional_mask (UX_DIRECTORY m perm : USHORT) : USHORT :=
  if (Z.land perm CHMOD_PERM_LX =? CHMOD_PERM_LX)
     && grants_conditional_execute UX_DIRECTORY m
  then exeMask else 0.

(** What every action that ParseMode stores looks like. *)
Definition pending_action (a : MODE_CHANGE_ACTION) : Prop :=
  Z.land (who a) CHMOD_WHO_ALL = who a /\
  Z.land (perm a) 15 = perm a /\
  (ref a = CHMOD_WHO_NONE \/ ref a = CHMOD_WHO_USER
   \/ ref a = CHMOD_WHO_GROUP \/ ref a = CHMOD_WHO_OTHER).

Definition well_formed_action (a : MODE_CHANGE_ACTION) : Prop :=
  op a <> CHMOD_OP_INVALID /\ who a <> CHMOD_WHO_NONE /\ pending_action a.

Definition past_operator (st : PARSE_MODE_ACTION_STATE) : bool :=
  match st with
  | PARSE_MODE_ACTION_PERM_STATE
  | PARSE_MODE_ACTION_REF_STATE
  | PARSE_MODE_ACTION_END_STATE => true
  | _ => false
  end.

Definition is_operator (c : WCHAR) : bool :=
  match op_of_char c with Some _ => true | None => false end.

Definition count_operators (s : list WCHAR) : nat :=
  List.length (filter is_operator s).

(** The locals of a run on the rest of a string, seen from the whole
    string: [k] characters and the actions [acts] came before. *)
Definition ParseMode_shift (acts : list MODE_CHANGE_ACTION) (k : nat)
    (l : ParseModeLocals) : ParseModeLocals :=
  {| state := state l; action := action l; actions := acts ++ actions l;
     i := k + i l |}.

(** A mode that calls for no deny entry: no class lacks a right that a
    broader class has. *)
Definition nothing_denied (m : USHORT) : Prop :=
  forall r, ~ owner_must_be_denied m r /\ ~ group_must_be_denied m r.

(** The bytes that an entry takes in an ACL: the SID starts where the last
    DWORD of the entry structure is. *)
Definition ace_size (a : ACE) : Z :=
  match AceType a with
  | ACCESS_ALLOWED_ACE_TYPE => sizeof_ACCESS_ALLOWED_ACE
  | ACCESS_DENIED_ACE_TYPE => sizeof_ACCESS_DENIED_ACE
  end + GetLengthSid (AceSid a) - sizeof_DWORD.

Definition acl_size (acl : ACL) : Z :=
  sizeof_ACL + fold_right Z.add 0 (map ace_size acl).

(** winnt.h: a SID has at most SID_MAX_SUB_AUTHORITIES sub-authorities. *)
Definition SID_MAX_SUB_AUTHORITIES : nat := 15.

(** The call that reads the mode a file has. *)
Definition reads_mode (c : NativeCall) : bool :=
  match c with
  | Call_FindFileOwnerAndPermission _ => true
  | _ => false
  end.



(** ** The grammar of a symbolic mode

    A mode is clauses separated by commas; a clause is who letters, then
    one group or more; a group is an operator, permission letters, then
    reference letters. *)

Inductive is_group : list WCHAR -> Prop :=
| is_group_intro c perms refs :
    op_of_char c <> None ->
    all_letters perm_of_char perms ->
    all_letters ref_of_char refs ->
    is_group (c :: perms ++ refs).

Inductive is_groups : list WCHAR -> Prop :=
| is_groups_one g : is_group g -> is_groups g
| is_groups_more g gs : is_group g -> is_groups gs -> is_groups (g ++ gs).

Definition is_clause (t : list WCHAR) : Prop :=
  exists whos gs,
    all_letters who_of_char whos /\ is_groups gs /\ t = whos ++ gs.

Inductive is_mode : list WCHAR -> Prop :=
| is_mode_one c : is_clause c -> is_mode c
| is_mode_more c m :
    is_clause c -> is_mode m -> is_mode (c ++ wc "," :: m).

(** What may follow a clause, and what may follow a group. *)
Definition after_clause (x : list WCHAR) : Prop :=
  x = [] \/ exists m, is_mode m /\ x = wc "," :: m.

Definition after_group (x : list WCHAR) : Prop :=
  after_clause x
  \/ exists gs r, is_groups gs /\ after_clause r /\ x = gs ++ r.

(** The rests of a mode that can follow what was read when the loop of
    ParseMode is in a state. *)
Definition accepted_from (st : PARSE_MODE_ACTION_STATE) (x : list WCHAR)
  : Prop :=
  match st with
  | PARSE_MODE_ACTION_WHO_STATE =>
      exists whos gs r,
        all_letters who_of_char whos /\ is_groups gs /\ after_clause r /\
        x = whos ++ gs ++ r
  | PARSE_MODE_ACTION_OP_STATE =>
      exists gs r, is_groups gs /\ after_clause r /\ x = gs ++ r
  | PARSE_MODE_ACTION_PERM_STATE =>
      exists perms refs y,
        all_letters perm_of_char perms /\ all_letters ref_of_char refs /\
        after_group y /\ x = perms ++ refs ++ y
  | PARSE_MODE_ACTION_REF_STATE =>
      exists refs y,
        all_letters ref_of_char refs /\ after_group y /\ x = refs ++ y
  | PARSE_MODE_ACTION_END_STATE => after_group x
  end.

(** The operators of a string, in the order in which they stand. *)
Definition operators_of (s : list WCHAR) : list CHMOD_OP :=
  flat_map (fun c => match op_of_char c with
                     | Some o => [o]
                     | None => []
                     end) s.

(** The loop of ConvertActionsToMask over the actions. *)
Definition apply_actions (UX_DIRECTORY : USHORT)
    (actions : list MODE_CHANGE_ACTION) (mode : USHORT) : USHORT :=
  fold_left (fun mode curr =>
               ComputeNewMode UX_DIRECTORY mode (who curr) (op curr)
                 (perm curr) (ref curr))
    actions mode.

(** ** The structure of a symbolic mode

    A mode string taken apart: its clauses, each the who letters and the
    groups of an operator, permission letters and reference letters; and
    the actions that the clauses stand for, one for each group, in the
    order of the string. *)

Record ModeGroup := {
  g_op : WCHAR;
  g_perms : list WCHAR;
  g_refs : list WCHAR
}.

Definition ModeClause : Type := list WCHAR * list ModeGroup.

Definition group_string (g : ModeGroup) : list WCHAR :=
  g_op g :: g_perms g ++ g_refs g.

Definition groups_string (gs : list ModeGroup) : list WCHAR :=
  flat_map group_string gs.

Definition clause_string (c : ModeClause) : list WCHAR :=
  fst c ++ groups_string (snd c).

Fixpoint mode_string (cls : list ModeClause) : list WCHAR :=
  match cls with
  | [] => []
  | c :: cls' =>
      match cls' with
      | [] => clause_string c
      | _ :: _ => clause_string c ++ wc "," :: mode_string cls'
      end
  end.

Definition well_formed_group (g : ModeGroup) : Prop :=
  op_of_char (g_op g) <> None /\
  all_letters perm_of_char (g_perms g) /\
  all_letters ref_of_char (g_refs g).

Definition well_formed_clause (c : ModeClause) : Prop :=
  all_letters who_of_char (fst c) /\ snd c <> [] /\
  Forall well_formed_group (snd c).

(** The class that a run of reference letters leaves: the last one. *)
Definition last_reference (init : USHORT) (cs : list WCHAR) : USHORT :=
  fold_left (fun acc c => match ref_of_char c with
                          | Some v => v
                          | None => acc
                          end) cs init.

(** The who of every action of a clause: the union of its who letters, and
    "all" when there is none. *)
Definition clause_who (whos : list WCHAR) : USHORT :=
  if union_of who_of_char whos =? CHMOD_WHO_NONE then CHMOD_WHO_ALL
  else union_of who_of_char whos.

Definition group_action (w : USHORT) (g : ModeGroup) : MODE_CHANGE_ACTION :=
  {| who := w;
     op := match op_of_char (g_op g) with
           | Some o => o
           | None => CHMOD_OP_INVALID
           end;
     perm := union_of perm_of_char (g_perms g);
     ref := last_reference CHMOD_WHO_NONE (g_refs g) |}.

Definition clause_actions (c : ModeClause) : list MODE_CHANGE_ACTION :=
  map (group_action (clause_who (fst c))) (snd c).

Definition mode_actions (cls : list ModeClause) : list MODE_CHANGE_ACTION :=
  flat_map clause_actions cls.

(** * Properties *)

(** ** Bits *)

Lemma land_lnot_disjoint m w : Z.land (Z.land m w) (Z.lnot w) = 0.
Proof.
  apply Z.bits_inj'. intros n Hn.
  rewrite !Z.land_spec, Z.lnot_spec, Z.bits_0 by assumption.
  destruct (Z.testbit w n), (Z.testbit m n); reflexivity.
Qed.

Lemma lor_eq_0 a b : Z.lor a b = 0 <-> a = 0 /\ b = 0.
Proof. apply Z.lor_eq_0_iff. Qed.

(** Equations between unions of masks, bit by bit. *)
Ltac solve_lor :=
  apply Z.bits_inj'; intros ? ?; rewrite ?Z.lor_spec, ?Z.bits_0; btauto.

Lemma lor_land_absorb a b : Z.lor (Z.land a b) b = b.
Proof.
  apply Z.bits_inj'. intros n Hn.
  rewrite Z.lor_spec, Z.land_spec.
  destruct (Z.testbit a n), (Z.testbit b n); reflexivity.
Qed.

Lemma lor_absorb_r a b : Z.lor (Z.lor a b) b = Z.lor a b.
Proof. rewrite <- Z.lor_assoc, Z.lor_diag. reflexivity. Qed.

(** Setting bit [b] does not change what a test for another bit sees. *)
Lemma has_bit_lor_other p b t :
  Z.land b t = 0 -> (Z.land (Z.lor p b) t =? t) = (Z.land p t =? t).
Proof.
  intros H. rewrite Z.land_lor_distr_l, H, Z.lor_0_r. reflexivity.
Qed.

Lemma has_bit_lor_same p b : (Z.land (Z.lor p b) b =? b) = true.
Proof.
  rewrite Z.land_lor_distr_l, Z.land_diag, lor_land_absorb.
  apply Z.eqb_refl.
Qed.

Lemma land_exeMask_classes m :
  Z.land m exeMask =
  Z.lor (Z.lor (Z.land m (mode_bit OWNER EXECUTE))
               (Z.land m (mode_bit GROUP EXECUTE)))
        (Z.land m (mode_bit OTHER EXECUTE)).
Proof.
  rewrite <- !Z.land_lor_distr_r. reflexivity.
Qed.

Lemma has_execute_bit_iff m :
  Z.land m exeMask <> 0 <-> exists c, has_right m c EXECUTE.
Proof.
  unfold has_right. rewrite land_exeMask_classes. split.
  - intros H.
    destruct (Z.eq_dec (Z.land m (mode_bit OWNER EXECUTE)) 0) as [Eo|];
      [|exists OWNER; assumption].
    destruct (Z.eq_dec (Z.land m (mode_bit GROUP EXECUTE)) 0) as [Eg|];
      [|exists GROUP; assumption].
    exists OTHER. intros Ex. apply H. rewrite Eo, Eg, Ex. reflexivity.
  - intros [c Hc] H.
    apply lor_eq_0 in H. destruct H as [H Hx].
    apply lor_eq_0 in H. destruct H as [Ho Hg].
    destruct c; contradiction.
Qed.

(** ** ComputeNewMode *)

Section ModeComputerFacts.

Variable UX_DIRECTORY : USHORT.

Lemma ComputeNewMode_equal oldMode who perm ref :
  ComputeNewMode UX_DIRECTORY oldMode who CHMOD_OP_EQUAL perm ref =
  if (perm =? CHMOD_PERM_NA) && (ref =? CHMOD_WHO_NONE) then oldMode
  else Z.land (ComputeNewMode_mask UX_DIRECTORY oldMode perm ref) who.
Proof. reflexivity. Qed.

(** C1.  The operator '=' does not leave the classes outside [who] as they
    were: unless the action is the empty one, the new mode is the mask
    restricted to [who], so every bit outside [who] is cleared.  On mode
    0644, "u=rwx" gives 0700 where it should give 0744. *)
Theorem C1_equal_clears_outside_who :
  (forall oldMode who perm ref,
     Z.land (ComputeNewMode UX_DIRECTORY oldMode who CHMOD_OP_EQUAL perm ref)
       (Z.lnot who) =
     if (perm =? CHMOD_PERM_NA) && (ref =? CHMOD_WHO_NONE)
     then Z.land oldMode (Z.lnot who)
     else 0) /\
  ComputeNewMode UX_DIRECTORY (octal 6 4 4) CHMOD_WHO_USER CHMOD_OP_EQUAL
    (Z.lor (Z.lor CHMOD_PERM_R CHMOD_PERM_W) CHMOD_PERM_X) CHMOD_WHO_NONE
  = octal 7 0 0 /\
  Z.land (octal 6 4 4) (Z.lnot CHMOD_WHO_USER) = octal 0 4 4 /\
  Z.land (octal 7 0 0) (Z.lnot CHMOD_WHO_USER) = 0.
Proof.
  split; [|repeat split].
  intros oldMode who perm ref. rewrite ComputeNewMode_equal.
  destruct ((perm =? CHMOD_PERM_NA) && (ref =? CHMOD_WHO_NONE)).
  - reflexivity.
  - apply land_lnot_disjoint.
Qed.

Lemma ComputeNewMode_mask_reference oldMode ref :
  ComputeNewMode_mask UX_DIRECTORY oldMode CHMOD_PERM_NA ref
  = Z.land oldMode ref.
Proof. reflexivity. Qed.

(** C3.  With a reference class the mask is the bits of the old mode at the
    positions of that class, and nothing else: they are not copied to the
    other two classes.  Restricted to a [who] that is another class the mask
    is empty, so "u+g" on 0070 leaves 0070 where it should give 0770. *)
Theorem C3_reference_not_replicated :
  (forall oldMode ref,
     ComputeNewMode_mask UX_DIRECTORY oldMode CHMOD_PERM_NA ref
     = Z.land oldMode ref) /\
  (forall oldMode,
     Z.land (ComputeNewMode_mask UX_DIRECTORY oldMode CHMOD_PERM_NA
               CHMOD_WHO_GROUP) CHMOD_WHO_USER = 0) /\
  ParseMode (fun _ => true) (L "u+g")
  = Some [{| who := CHMOD_WHO_USER; op := CHMOD_OP_PLUS;
             perm := CHMOD_PERM_NA; ref := CHMOD_WHO_GROUP |}] /\
  ComputeNewMode UX_DIRECTORY (octal 0 7 0) CHMOD_WHO_USER CHMOD_OP_PLUS
    CHMOD_PERM_NA CHMOD_WHO_GROUP = octal 0 7 0 /\
  ComputeNewMode UX_DIRECTORY (octal 0 7 0) CHMOD_WHO_USER CHMOD_OP_EQUAL
    CHMOD_PERM_NA CHMOD_WHO_GROUP = 0.
Proof.
  split; [exact ComputeNewMode_mask_reference|].
  split; [|repeat split].
  intros oldMode. rewrite ComputeNewMode_mask_reference.
  rewrite <- Z.land_assoc. apply Z.land_0_r.
Qed.

(** What the letter X adds to the mask on [oldMode]. *)
Lemma ComputeNewMode_mask_LX oldMode perm ref :
  ComputeNewMode_mask UX_DIRECTORY oldMode (Z.lor perm CHMOD_PERM_LX) ref =
  Z.lor (ComputeNewMode_mask UX_DIRECTORY oldMode perm ref)
    (if (Z.land oldMode UX_DIRECTORY =? UX_DIRECTORY)
        || negb (Z.land oldMode exeMask =? 0)
     then exeMask else 0).
Proof.
  unfold ComputeNewMode_mask. cbv zeta.
  assert (Hne : (Z.lor perm CHMOD_PERM_LX =? CHMOD_PERM_NA) = false).
  { apply Z.eqb_neq. intros H. apply lor_eq_0 in H.
    destruct H as [_ H]. discriminate H. }
  rewrite Hne, has_bit_lor_same, !has_bit_lor_other by reflexivity.
  cbn [negb].
  destruct (perm =? CHMOD_PERM_NA) eqn:Ep; cbn [negb].
  - apply Z.eqb_eq in Ep. subst perm.
    change (Z.land CHMOD_PERM_NA CHMOD_PERM_R =? CHMOD_PERM_R) with false.
    change (Z.land CHMOD_PERM_NA CHMOD_PERM_W =? CHMOD_PERM_W) with false.
    change (Z.land CHMOD_PERM_NA CHMOD_PERM_X =? CHMOD_PERM_X) with false.
    cbv iota.
    destruct ((Z.land oldMode UX_DIRECTORY =? UX_DIRECTORY)
              || negb (Z.land oldMode exeMask =? 0)); solve_lor.
  - destruct (Z.land perm CHMOD_PERM_R =? CHMOD_PERM_R),
             (Z.land perm CHMOD_PERM_W =? CHMOD_PERM_W),
             (Z.land perm CHMOD_PERM_X =? CHMOD_PERM_X),
             (Z.land perm CHMOD_PERM_LX =? CHMOD_PERM_LX),
             ((Z.land oldMode UX_DIRECTORY =? UX_DIRECTORY)
              || negb (Z.land oldMode exeMask =? 0)); solve_lor.
Qed.

(** C5.  The letter X adds the execute triple to the mask exactly when the
    old mode is a directory or has an execute bit for some class, and adds
    nothing otherwise; with '+' the new mode gets that contribution
    restricted to [who]. *)
Theorem C5_conditional_execute :
  forall oldMode, exists contribution,
    (forall perm ref,
       ComputeNewMode_mask UX_DIRECTORY oldMode
         (Z.lor perm CHMOD_PERM_LX) ref
       = Z.lor (ComputeNewMode_mask UX_DIRECTORY oldMode perm ref)
           contribution) /\
    ComputeNewMode_mask UX_DIRECTORY oldMode CHMOD_PERM_LX CHMOD_WHO_NONE
    = contribution /\
    (contribution = exeMask <->
     is_directory UX_DIRECTORY oldMode
     \/ exists c, has_right oldMode c EXECUTE) /\
    (contribution = 0 <->
     ~ (is_directory UX_DIRECTORY oldMode
        \/ exists c, has_right oldMode c EXECUTE)) /\
    (forall who,
       ComputeNewMode UX_DIRECTORY oldMode who CHMOD_OP_PLUS CHMOD_PERM_LX
         CHMOD_WHO_NONE
       = Z.lor oldMode (Z.land contribution who)).
Proof.
  intros oldMode.
  exists (if (Z.land oldMode UX_DIRECTORY =? UX_DIRECTORY)
             || negb (Z.land oldMode exeMask =? 0)
          then exeMask else 0).
  assert (Hcond : (Z.land oldMode UX_DIRECTORY =? UX_DIRECTORY)
                  || negb (Z.land oldMode exeMask =? 0) = true
                  <-> is_directory UX_DIRECTORY oldMode
                      \/ exists c, has_right oldMode c EXECUTE).
  { rewrite <- has_execute_bit_iff, orb_true_iff, negb_true_iff,
      Z.eqb_eq, Z.eqb_neq. reflexivity. }
  assert (Hmask :
    ComputeNewMode_mask UX_DIRECTORY oldMode CHMOD_PERM_LX CHMOD_WHO_NONE
    = if (Z.land oldMode UX_DIRECTORY =? UX_DIRECTORY)
         || negb (Z.land oldMode exeMask =? 0)
      then exeMask else 0).
  { change CHMOD_PERM_LX with (Z.lor 0 CHMOD_PERM_LX).
    rewrite ComputeNewMode_mask_LX.
    change (ComputeNewMode_mask UX_DIRECTORY oldMode 0 CHMOD_WHO_NONE)
      with (Z.land oldMode 0).
    rewrite Z.land_0_r. apply Z.lor_0_l. }
  split; [intros; apply ComputeNewMode_mask_LX|].
  split; [exact Hmask|].
  split; [|split].
  - rewrite <- Hcond.
    destruct ((Z.land oldMode UX_DIRECTORY =? UX_DIRECTORY)
              || negb (Z.land oldMode exeMask =? 0));
      split; intros H; try reflexivity; discriminate H.
  - rewrite <- Hcond.
    destruct ((Z.land oldMode UX_DIRECTORY =? UX_DIRECTORY)
              || negb (Z.land oldMode exeMask =? 0));
      split; intros H; try reflexivity;
      try discriminate H.
    + exfalso. apply H. reflexivity.
    + intros H'. discriminate H'.
  - intros who. unfold ComputeNewMode.
    change ((CHMOD_PERM_LX =? CHMOD_PERM_NA) && (CHMOD_WHO_NONE =? CHMOD_WHO_NONE))
      with false.
    cbv iota. rewrite Hmask. reflexivity.
Qed.

End ModeComputerFacts.

(** ** Wide strings *)

Lemma wcslen_cons c s : c <> 0 -> wcslen (c :: s) = S (wcslen s).
Proof.
  intros H. cbn. destruct (c =? 0) eqn:E; [|reflexivity].
  apply Z.eqb_eq in E. contradiction.
Qed.

Lemma wcslen_S s n :
  wcslen s = S n -> exists c s', s = c :: s' /\ c <> 0 /\ wcslen s' = n.
Proof.
  destruct s as [|c s']; cbn; [discriminate|].
  destruct (c =? 0) eqn:E; [discriminate|].
  intros H. exists c, s'. apply Z.eqb_neq in E.
  repeat split; [assumption|]. now injection H.
Qed.

Lemma wchar_at_wcslen s : wchar_at s (wcslen s) = 0.
Proof.
  unfold wchar_at. induction s as [|c s IH]; [reflexivity|].
  cbn. destruct (c =? 0) eqn:E.
  - apply Z.eqb_eq in E. exact E.
  - exact IH.
Qed.

Lemma wcslen_0 s : wcslen s = 0%nat -> wchar_at s 0 = 0.
Proof. intros H. rewrite <- H. apply wchar_at_wcslen. Qed.

Lemma wchar_at_nonzero s k : (k < wcslen s)%nat -> wchar_at s k <> 0.
Proof.
  unfold wchar_at. revert k. induction s as [|c s IH]; intros k; cbn.
  - lia.
  - destruct (c =? 0) eqn:E; [lia|].
    apply Z.eqb_neq in E. destruct k as [|k]; [intros _; exact E|].
    intros H. apply IH. lia.
Qed.

Lemma wcslen_le_length s : (wcslen s <= List.length s)%nat.
Proof.
  induction s as [|c s IH]; cbn; [lia|]. destruct (c =? 0); lia.
Qed.

Lemma wcslen_all_nonzero s :
  Forall (fun c => c <> 0) s -> wcslen s = List.length s.
Proof.
  induction 1 as [|c s Hc _ IH]; [reflexivity|].
  rewrite wcslen_cons by assumption. cbn. now rewrite IH.
Qed.

Lemma wcslen_wcs s : wcslen (wcs s) = wcslen s.
Proof.
  induction s as [|c s IH]; [reflexivity|].
  cbn. destruct (c =? 0) eqn:E; [reflexivity|].
  cbn. rewrite E, IH. reflexivity.
Qed.

Lemma wcs_nonzero s : Forall (fun c => c <> 0) (wcs s).
Proof.
  induction s as [|c s IH]; cbn; [constructor|].
  destruct (c =? 0) eqn:E; constructor; [|assumption].
  now apply Z.eqb_neq.
Qed.

Lemma wcslen_app a b :
  Forall (fun c => c <> 0) a -> wcslen (a ++ b) = (List.length a + wcslen b)%nat.
Proof.
  induction 1 as [|c a Hc _ IH]; [reflexivity|].
  cbn [app]. rewrite wcslen_cons by assumption. cbn. now rewrite IH.
Qed.

Lemma wcs_app a b :
  Forall (fun c => c <> 0) a -> wcs (a ++ b) = a ++ wcs b.
Proof.
  induction 1 as [|c a Hc _ IH]; [reflexivity|].
  cbn. destruct (c =? 0) eqn:E.
  - apply Z.eqb_eq in E. contradiction.
  - now rewrite IH.
Qed.

Lemma length_wcs s : List.length (wcs s) = wcslen s.
Proof.
  rewrite <- wcslen_wcs. symmetry.
  apply wcslen_all_nonzero, wcs_nonzero.
Qed.

(** ** ParseOctalMode *)

Lemma octal_digit_value c :
  is_octal_digit c ->
  digit_value c = Some (c - wc "0") /\ (c - wc "0" <? 8) = true
  /\ iswspace c = false /\ (c =? wc "-") = false /\ (c =? wc "+") = false
  /\ c <> 0.
Proof.
  unfold is_octal_digit, digit_value, iswspace.
  change (wc "0") with 48. change (wc "7") with 55.
  change (wc "9") with 57. change (wc "-") with 45.
  change (wc "+") with 43.
  intros H.
  replace ((48 <=? c) && (c <=? 57)) with true
    by (symmetry; apply andb_true_iff; split; apply Z.leb_le; lia).
  repeat split; lia.
Qed.

Lemma wcstol_digits_end rest acc seen :
  wchar_at rest 0 = 0 -> wcstol_digits 8 rest acc seen = (acc, seen, rest).
Proof.
  destruct rest as [|r rest]; [reflexivity|].
  unfold wchar_at. cbn. intros ->. reflexivity.
Qed.

Lemma wcstol_octal3 c0 c1 c2 rest :
  is_octal_digit c0 -> is_octal_digit c1 -> is_octal_digit c2 ->
  wchar_at rest 0 = 0 ->
  wcstol (c0 :: c1 :: c2 :: rest) 8
  = (octal (c0 - wc "0") (c1 - wc "0") (c2 - wc "0"), rest, 0).
Proof.
  intros H0 H1 H2 Hr.
  pose proof H0 as B0. pose proof H1 as B1. pose proof H2 as B2.
  apply octal_digit_value in H0, H1, H2.
  destruct H0 as (D0 & L0 & S0 & M0 & P0 & _).
  destruct H1 as (D1 & L1 & _). destruct H2 as (D2 & L2 & _).
  unfold wcstol. cbn [wcstol_skip]. rewrite S0, M0, P0.
  cbn [wcstol_digits]. rewrite D0, L0, D1, L1, D2, L2.
  rewrite wcstol_digits_end by assumption.
  cbn [negb]. cbv iota.
  unfold is_octal_digit in B0, B1, B2. unfold octal.
  change (wc "0") with 48 in *. change (wc "7") with 55 in *.
  replace (_ >? LONG_MAX) with false
    by (symmetry; unfold LONG_MAX; rewrite Z.gtb_ltb; apply Z.ltb_ge; lia).
  replace (_ <? LONG_MIN) with false
    by (symmetry; unfold LONG_MIN; apply Z.ltb_ge; lia).
  f_equal. f_equal. lia.
Qed.

Lemma octal_bounds a b c :
  0 <= a <= 7 -> 0 <= b <= 7 -> 0 <= c <= 7 -> 0 <= octal a b c <= 511.
Proof. unfold octal. lia. Qed.

Lemma ParseOctalMode_tail l rest :
  0 <= l <= 511 -> wchar_at rest 0 = 0 ->
  (if negb (0 =? 0) || (l >? 1911) || (l <? 0)
      || negb (wchar_at rest 0 =? 0)
   then None else Some (to_USHORT l)) = Some l.
Proof.
  intros Hl Hr. rewrite Hr. cbn [Z.eqb negb orb].
  replace (l >? 1911) with false
    by (symmetry; rewrite Z.gtb_ltb; apply Z.ltb_ge; lia).
  replace (l <? 0) with false by (symmetry; apply Z.ltb_ge; lia).
  cbn [orb]. unfold to_USHORT. rewrite Z.mod_small by lia. reflexivity.
Qed.

Lemma is_octal_digit_test c :
  ((wc "0" <=? c) && (c <=? wc "7")) = true <-> is_octal_digit c.
Proof.
  unfold is_octal_digit. rewrite andb_true_iff, !Z.leb_le. reflexivity.
Qed.

Lemma ParseOctalMode_digits3 c0 c1 c2 rest :
  is_octal_digit c0 -> is_octal_digit c1 -> is_octal_digit c2 ->
  wchar_at rest 0 = 0 ->
  ParseOctalMode (c0 :: c1 :: c2 :: rest)
  = Some (octal (c0 - wc "0") (c1 - wc "0") (c2 - wc "0")).
Proof.
  intros H0 H1 H2 Hr.
  assert (N0 : c0 <> 0) by (apply octal_digit_value in H0; tauto).
  assert (N1 : c1 <> 0) by (apply octal_digit_value in H1; tauto).
  assert (N2 : c2 <> 0) by (apply octal_digit_value in H2; tauto).
  assert (Hlen : wcslen (c0 :: c1 :: c2 :: rest) = 3%nat).
  { rewrite !wcslen_cons by assumption.
    destruct rest as [|r rest]; [reflexivity|].
    unfold wchar_at in Hr. cbn in Hr. subst r. reflexivity. }
  unfold ParseOctalMode, StringCchLengthW. rewrite Hlen.
  cbn [Z.of_nat Pos.of_succ_nat Pos.succ Z.ltb Z.compare Pos.compare
       Pos.compare_cont STRSAFE_MAX_CCH].
  cbn [Nat.eqb negb andb seq forallb Nat.sub wchar_at nth].
  apply is_octal_digit_test in H0 as T0, H1 as T1, H2 as T2.
  rewrite T0, T1, T2. cbn [andb negb].
  rewrite wcstol_octal3 by assumption.
  apply ParseOctalMode_tail; [|assumption].
  unfold is_octal_digit in H0, H1, H2.
  change (wc "0") with 48 in *. change (wc "7") with 55 in *.
  apply octal_bounds; lia.
Qed.

Lemma ParseOctalMode_digits4 c c0 c1 c2 rest :
  is_octal_digit c ->
  is_octal_digit c0 -> is_octal_digit c1 -> is_octal_digit c2 ->
  wchar_at rest 0 = 0 ->
  ParseOctalMode (c :: c0 :: c1 :: c2 :: rest)
  = Some (octal (c0 - wc "0") (c1 - wc "0") (c2 - wc "0")).
Proof.
  intros H H0 H1 H2 Hr.
  assert (N : c <> 0) by (apply octal_digit_value in H; tauto).
  assert (N0 : c0 <> 0) by (apply octal_digit_value in H0; tauto).
  assert (N1 : c1 <> 0) by (apply octal_digit_value in H1; tauto).
  assert (N2 : c2 <> 0) by (apply octal_digit_value in H2; tauto).
  assert (Hlen : wcslen (c :: c0 :: c1 :: c2 :: rest) = 4%nat).
  { rewrite !wcslen_cons by assumption.
    destruct rest as [|r rest]; [reflexivity|].
    unfold wchar_at in Hr. cbn in Hr. subst r. reflexivity. }
  unfold ParseOctalMode, StringCchLengthW. rewrite Hlen.
  cbn [Z.of_nat Pos.of_succ_nat Pos.succ Z.ltb Z.compare Pos.compare
       Pos.compare_cont STRSAFE_MAX_CCH].
  cbn [Nat.eqb negb andb seq forallb Nat.sub wchar_at nth skipn].
  apply is_octal_digit_test in H as T, H0 as T0, H1 as T1, H2 as T2.
  rewrite T, T0, T1, T2. cbn [andb negb].
  rewrite wcstol_octal3 by assumption.
  apply ParseOctalMode_tail; [|assumption].
  unfold is_octal_digit in H0, H1, H2.
  change (wc "0") with 48 in *. change (wc "7") with 55 in *.
  apply octal_bounds; lia.
Qed.

Lemma ParseOctalMode_some s m :
  ParseOctalMode s = Some m ->
  (wcslen s = 3 \/ wcslen s = 4)%nat /\
  forall k, (k < wcslen s)%nat -> is_octal_digit (wchar_at s k).
Proof.
  unfold ParseOctalMode, StringCchLengthW.
  destruct (Z.of_nat (wcslen s) <? STRSAFE_MAX_CCH); [|discriminate].
  destruct (negb (wcslen s =? 4)%nat && negb (wcslen s =? 3)%nat) eqn:El;
    [discriminate|].
  destruct (negb (forallb _ _)) eqn:Ef; [discriminate|].
  intros _. split.
  - apply andb_false_iff in El.
    destruct El as [El|El]; apply negb_false_iff, Nat.eqb_eq in El; auto.
  - apply negb_false_iff in Ef. rewrite forallb_forall in Ef.
    intros k Hk. specialize (Ef (wcslen s - 1 - k)%nat).
    cbv zeta in Ef.
    replace (wcslen s - (wcslen s - 1 - k) - 1)%nat with k in Ef by lia.
    apply is_octal_digit_test, Ef, in_seq. lia.
Qed.

Lemma ParseOctalMode_length3 s :
  wcslen s = 3%nat ->
  (forall k, (k < 3)%nat -> is_octal_digit (wchar_at s k)) ->
  ParseOctalMode s
  = Some (octal (wchar_at s 0 - wc "0") (wchar_at s 1 - wc "0")
            (wchar_at s 2 - wc "0")).
Proof.
  intros Hlen Hd.
  apply wcslen_S in Hlen. destruct Hlen as (c0 & s0 & -> & _ & Hlen).
  apply wcslen_S in Hlen. destruct Hlen as (c1 & s1 & -> & _ & Hlen).
  apply wcslen_S in Hlen. destruct Hlen as (c2 & rest & -> & _ & Hlen).
  apply wcslen_0 in Hlen.
  apply ParseOctalMode_digits3; try assumption.
  - apply (Hd 0%nat). lia.
  - apply (Hd 1%nat). lia.
  - apply (Hd 2%nat). lia.
Qed.

Lemma ParseOctalMode_length4 s :
  wcslen s = 4%nat ->
  (forall k, (k < 4)%nat -> is_octal_digit (wchar_at s k)) ->
  ParseOctalMode s
  = Some (octal (wchar_at s 1 - wc "0") (wchar_at s 2 - wc "0")
            (wchar_at s 3 - wc "0")).
Proof.
  intros Hlen Hd.
  apply wcslen_S in Hlen. destruct Hlen as (c & s0 & -> & _ & Hlen).
  apply wcslen_S in Hlen. destruct Hlen as (c0 & s1 & -> & _ & Hlen).
  apply wcslen_S in Hlen. destruct Hlen as (c1 & s2 & -> & _ & Hlen).
  apply wcslen_S in Hlen. destruct Hlen as (c2 & rest & -> & _ & Hlen).
  apply wcslen_0 in Hlen.
  apply ParseOctalMode_digits4; try assumption.
  - apply (Hd 0%nat). lia.
  - apply (Hd 1%nat). lia.
  - apply (Hd 2%nat). lia.
  - apply (Hd 3%nat). lia.
Qed.

(** ** ParseMode *)

Section ParserFacts.

Variable alloc : Z -> bool.

(** One iteration, split by what it does to the position and the state. *)
Lemma ParseMode_body_progress s l l' :
  ParseMode_body alloc s l = Continue l' ->
  (i l' = i l \/ i l' = S (i l)) /\
  (i l' = i l ->
   (ParseMode_rank (state l') < ParseMode_rank (state l))%nat).
Proof.
  unfold ParseMode_body.
  destruct (state l);
    repeat match goal with
           | |- context [if ?b then _ else _] => destruct b
           end;
    intros H; inversion H; subst; cbn; split; auto; intros; lia.
Qed.

Lemma ParseMode_body_measure s len l l' :
  (i l <= len)%nat ->
  ParseMode_body alloc s l = Continue l' ->
  (ParseMode_measure len l' < ParseMode_measure len l)%nat.
Proof.
  intros Hi H. apply ParseMode_body_progress in H.
  destruct H as [[E|E] Hr]; unfold ParseMode_measure.
  - specialize (Hr E). rewrite E. lia.
  - rewrite E.
    assert (ParseMode_rank (state l') <= 4)%nat
      by (destruct (state l'); cbn; lia).
    lia.
Qed.

Lemma ParseMode_loop_S fuel s len l :
  ParseMode_loop alloc (S fuel) s len l =
  if (len <? i l)%nat then Some (Some (actions l))
  else match ParseMode_body alloc s l with
       | Continue l' => ParseMode_loop alloc fuel s len l'
       | ReturnFALSE => Some None
       end.
Proof. reflexivity. Qed.

Lemma ParseMode_loop_O s len l :
  ParseMode_loop alloc O s len l =
  if (len <? i l)%nat then Some (Some (actions l)) else None.
Proof. reflexivity. Qed.

(** The loop never runs out of fuel. *)
Lemma ParseMode_loop_total fuel s len l :
  (ParseMode_measure len l < fuel)%nat ->
  ParseMode_loop alloc fuel s len l <> None.
Proof.
  revert l. induction fuel as [|fuel IH]; intros l Hm; [lia|].
  rewrite ParseMode_loop_S.
  destruct (len <? i l)%nat eqn:E; [discriminate|].
  apply Nat.ltb_ge in E.
  destruct (ParseMode_body alloc s l) as [l'|] eqn:Hb; [|discriminate].
  apply IH. pose proof (ParseMode_body_measure s len l l' E Hb). lia.
Qed.

Lemma ParseMode_loop_more fuel fuel' s len l r :
  ParseMode_loop alloc fuel s len l = Some r ->
  (fuel <= fuel')%nat ->
  ParseMode_loop alloc fuel' s len l = Some r.
Proof.
  revert fuel' l. induction fuel as [|fuel IH]; intros fuel' l H Hle.
  - rewrite ParseMode_loop_O in H.
    destruct fuel'; [rewrite ParseMode_loop_O | rewrite ParseMode_loop_S];
      destruct (len <? i l)%nat; try discriminate; assumption.
  - destruct fuel' as [|fuel']; [lia|].
    rewrite ParseMode_loop_S in *.
    destruct (len <? i l)%nat; [assumption|].
    destruct (ParseMode_body alloc s l); [|assumption].
    apply IH; [assumption | lia].
Qed.

Lemma ParseMode_fuel_enough s len :
  ParseMode_loop alloc (ParseMode_fuel len) s len ParseMode_init <> None.
Proof.
  apply ParseMode_loop_total.
  unfold ParseMode_measure, ParseMode_fuel. cbn. lia.
Qed.

(** Whatever amount of fuel lets the loop finish gives the result of
    ParseMode. *)
Lemma ParseMode_by_loop fuel s len r :
  StringCchLengthW s STRSAFE_MAX_CCH = Some len ->
  ParseMode_loop alloc fuel s len ParseMode_init = Some r ->
  ParseMode alloc s = r.
Proof.
  intros Hlen H. unfold ParseMode. rewrite Hlen.
  destruct (ParseMode_loop alloc (ParseMode_fuel len) s len ParseMode_init)
    as [r'|] eqn:E; [|now apply ParseMode_fuel_enough in E].
  apply ParseMode_loop_more with (fuel' := Nat.max fuel (ParseMode_fuel len))
    in H; [|lia].
  apply ParseMode_loop_more with (fuel' := Nat.max fuel (ParseMode_fuel len))
    in E; [|lia].
  congruence.
Qed.

Lemma ParseMode_loop_step fuel s len l l' :
  (i l <= len)%nat ->
  ParseMode_body alloc s l = Continue l' ->
  ParseMode_loop alloc (S fuel) s len l = ParseMode_loop alloc fuel s len l'.
Proof.
  intros Hi Hb. rewrite ParseMode_loop_S.
  replace (len <? i l)%nat with false by (symmetry; apply Nat.ltb_ge; lia).
  rewrite Hb. reflexivity.
Qed.

Lemma ParseMode_loop_done fuel s len l :
  (len < i l)%nat ->
  ParseMode_loop alloc fuel s len l = Some (Some (actions l)).
Proof.
  intros Hi.
  destruct fuel; [rewrite ParseMode_loop_O | rewrite ParseMode_loop_S];
    replace (len <? i l)%nat with true
      by (symmetry; apply Nat.ltb_lt; lia);
    reflexivity.
Qed.

(** *** The iterations, state by state *)

Ltac char_tests :=
  repeat match goal with
         | |- context [?c =? ?k] =>
             let E := fresh "E" in
             destruct (c =? k) eqn:E;
             [apply Z.eqb_eq in E; subst; try discriminate|]
         end.

Lemma ParseMode_body_WHO s l :
  state l = PARSE_MODE_ACTION_WHO_STATE ->
  ParseMode_body alloc s l =
  match who_of_char (wchar_at s (i l)) with
  | Some w =>
      Continue {| state := PARSE_MODE_ACTION_WHO_STATE;
                  action := set_who (action l) (Z.lor (who (action l)) w);
                  actions := actions l; i := S (i l) |}
  | None =>
      Continue {| state := PARSE_MODE_ACTION_OP_STATE; action := action l;
                  actions := actions l; i := i l |}
  end.
Proof.
  intros Hs. unfold ParseMode_body, who_of_char. rewrite Hs.
  generalize (wchar_at s (i l)). intros c.
  char_tests; reflexivity.
Qed.

Lemma ParseMode_body_OP s l :
  state l = PARSE_MODE_ACTION_OP_STATE ->
  ParseMode_body alloc s l =
  match op_of_char (wchar_at s (i l)) with
  | Some o =>
      Continue {| state := PARSE_MODE_ACTION_PERM_STATE;
                  action := set_op (action l) o;
                  actions := actions l; i := S (i l) |}
  | None => ReturnFALSE
  end.
Proof.
  intros Hs. unfold ParseMode_body, op_of_char. rewrite Hs.
  generalize (wchar_at s (i l)). intros c.
  char_tests; reflexivity.
Qed.

Lemma ParseMode_body_PERM s l :
  state l = PARSE_MODE_ACTION_PERM_STATE ->
  ParseMode_body alloc s l =
  match perm_of_char (wchar_at s (i l)) with
  | Some p =>
      Continue {| state := PARSE_MODE_ACTION_PERM_STATE;
                  action := set_perm (action l) (Z.lor (perm (action l)) p);
                  actions := actions l; i := S (i l) |}
  | None =>
      Continue {| state := PARSE_MODE_ACTION_REF_STATE; action := action l;
                  actions := actions l; i := i l |}
  end.
Proof.
  intros Hs. unfold ParseMode_body, perm_of_char. rewrite Hs.
  generalize (wchar_at s (i l)). intros c.
  char_tests; reflexivity.
Qed.

Lemma ParseMode_body_REF s l :
  state l = PARSE_MODE_ACTION_REF_STATE ->
  ParseMode_body alloc s l =
  match ref_of_char (wchar_at s (i l)) with
  | Some r =>
      Continue {| state := PARSE_MODE_ACTION_REF_STATE;
                  action := set_ref (action l) r;
                  actions := actions l; i := S (i l) |}
  | None =>
      Continue {| state := PARSE_MODE_ACTION_END_STATE; action := action l;
                  actions := actions l; i := i l |}
  end.
Proof.
  intros Hs. unfold ParseMode_body, ref_of_char. rewrite Hs.
  generalize (wchar_at s (i l)). intros c.
  char_tests; reflexivity.
Qed.

(** The END state: the action is stored, with "all" for an empty [who], at
    the end of the list; a comma starts the next clause afresh, an operator
    (which is not consumed) and the end of the string keep [who]. *)
Lemma ParseMode_body_END s l :
  state l = PARSE_MODE_ACTION_END_STATE ->
  ParseMode_body alloc s l =
  let c := wchar_at s (i l) in
  let stored := finalized (action l) in
  if alloc sizeof_MODE_CHANGE_ACTION then
    if c =? wc "," then
      Continue {| state := PARSE_MODE_ACTION_WHO_STATE;
                  action := INIT_MODE_CHANGE_ACTION;
                  actions := actions l ++ [stored]; i := S (i l) |}
    else if c =? 0 then
      Continue {| state := PARSE_MODE_ACTION_WHO_STATE;
                  action := set_who INIT_MODE_CHANGE_ACTION (who stored);
                  actions := actions l ++ [stored]; i := S (i l) |}
    else
      match op_of_char c with
      | Some _ =>
          Continue {| state := PARSE_MODE_ACTION_WHO_STATE;
                      action := set_who INIT_MODE_CHANGE_ACTION (who stored);
                      actions := actions l ++ [stored]; i := i l |}
      | None => ReturnFALSE
      end
  else ReturnFALSE.
Proof.
  intros Hs. unfold ParseMode_body, op_of_char, finalized. rewrite Hs.
  cbv zeta. generalize (wchar_at s (i l)). intros c.
  destruct (alloc sizeof_MODE_CHANGE_ACTION);
    char_tests; cbn [orb negb]; try reflexivity;
    destruct (_ || _); reflexivity.
Qed.

(** *** The list only grows, and at its end *)

Lemma ParseMode_body_appends s l l' :
  ParseMode_body alloc s l = Continue l' ->
  actions l' = actions l \/ exists a, actions l' = actions l ++ [a].
Proof.
  unfold ParseMode_body.
  destruct (state l);
    repeat match goal with
           | |- context [if ?b then _ else _] => destruct b
           end;
    intros H; inversion H; subst; cbn; eauto.
Qed.

Lemma ParseMode_loop_extends fuel s len l acts :
  ParseMode_loop alloc fuel s len l = Some (Some acts) ->
  exists more, acts = actions l ++ more.
Proof.
  revert l. induction fuel as [|fuel IH]; intros l.
  - rewrite ParseMode_loop_O. destruct (len <? i l)%nat; [|discriminate].
    intros H. injection H as <-. exists []. now rewrite app_nil_r.
  - rewrite ParseMode_loop_S. destruct (len <? i l)%nat.
    + intros H. injection H as <-. exists []. now rewrite app_nil_r.
    + destruct (ParseMode_body alloc s l) as [l'|] eqn:Hb; [|discriminate].
      intros H. apply IH in H. destruct H as [more ->].
      apply ParseMode_body_appends in Hb.
      destruct Hb as [->|[a ->]]; [eauto|].
      exists (a :: more). now rewrite <- app_assoc.
Qed.

(** *** A successful parse stores at least one action *)

Lemma ParseMode_body_keeps_position s l l' :
  (i l <= wcslen s)%nat ->
  ParseMode_body alloc s l = Continue l' ->
  (i l' <= wcslen s)%nat \/ actions l' <> [].
Proof.
  intros Hi Hb.
  destruct (Nat.eq_dec (i l) (wcslen s)) as [E|E].
  - assert (Hc : wchar_at s (i l) = 0) by (rewrite E; apply wchar_at_wcslen).
    destruct (state l) eqn:Hs.
    + rewrite ParseMode_body_WHO, Hc in Hb by assumption.
      cbn in Hb. inversion Hb; subst; cbn. left. lia.
    + rewrite ParseMode_body_OP, Hc in Hb by assumption. discriminate Hb.
    + rewrite ParseMode_body_PERM, Hc in Hb by assumption.
      cbn in Hb. inversion Hb; subst; cbn. left. lia.
    + rewrite ParseMode_body_REF, Hc in Hb by assumption.
      cbn in Hb. inversion Hb; subst; cbn. left. lia.
    + rewrite ParseMode_body_END in Hb by assumption.
      cbv zeta in Hb. rewrite Hc in Hb. cbn [Z.eqb wc] in Hb.
      destruct (alloc sizeof_MODE_CHANGE_ACTION); [|discriminate].
      cbn in Hb. inversion Hb; subst; cbn. right.
      intros H. now apply app_eq_nil in H.
  - apply ParseMode_body_progress in Hb. left. lia.
Qed.

Lemma ParseMode_loop_nonempty fuel s l acts :
  (i l <= wcslen s)%nat \/ actions l <> [] ->
  ParseMode_loop alloc fuel s (wcslen s) l = Some (Some acts) ->
  acts <> [].
Proof.
  revert l. induction fuel as [|fuel IH]; intros l Hinv.
  - rewrite ParseMode_loop_O.
    destruct (wcslen s <? i l)%nat eqn:E; [|discriminate].
    apply Nat.ltb_lt in E. intros H. injection H as <-.
    destruct Hinv; [lia | assumption].
  - rewrite ParseMode_loop_S.
    destruct (wcslen s <? i l)%nat eqn:E.
    + apply Nat.ltb_lt in E. intros H. injection H as <-.
      destruct Hinv; [lia | assumption].
    + apply Nat.ltb_ge in E.
      destruct (ParseMode_body alloc s l) as [l'|] eqn:Hb; [|discriminate].
      apply IH. eapply ParseMode_body_keeps_position; eassumption.
Qed.

Lemma ParseMode_nonempty s acts :
  ParseMode alloc s = Some acts -> acts <> [].
Proof.
  unfold ParseMode, StringCchLengthW.
  destruct (Z.of_nat (wcslen s) <? STRSAFE_MAX_CCH); [|discriminate].
  destruct (ParseMode_loop alloc _ s (wcslen s) ParseMode_init)
    as [r|] eqn:E; [|discriminate].
  intros ->. eapply ParseMode_loop_nonempty; [|exact E].
  left. cbn. lia.
Qed.

(** *** Runs of the loop *)

Lemma ParseMode_reaches_refl s len l : ParseMode_reaches alloc s len l l.
Proof. exists 0%nat. reflexivity. Qed.

Lemma ParseMode_reaches_trans s len l1 l2 l3 :
  ParseMode_reaches alloc s len l1 l2 ->
  ParseMode_reaches alloc s len l2 l3 ->
  ParseMode_reaches alloc s len l1 l3.
Proof.
  intros [n H1] [m H2]. exists (n + m)%nat. intros fuel.
  rewrite <- Nat.add_assoc, H1. apply H2.
Qed.

Lemma ParseMode_reaches_step s len l l' :
  (i l <= len)%nat ->
  ParseMode_body alloc s l = Continue l' ->
  ParseMode_reaches alloc s len l l'.
Proof.
  intros Hi Hb. exists 1%nat. intros fuel.
  now apply ParseMode_loop_step.
Qed.

(** A run that ends past the terminator is the result of ParseMode. *)
Lemma ParseMode_reaches_result s len l :
  StringCchLengthW s STRSAFE_MAX_CCH = Some len ->
  ParseMode_reaches alloc s len ParseMode_init l ->
  (len < i l)%nat ->
  ParseMode alloc s = Some (actions l).
Proof.
  intros Hlen [n H] Hi.
  apply ParseMode_by_loop with (fuel := (n + 0)%nat) (len := len);
    [assumption|].
  rewrite H. now apply ParseMode_loop_done.
Qed.

Lemma wchar_at_middle (pre : LPCWSTR) c rest :
  wchar_at (pre ++ c :: rest) (List.length pre) = c.
Proof. unfold wchar_at. apply nth_middle. Qed.

Lemma wchar_at_past s : wchar_at s (List.length s) = 0.
Proof. unfold wchar_at. apply nth_overflow. lia. Qed.

(** A run of who letters in the WHO state. *)
Lemma ParseMode_run_who s len cs : forall pre rest w o p r acts,
  s = pre ++ cs ++ rest ->
  all_letters who_of_char cs ->
  (List.length (pre ++ cs) <= len)%nat ->
  ParseMode_reaches alloc s len
    {| state := PARSE_MODE_ACTION_WHO_STATE;
       action := {| who := w; op := o; perm := p; ref := r |};
       actions := acts; i := List.length pre |}
    {| state := PARSE_MODE_ACTION_WHO_STATE;
       action := {| who := union_from who_of_char w cs; op := o;
                    perm := p; ref := r |};
       actions := acts; i := List.length (pre ++ cs) |}.
Proof.
  induction cs as [|c cs IH]; intros pre rest w o p r acts Hs Hall Hlen.
  - rewrite app_nil_r. apply ParseMode_reaches_refl.
  - unfold all_letters in Hall. apply Forall_cons_iff in Hall.
    destruct Hall as [Hc Hall'].
    destruct (who_of_char c) as [v|] eqn:Ec; [|contradiction].
    eapply ParseMode_reaches_trans.
    + apply ParseMode_reaches_step.
      * cbn [i]. rewrite length_app in Hlen. cbn in Hlen. lia.
      * rewrite ParseMode_body_WHO by reflexivity. cbn [i action actions].
        rewrite Hs. cbn [app]. rewrite wchar_at_middle, Ec. reflexivity.
    + replace (S (List.length pre)) with (List.length (pre ++ [c]))
        by (rewrite length_app; cbn; lia).
      replace (pre ++ c :: cs) with ((pre ++ [c]) ++ cs)
        by (rewrite <- app_assoc; reflexivity).
      cbn [set_who who op perm ref union_from fold_left]. rewrite Ec.
      apply IH with (rest := rest); [|assumption|].
      * rewrite Hs, <- app_assoc. reflexivity.
      * rewrite <- app_assoc. exact Hlen.
Qed.

(** A run of permission letters in the PERM state. *)
Lemma ParseMode_run_perm s len cs : forall pre rest w o p r acts,
  s = pre ++ cs ++ rest ->
  all_letters perm_of_char cs ->
  (List.length (pre ++ cs) <= len)%nat ->
  ParseMode_reaches alloc s len
    {| state := PARSE_MODE_ACTION_PERM_STATE;
       action := {| who := w; op := o; perm := p; ref := r |};
       actions := acts; i := List.length pre |}
    {| state := PARSE_MODE_ACTION_PERM_STATE;
       action := {| who := w; op := o;
                    perm := union_from perm_of_char p cs; ref := r |};
       actions := acts; i := List.length (pre ++ cs) |}.
Proof.
  induction cs as [|c cs IH]; intros pre rest w o p r acts Hs Hall Hlen.
  - rewrite app_nil_r. apply ParseMode_reaches_refl.
  - unfold all_letters in Hall. apply Forall_cons_iff in Hall.
    destruct Hall as [Hc Hall'].
    destruct (perm_of_char c) as [v|] eqn:Ec; [|contradiction].
    eapply ParseMode_reaches_trans.
    + apply ParseMode_reaches_step.
      * cbn [i]. rewrite length_app in Hlen. cbn in Hlen. lia.
      * rewrite ParseMode_body_PERM by reflexivity. cbn [i action actions].
        rewrite Hs. cbn [app]. rewrite wchar_at_middle, Ec. reflexivity.
    + replace (S (List.length pre)) with (List.length (pre ++ [c]))
        by (rewrite length_app; cbn; lia).
      replace (pre ++ c :: cs) with ((pre ++ [c]) ++ cs)
        by (rewrite <- app_assoc; reflexivity).
      cbn [set_perm who op perm ref union_from fold_left]. rewrite Ec.
      apply IH with (rest := rest); [|assumption|].
      * rewrite Hs, <- app_assoc. reflexivity.
      * rewrite <- app_assoc. exact Hlen.
Qed.

Lemma letters_nonzero {A} (f : WCHAR -> option A) cs :
  f 0 = None -> all_letters f cs -> Forall (fun c => c <> 0) cs.
Proof.
  intros H0 Hall. eapply Forall_impl; [|exact Hall].
  intros c Hc ->. contradiction.
Qed.

Lemma op_is_not_who c o : op_of_char c = Some o -> who_of_char c = None.
Proof.
  unfold op_of_char, who_of_char. char_tests; try reflexivity; discriminate.
Qed.

(** A clause of who letters, one operator and permission letters, alone in
    the string, is parsed into one action, without a reference class. *)
Lemma ParseMode_literal_clause whos c perms o :
  all_letters who_of_char whos ->
  op_of_char c = Some o ->
  all_letters perm_of_char perms ->
  alloc sizeof_MODE_CHANGE_ACTION = true ->
  Z.of_nat (List.length (whos ++ c :: perms)) < STRSAFE_MAX_CCH ->
  ParseMode alloc (whos ++ c :: perms)
  = Some [finalized {| who := union_of who_of_char whos; op := o;
                       perm := union_of perm_of_char perms;
                       ref := CHMOD_WHO_NONE |}].
Proof.
  intros Hw Ho Hp Ha Hmax.
  set (s := whos ++ c :: perms) in *.
  set (len := List.length s).
  assert (Hnz : Forall (fun c => c <> 0) s).
  { apply Forall_app. split; [now apply (letters_nonzero who_of_char)|].
    constructor; [|now apply (letters_nonzero perm_of_char)].
    intros ->. discriminate Ho. }
  assert (Hlen : StringCchLengthW s STRSAFE_MAX_CCH = Some len).
  { unfold StringCchLengthW. rewrite (wcslen_all_nonzero s Hnz).
    match goal with
    | |- (if ?b then _ else _) = _ =>
        replace b with true by (symmetry; apply Z.ltb_lt; exact Hmax)
    end.
    reflexivity. }
  assert (Hl1 : (List.length whos < len)%nat).
  { unfold len, s. rewrite length_app. cbn. lia. }
  assert (Hs2 : s = (whos ++ [c]) ++ perms ++ []).
  { unfold s. rewrite app_nil_r, <- app_assoc. reflexivity. }
  assert (Hl2 : List.length ((whos ++ [c]) ++ perms) = len).
  { unfold len. rewrite Hs2, app_nil_r. reflexivity. }
  pose (final :=
    {| state := PARSE_MODE_ACTION_WHO_STATE;
       action := set_who INIT_MODE_CHANGE_ACTION
                   (who (finalized {| who := union_of who_of_char whos;
                                      op := o;
                                      perm := union_of perm_of_char perms;
                                      ref := CHMOD_WHO_NONE |}));
       actions := [] ++ [finalized {| who := union_of who_of_char whos;
                                      op := o;
                                      perm := union_of perm_of_char perms;
                                      ref := CHMOD_WHO_NONE |}];
       i := S len |}).
  change (ParseMode alloc s = Some (actions final)).
  apply ParseMode_reaches_result with (len := len);
    [assumption| |cbn; lia].
  (* the who letters *)
  eapply ParseMode_reaches_trans.
  { apply (ParseMode_run_who s len whos [] (c :: perms));
      [reflexivity | assumption | cbn; lia]. }
  (* the operator is seen in the WHO state, then taken in the OP state *)
  eapply ParseMode_reaches_trans.
  { apply ParseMode_reaches_step; [cbn; lia|].
    rewrite ParseMode_body_WHO by reflexivity. cbn [i action actions app].
    unfold s at 1. rewrite wchar_at_middle, (op_is_not_who c o Ho).
    reflexivity. }
  eapply ParseMode_reaches_trans.
  { apply ParseMode_reaches_step; [cbn; lia|].
    rewrite ParseMode_body_OP by reflexivity. cbn [i action actions app].
    unfold s at 1. rewrite wchar_at_middle, Ho. reflexivity. }
  (* the permission letters *)
  eapply ParseMode_reaches_trans.
  { cbn [set_op who op perm ref app].
    replace (S (List.length whos)) with (List.length (whos ++ [c]))
      by (rewrite length_app; cbn; lia).
    apply (ParseMode_run_perm s len perms (whos ++ [c]) []);
      [assumption | assumption | lia]. }
  (* the terminator takes the loop through PERM, REF and END *)
  rewrite Hl2.
  assert (Hend : wchar_at s len = 0) by apply wchar_at_past.
  eapply ParseMode_reaches_trans.
  { apply ParseMode_reaches_step; [cbn; lia|].
    rewrite ParseMode_body_PERM by reflexivity. cbn [i action actions].
    rewrite Hend. reflexivity. }
  eapply ParseMode_reaches_trans.
  { apply ParseMode_reaches_step; [cbn; lia|].
    rewrite ParseMode_body_REF by reflexivity. cbn [i action actions].
    rewrite Hend. reflexivity. }
  apply ParseMode_reaches_step; [cbn; lia|].
  rewrite ParseMode_body_END by reflexivity. cbv zeta.
  cbn [i action actions]. rewrite Hend, Ha. reflexivity.
Qed.

Lemma ParseMode_body_END_appends s l l' :
  state l = PARSE_MODE_ACTION_END_STATE ->
  ParseMode_body alloc s l = Continue l' ->
  actions l' = actions l ++ [finalized (action l)].
Proof.
  intros Hs. rewrite ParseMode_body_END by assumption. cbv zeta.
  destruct (alloc sizeof_MODE_CHANGE_ACTION); [|discriminate].
  destruct (wchar_at s (i l) =? wc ",");
    [intros H; inversion H; reflexivity|].
  destruct (wchar_at s (i l) =? 0);
    [intros H; inversion H; reflexivity|].
  destruct (op_of_char (wchar_at s (i l))); [|discriminate].
  intros H; inversion H; reflexivity.
Qed.

(** From the END state at an operator, three iterations lead into the PERM
    state of the next action of the same clause. *)
Lemma ParseMode_reenters s len l o :
  state l = PARSE_MODE_ACTION_END_STATE ->
  (i l <= len)%nat ->
  alloc sizeof_MODE_CHANGE_ACTION = true ->
  op_of_char (wchar_at s (i l)) = Some o ->
  forall fuel,
    ParseMode_loop alloc (3 + fuel) s len l =
    ParseMode_loop alloc fuel s len
      {| state := PARSE_MODE_ACTION_PERM_STATE;
         action := {| who := who (finalized (action l)); op := o;
                      perm := CHMOD_PERM_NA; ref := CHMOD_WHO_NONE |};
         actions := actions l ++ [finalized (action l)];
         i := S (i l) |}.
Proof.
  intros Hs Hi Ha Ho fuel.
  assert (Hcomma : (wchar_at s (i l) =? wc ",") = false).
  { destruct (wchar_at s (i l) =? wc ",") eqn:E; [|reflexivity].
    apply Z.eqb_eq in E. rewrite E in Ho. discriminate Ho. }
  assert (Hnul : (wchar_at s (i l) =? 0) = false).
  { destruct (wchar_at s (i l) =? 0) eqn:E; [|reflexivity].
    apply Z.eqb_eq in E. rewrite E in Ho. discriminate Ho. }
  change (3 + fuel)%nat with (S (S (S fuel))).
  rewrite ParseMode_loop_step
    with (l' := {| state := PARSE_MODE_ACTION_WHO_STATE;
                   action := set_who INIT_MODE_CHANGE_ACTION
                               (who (finalized (action l)));
                   actions := actions l ++ [finalized (action l)];
                   i := i l |}); [|assumption|].
  2:{ rewrite ParseMode_body_END by assumption. cbv zeta.
      rewrite Ha, Hcomma, Hnul, Ho. reflexivity. }
  rewrite ParseMode_loop_step
    with (l' := {| state := PARSE_MODE_ACTION_OP_STATE;
                   action := set_who INIT_MODE_CHANGE_ACTION
                               (who (finalized (action l)));
                   actions := actions l ++ [finalized (action l)];
                   i := i l |}); [|assumption|].
  2:{ rewrite ParseMode_body_WHO by reflexivity. cbn [i action actions].
      rewrite (op_is_not_who _ _ Ho). reflexivity. }
  apply ParseMode_loop_step; [assumption|].
  rewrite ParseMode_body_OP by reflexivity. cbn [i action actions].
  rewrite Ho. reflexivity.
Qed.

End ParserFacts.

Lemma octal_digit_range c : is_octal_digit c -> 0 <= c - wc "0" <= 7.
Proof.
  unfold is_octal_digit. change (wc "0") with 48. change (wc "7") with 55.
  lia.
Qed.

(** C4.  ParseOctalMode accepts exactly the strings of three or four octal
    digits; the mask is the value of the last three digits, so it has nine
    bits and the first of four digits is dropped.  ParseCommandLineArguments
    tries ParseOctalMode, then ParseMode, and fails when both fail; when
    ParseMode succeeds its list is not empty. *)
Theorem C4_mode_string_parsing :
  forall (env : NativeEnv) (s prog path : LPCWSTR),
    ((exists m, ParseOctalMode s = Some m) <->
     (wcslen s = 3 \/ wcslen s = 4)%nat /\
     (forall k, (k < wcslen s)%nat -> is_octal_digit (wchar_at s k))) /\
    (wcslen s = 3%nat ->
     (forall k, (k < 3)%nat -> is_octal_digit (wchar_at s k)) ->
     ParseOctalMode s
     = Some (octal (wchar_at s 0 - wc "0") (wchar_at s 1 - wc "0")
               (wchar_at s 2 - wc "0"))) /\
    (wcslen s = 4%nat ->
     (forall k, (k < 4)%nat -> is_octal_digit (wchar_at s k)) ->
     ParseOctalMode s
     = Some (octal (wchar_at s 1 - wc "0") (wchar_at s 2 - wc "0")
               (wchar_at s 3 - wc "0"))) /\
    (forall m, ParseOctalMode s = Some m -> 0 <= m <= octal 7 7 7) /\
    result (ParseCommandLineArguments env [prog; s; path])
    = match ParseOctalMode s with
      | Some m =>
          Some {| rec := false; mask := m; cl_actions := [];
                  cl_path := path |}
      | None =>
          match ParseMode (LocalAlloc env) s with
          | Some acts =>
              Some {| rec := false; mask := 0; cl_actions := acts;
                      cl_path := path |}
          | None => None
          end
      end /\
    (ParseOctalMode s = None -> ParseMode (LocalAlloc env) s = None ->
     result (ParseCommandLineArguments env [prog; s; path]) = None) /\
    (forall acts, ParseMode (LocalAlloc env) s = Some acts -> acts <> []).
Proof.
  intros env s prog path.
  assert (Hval : forall m, ParseOctalMode s = Some m ->
                 (wcslen s = 3%nat /\
                  m = octal (wchar_at s 0 - wc "0") (wchar_at s 1 - wc "0")
                        (wchar_at s 2 - wc "0")) \/
                 (wcslen s = 4%nat /\
                  m = octal (wchar_at s 1 - wc "0") (wchar_at s 2 - wc "0")
                        (wchar_at s 3 - wc "0"))).
  { intros m Hm. pose proof (ParseOctalMode_some s m Hm) as [[E|E] Hd].
    - left. split; [assumption|].
      rewrite ParseOctalMode_length3 in Hm
        by (try assumption; intros; apply Hd; lia).
      congruence.
    - right. split; [assumption|].
      rewrite ParseOctalMode_length4 in Hm
        by (try assumption; intros; apply Hd; lia).
      congruence. }
  split.
  { split.
    - intros [m Hm]. exact (ParseOctalMode_some s m Hm).
    - intros [[E|E] Hd].
      + eexists. apply ParseOctalMode_length3; [assumption|].
        intros; apply Hd; lia.
      + eexists. apply ParseOctalMode_length4; [assumption|].
        intros; apply Hd; lia. }
  split; [apply ParseOctalMode_length3|].
  split; [apply ParseOctalMode_length4|].
  split.
  { intros m Hm. pose proof (ParseOctalMode_some s m Hm) as [_ Hd].
    change (octal 7 7 7) with 511.
    destruct (Hval m Hm) as [[E ->]|[E ->]];
      apply octal_bounds; apply octal_digit_range, Hd; lia. }
  split.
  { unfold ParseCommandLineArguments, result, ret. cbn [fst].
    destruct (ParseOctalMode s); reflexivity. }
  split.
  { intros H1 H2. unfold ParseCommandLineArguments, result, ret. cbn [fst].
    rewrite H1, H2. reflexivity. }
  apply ParseMode_nonempty.
Qed.

(** "755" and "0755" both give the mask 0755. *)
Lemma C4_witness :
  ParseOctalMode (L "755") = Some (octal 7 5 5) /\
  ParseOctalMode (L "0755") = Some (octal 7 5 5).
Proof.
  split.
  - refine (proj1 (proj2 (C4_mode_string_parsing example_env (L "755")
                            (L "chmod") (L "d"))) eq_refl _).
    intros k Hk. unfold is_octal_digit.
    destruct k as [|[|[|k]]]; cbn; lia.
  - refine (proj1 (proj2 (proj2 (C4_mode_string_parsing example_env
                                   (L "0755") (L "chmod") (L "d"))))
              eq_refl _).
    intros k Hk. unfold is_octal_digit.
    destruct k as [|[|[|[|k]]]]; cbn; lia.
Defined.

(** ** GetWindowsAccessMask and GetWindowsDACLs *)

Lemma land_pow2 m k :
  0 <= k -> Z.land m (2 ^ k) = if Z.testbit m k then 2 ^ k else 0.
Proof.
  intros Hk. apply Z.bits_inj'. intros n Hn.
  rewrite Z.land_spec, Z.pow2_bits_eqb by assumption.
  destruct (Z.eqb_spec k n) as [->|Hne].
  - destruct (Z.testbit m n) eqn:E.
    + now rewrite Z.pow2_bits_true.
    + now rewrite Z.bits_0.
  - rewrite andb_false_r.
    destruct (Z.testbit m k).
    + symmetry. apply Z.pow2_bits_false. congruence.
    + symmetry. apply Z.bits_0.
Qed.

(** The bit of a class and a right is one bit. *)
Lemma mode_bit_pow2 c r : exists k, 0 <= k /\ mode_bit c r = 2 ^ k.
Proof.
  destruct c, r;
    [exists 8|exists 7|exists 6|exists 5|exists 4|exists 3
    |exists 2|exists 1|exists 0];
    split; try lia; reflexivity.
Qed.

Lemma has_bit_has_right m c r :
  has_bit m (mode_bit c r) = true <-> has_right m c r.
Proof.
  unfold has_bit, has_right.
  destruct (mode_bit_pow2 c r) as (k & Hk & ->).
  rewrite land_pow2 by assumption.
  assert (2 ^ k <> 0) by (apply Z.pow_nonzero; lia).
  destruct (Z.testbit m k).
  - rewrite Z.eqb_refl. tauto.
  - split; [|congruence].
    intros E. apply Z.eqb_eq in E. congruence.
Qed.

Lemma has_bit_false_has_right m c r :
  has_bit m (mode_bit c r) = false <-> ~ has_right m c r.
Proof.
  rewrite <- has_bit_has_right.
  destruct (has_bit m (mode_bit c r)); split; intros; congruence.
Qed.

Section AclFacts.

Variable WinMasks : WindowsAclMask -> ACCESS_MASK.

(** The union of the rights that are selected. *)
Lemma contains_selected (bR bW bE : bool) (r : RIGHT) :
  rights_distinct WinMasks ->
  contains_right WinMasks
    ((fun acc => if bE then Z.lor acc (WinMasks WIN_EXECUTE) else acc)
       ((fun acc => if bW then Z.lor acc (WinMasks WIN_WRITE) else acc)
          ((fun acc => if bR then Z.lor acc (WinMasks WIN_READ) else acc)
             0))) r
  <-> match r with READ => bR | WRITE => bW | EXECUTE => bE end = true.
Proof.
  intros [Hnz Hdis]. unfold contains_right. cbv beta.
  pose proof (Hnz READ) as NR. pose proof (Hnz WRITE) as NW.
  pose proof (Hnz EXECUTE) as NE.
  assert (RW := Hdis READ WRITE ltac:(discriminate)).
  assert (RE := Hdis READ EXECUTE ltac:(discriminate)).
  assert (WR := Hdis WRITE READ ltac:(discriminate)).
  assert (WE := Hdis WRITE EXECUTE ltac:(discriminate)).
  assert (ER := Hdis EXECUTE READ ltac:(discriminate)).
  assert (EW := Hdis EXECUTE WRITE ltac:(discriminate)).
  cbn [win_right] in *.
  destruct bR, bW, bE, r; cbn [win_right];
    rewrite ?Z.land_lor_distr_l, ?Z.land_diag, ?Z.land_0_l,
      ?RW, ?RE, ?WR, ?WE, ?ER, ?EW, ?Z.lor_0_l, ?Z.lor_0_r;
    split; intros H; try reflexivity; try discriminate H;
    try (symmetry in H; contradiction).
Qed.

Lemma selected_nonzero (bR bW bE : bool) :
  rights_distinct WinMasks ->
  (fun acc => if bE then Z.lor acc (WinMasks WIN_EXECUTE) else acc)
    ((fun acc => if bW then Z.lor acc (WinMasks WIN_WRITE) else acc)
       ((fun acc => if bR then Z.lor acc (WinMasks WIN_READ) else acc) 0))
  <> 0
  <-> bR = true \/ bW = true \/ bE = true.
Proof.
  intros [Hnz _]. cbv beta.
  pose proof (Hnz READ) as NR. pose proof (Hnz WRITE) as NW.
  pose proof (Hnz EXECUTE) as NE. cbn [win_right] in *.
  destruct bR, bW, bE; rewrite ?Z.lor_0_l;
    (split;
     [intros H; auto; exfalso; now apply H
     |intros [Hb|[Hb|Hb]] H; try discriminate Hb;
      try apply lor_eq_0 in H; tauto]).
Qed.

Lemma userDeny_contains unixMask r :
  rights_distinct WinMasks ->
  contains_right WinMasks (userDeny (GetWindowsAccessMask WinMasks unixMask))
    r
  <-> owner_must_be_denied unixMask r.
Proof.
  intros Hd. unfold GetWindowsAccessMask. cbn [userDeny].
  rewrite (contains_selected _ _ _ r Hd).
  unfold owner_must_be_denied.
  rewrite <- has_bit_false_has_right, <- !has_bit_has_right.
  destruct r; rewrite andb_true_iff, negb_true_iff, orb_true_iff;
    reflexivity.
Qed.

Lemma groupDeny_contains unixMask r :
  rights_distinct WinMasks ->
  contains_right WinMasks
    (groupDeny (GetWindowsAccessMask WinMasks unixMask)) r
  <-> group_must_be_denied unixMask r.
Proof.
  intros Hd. unfold GetWindowsAccessMask. cbn [groupDeny].
  rewrite (contains_selected _ _ _ r Hd).
  unfold group_must_be_denied.
  rewrite <- has_bit_false_has_right, <- !has_bit_has_right.
  destruct r; rewrite andb_true_iff, negb_true_iff; reflexivity.
Qed.

Lemma userDeny_nonzero unixMask :
  rights_distinct WinMasks ->
  userDeny (GetWindowsAccessMask WinMasks unixMask) <> 0
  <-> exists r, owner_must_be_denied unixMask r.
Proof.
  intros Hd. split.
  - intros H. unfold GetWindowsAccessMask in H. cbn [userDeny] in H.
    apply (selected_nonzero _ _ _ Hd) in H.
    destruct H as [H|[H|H]];
      [exists READ|exists WRITE|exists EXECUTE];
      apply (userDeny_contains unixMask _ Hd);
      unfold GetWindowsAccessMask; cbn [userDeny];
      apply (contains_selected _ _ _ _ Hd); exact H.
  - intros [r Hr] H0. apply (userDeny_contains unixMask r Hd) in Hr.
    unfold contains_right in Hr. rewrite H0, Z.land_0_l in Hr.
    destruct Hd as [Hnz _]. now apply (Hnz r).
Qed.

Lemma groupDeny_nonzero unixMask :
  rights_distinct WinMasks ->
  groupDeny (GetWindowsAccessMask WinMasks unixMask) <> 0
  <-> exists r, group_must_be_denied unixMask r.
Proof.
  intros Hd. split.
  - intros H. unfold GetWindowsAccessMask in H. cbn [groupDeny] in H.
    apply (selected_nonzero _ _ _ Hd) in H.
    destruct H as [H|[H|H]];
      [exists READ|exists WRITE|exists EXECUTE];
      apply (groupDeny_contains unixMask _ Hd);
      unfold GetWindowsAccessMask; cbn [groupDeny];
      apply (contains_selected _ _ _ _ Hd); exact H.
  - intros [r Hr] H0. apply (groupDeny_contains unixMask r Hd) in Hr.
    unfold contains_right in Hr. rewrite H0, Z.land_0_l in Hr.
    destruct Hd as [Hnz _]. now apply (Hnz r).
Qed.

Variable env : NativeEnv.

Lemma GetWindowsDACLs_result unixMask owner group acl :
  GetWindowsDACLs WinMasks env unixMask owner group = Some acl ->
  acl = expected_acl (GetWindowsAccessMask WinMasks unixMask) owner group.
Proof.
  unfold GetWindowsDACLs, AddAccessDeniedAce, AddAccessAllowedAce,
    expected_acl, deny_entry, allow_entry.
  cbv zeta.
  generalize (GetWindowsAccessMask WinMasks unixMask). intros m.
  destruct (AllocateAndInitializeSid env EveryoneSid); [|discriminate].
  cbn [negb].
  destruct (LocalAlloc env _); [|discriminate]. cbn [negb].
  destruct (InitializeAcl env _); [|discriminate]. cbn [negb].
  destruct (userDeny m =? 0), (groupDeny m =? 0); cbn [negb];
    repeat match goal with
           | |- context [if ?b then Some _ else None] =>
               destruct b; try discriminate
           end;
    intros H; injection H as <-; reflexivity.
Qed.

Lemma GetWindowsDACLs_succeeds unixMask owner group :
  acl_calls_succeed env ->
  GetWindowsDACLs WinMasks env unixMask owner group
  = Some (expected_acl (GetWindowsAccessMask WinMasks unixMask) owner group).
Proof.
  intros (Hsid & Halloc & Hinit & Hdeny & Hallow).
  destruct (GetWindowsDACLs WinMasks env unixMask owner group) as [acl|]
    eqn:E.
  - f_equal. now apply GetWindowsDACLs_result.
  - exfalso. revert E.
    unfold GetWindowsDACLs, AddAccessDeniedAce, AddAccessAllowedAce.
    cbv zeta.
    generalize (GetWindowsAccessMask WinMasks unixMask). intros m.
    rewrite Hsid, Halloc, Hinit. cbn [negb].
    destruct (userDeny m =? 0), (groupDeny m =? 0); cbn [negb];
      repeat (progress (rewrite ?Hdeny, ?Hallow; cbv beta iota));
      discriminate.
Qed.

End AclFacts.

(** C7.  The ACL that GetWindowsDACLs builds, whenever it returns one, is:
    a deny entry for the owner when its mask is not empty, the allow entry
    of the owner, a deny entry for the group when its mask is not empty, the
    allow entry of the group, and the allow entry of Everyone; it returns
    one when the calls that build it succeed.  A deny mask contains a right
    exactly when the class lacks it and a broader class has it, and is not
    empty exactly when there is such a right. *)
Theorem C7_synthesized_acl :
  forall (WinMasks : WindowsAclMask -> ACCESS_MASK) (env : NativeEnv)
         (unixMask : USHORT) (owner group : SID),
    rights_distinct WinMasks ->
    let m := GetWindowsAccessMask WinMasks unixMask in
    (forall acl,
       GetWindowsDACLs WinMasks env unixMask owner group = Some acl ->
       acl = deny_entry owner (userDeny m) ++ allow_entry owner (userAllow m)
             ++ deny_entry group (groupDeny m)
             ++ allow_entry group (groupAllow m)
             ++ allow_entry EveryoneSid (otherAllow m)) /\
    (acl_calls_succeed env ->
     GetWindowsDACLs WinMasks env unixMask owner group
     = Some (expected_acl m owner group)) /\
    (forall r,
       (contains_right WinMasks (userDeny m) r
        <-> ~ has_right unixMask OWNER r
            /\ (has_right unixMask GROUP r \/ has_right unixMask OTHER r))
       /\
       (contains_right WinMasks (groupDeny m) r
        <-> ~ has_right unixMask GROUP r /\ has_right unixMask OTHER r)) /\
    (userDeny m <> 0 <-> exists r, owner_must_be_denied unixMask r) /\
    (groupDeny m <> 0 <-> exists r, group_must_be_denied unixMask r).
Proof.
  intros WinMasks env unixMask owner group Hd m.
  split; [intros acl; apply GetWindowsDACLs_result|].
  split; [apply GetWindowsDACLs_succeeds|].
  split; [|split].
  - intros r. split.
    + apply userDeny_contains, Hd.
    + apply groupDeny_contains, Hd.
  - apply userDeny_nonzero, Hd.
  - apply groupDeny_nonzero, Hd.
Qed.

Lemma example_WinMasks_distinct : rights_distinct example_WinMasks.
Proof.
  split.
  - intros []; discriminate.
  - intros [] [] H; try reflexivity; contradiction.
Defined.

Lemma example_env_acl_calls : acl_calls_succeed example_env.
Proof. repeat split. Defined.

(** Mode 0467: the owner is denied write and execute, the group execute. *)
Lemma C7_witness :
  GetWindowsDACLs example_WinMasks example_env (octal 4 6 7) example_owner
    example_group
  = Some [{| AceType := ACCESS_DENIED_ACE_TYPE; Mask := 374;
             AceSid := example_owner |};
          {| AceType := ACCESS_ALLOWED_ACE_TYPE; Mask := 2032025;
             AceSid := example_owner |};
          {| AceType := ACCESS_DENIED_ACE_TYPE; Mask := 32;
             AceSid := example_group |};
          {| AceType := ACCESS_ALLOWED_ACE_TYPE; Mask := 1180127;
             AceSid := example_group |};
          {| AceType := ACCESS_ALLOWED_ACE_TYPE; Mask := 1180159;
             AceSid := EveryoneSid |}].
Proof.
  exact (proj1 (proj2 (C7_synthesized_acl example_WinMasks example_env
                         (octal 4 6 7) example_owner example_group
                         example_WinMasks_distinct))
           example_env_acl_calls).
Defined.

(** ** The drivers *)

(** ParseMode only asks the allocator for nodes of the list. *)
Lemma ParseMode_alloc_ext (alloc alloc' : Z -> bool) s :
  alloc sizeof_MODE_CHANGE_ACTION = alloc' sizeof_MODE_CHANGE_ACTION ->
  ParseMode alloc s = ParseMode alloc' s.
Proof.
  intros H.
  assert (Hb : forall l, ParseMode_body alloc s l = ParseMode_body alloc' s l)
    by (intros l; unfold ParseMode_body; rewrite H; reflexivity).
  assert (Hl : forall fuel len l,
             ParseMode_loop alloc fuel s len l
             = ParseMode_loop alloc' fuel s len l).
  { induction fuel as [|fuel IH]; intros len l.
    - reflexivity.
    - rewrite !ParseMode_loop_S, Hb.
      destruct (len <? i l)%nat; [reflexivity|].
      destruct (ParseMode_body alloc' s l); [apply IH | reflexivity]. }
  unfold ParseMode. destruct (StringCchLengthW s STRSAFE_MAX_CCH);
    [|reflexivity].
  now rewrite Hl.
Qed.

Section DriverFacts.

Variable UX_DIRECTORY : USHORT.
Variable WinMasks : WindowsAclMask -> ACCESS_MASK.
Variable env : NativeEnv.

(** The mode that the actions lead to, from the current mode of a file. *)
Lemma ConvertActionsToMask_file path fileInfo current acts :
  GetFileInformationByName env path = Some fileInfo ->
  IsDirFileInfo fileInfo = false ->
  FindFileOwnerAndPermission env path 0 = Some current ->
  result (ConvertActionsToMask UX_DIRECTORY env path acts)
  = Some (fold_left
            (fun mode curr =>
               ComputeNewMode UX_DIRECTORY mode (who curr) (op curr)
                 (perm curr) (ref curr))
            acts current).
Proof.
  intros Hinfo Hdir Hperm.
  unfold ConvertActionsToMask, result, bind, call_opt, ret. cbn [fst snd].
  rewrite Hinfo, Hdir. cbn [fst snd]. rewrite Hperm. reflexivity.
Qed.

Lemma ComputeNewMode_equal_rwx oldMode who :
  ComputeNewMode UX_DIRECTORY oldMode who CHMOD_OP_EQUAL 7 CHMOD_WHO_NONE
  = Z.land (octal 7 7 7) who.
Proof.
  unfold ComputeNewMode, ComputeNewMode_mask. cbn -[Z.land Z.lor].
  rewrite Z.land_0_r. reflexivity.
Qed.

(** C2.  On a file, "u+x" takes 0644 to 0744, "go-w" takes 0666 to 0644 and
    "a=r" takes 0777 to 0444, and "0755" is the mask 0755.  But
    "u=rwx,g=rx,o=" ends in 0050 whatever the current mode is, not in 0750:
    "g=rx" clears what "u=rwx" has set for the owner. *)
Theorem C2_end_to_end_examples :
  forall (path : LPCWSTR) (fileInfo : BY_HANDLE_FILE_INFORMATION)
         (current : USHORT),
    LocalAlloc env sizeof_MODE_CHANGE_ACTION = true ->
    GetFileInformationByName env path = Some fileInfo ->
    IsDirFileInfo fileInfo = false ->
    FindFileOwnerAndPermission env path 0 = Some current ->
    (exists acts,
       ParseMode (LocalAlloc env) (L "u+x") = Some acts /\
       (current = octal 6 4 4 ->
        result (ConvertActionsToMask UX_DIRECTORY env path acts)
        = Some (octal 7 4 4))) /\
    (exists acts,
       ParseMode (LocalAlloc env) (L "go-w") = Some acts /\
       (current = octal 6 6 6 ->
        result (ConvertActionsToMask UX_DIRECTORY env path acts)
        = Some (octal 6 4 4))) /\
    (exists acts,
       ParseMode (LocalAlloc env) (L "a=r") = Some acts /\
       (current = octal 7 7 7 ->
        result (ConvertActionsToMask UX_DIRECTORY env path acts)
        = Some (octal 4 4 4))) /\
    ParseOctalMode (L "0755") = Some (octal 7 5 5) /\
    (exists acts,
       ParseMode (LocalAlloc env) (L "u=rwx,g=rx,o=") = Some acts /\
       result (ConvertActionsToMask UX_DIRECTORY env path acts)
       = Some (octal 0 5 0)).
Proof.
  intros path fileInfo current Ha Hinfo Hdir Hperm.
  assert (Hparse : forall s,
             ParseMode (LocalAlloc env) s = ParseMode (fun _ => true) s)
    by (intros s; apply ParseMode_alloc_ext; exact Ha).
  split; [|split; [|split; [|split]]].
  - eexists. split; [rewrite Hparse; vm_compute; reflexivity|].
    intros ->.
    rewrite (ConvertActionsToMask_file _ _ _ _ Hinfo Hdir Hperm).
    reflexivity.
  - eexists. split; [rewrite Hparse; vm_compute; reflexivity|].
    intros ->.
    rewrite (ConvertActionsToMask_file _ _ _ _ Hinfo Hdir Hperm).
    reflexivity.
  - eexists. split; [rewrite Hparse; vm_compute; reflexivity|].
    intros ->.
    rewrite (ConvertActionsToMask_file _ _ _ _ Hinfo Hdir Hperm).
    reflexivity.
  - reflexivity.
  - eexists. split; [rewrite Hparse; vm_compute; reflexivity|].
    rewrite (ConvertActionsToMask_file _ _ _ _ Hinfo Hdir Hperm).
    cbn [fold_left who op perm ref].
    rewrite ComputeNewMode_equal_rwx. reflexivity.
Qed.

(** C8.  With a mode string that neither parser accepts, Chmod fails: without
    an option it issues no call at all, and with the option -R it has
    issued exactly one, the query whether the path is a directory, which
    comes before the mode string is parsed. *)
Theorem C8_malformed_mode_calls :
  forall (prog modeString path : LPCWSTR),
    ParseOctalMode modeString = None ->
    ParseMode (LocalAlloc env) modeString = None ->
    Chmod UX_DIRECTORY WinMasks env [prog; modeString; path]
    = (EXIT_FAILURE, []) /\
    Chmod UX_DIRECTORY WinMasks env [prog; L "-R"; modeString; path]
    = (EXIT_FAILURE,
       [(Call_GetFileInformationByName path,
         match GetFileInformationByName env path with
         | Some _ => true
         | None => false
         end)]).
Proof.
  intros prog modeString path Hoct Hsym. split.
  - unfold Chmod, ParseCommandLineArguments, bind, ret. cbn [fst snd].
    rewrite Hoct, Hsym. reflexivity.
  - unfold Chmod, ParseCommandLineArguments, bind, ret, call_opt.
    change (wcs_eqb (L "-R") (L "-R")) with true. cbv iota.
    destruct (GetFileInformationByName env path); cbn [fst snd].
    + rewrite Hoct, Hsym. reflexivity.
    + reflexivity.
Qed.

End DriverFacts.

(** The file [f] of the example has mode 0644. *)
Lemma C2_witness :
  exists acts,
    ParseMode (LocalAlloc example_env) (L "u+x") = Some acts /\
    result (ConvertActionsToMask example_UX_DIRECTORY example_env (L "f")
              acts)
    = Some (octal 7 4 4).
Proof.
  destruct (C2_end_to_end_examples example_UX_DIRECTORY example_env (L "f")
              {| dwFileAttributes := 32 |} (octal 6 4 4)
              eq_refl eq_refl eq_refl eq_refl)
    as [[acts [Hparse Hmode]] _].
  exists acts. split; [exact Hparse | exact (Hmode eq_refl)].
Defined.

Lemma C8_witness :
  Chmod example_UX_DIRECTORY example_WinMasks example_env
    [L "chmod"; L "zzz"; L "d"]
  = (EXIT_FAILURE, []).
Proof.
  exact (proj1 (C8_malformed_mode_calls example_UX_DIRECTORY
                  example_WinMasks example_env (L "chmod") (L "zzz") (L "d")
                  eq_refl eq_refl)).
Defined.

(** "chmod -R zzz d": the mode string is malformed, and the file system has
    been asked about [d]. *)
Lemma C8_counterexample :
  ParseOctalMode (L "zzz") = None /\
  ParseMode (LocalAlloc example_env) (L "zzz") = None /\
  calls (Chmod example_UX_DIRECTORY example_WinMasks example_env
           [L "chmod"; L "-R"; L "zzz"; L "d"])
  = [(Call_GetFileInformationByName (L "d"), true)] /\
  calls (Chmod example_UX_DIRECTORY example_WinMasks example_env
           [L "chmod"; L "-R"; L "zzz"; L "d"]) <> [].
Proof.
  repeat split; try reflexivity. discriminate.
Qed.

(** ** The recursive walk *)

Lemma applied_app t1 t2 : applied (t1 ++ t2) = applied t1 ++ applied t2.
Proof. unfold applied. apply flat_map_app. Qed.

Lemma result_bind {A B} (m : IO A) (k : A -> IO B) :
  result (bind m k) = result (k (result m)).
Proof. reflexivity. Qed.

Lemma calls_bind {A B} (m : IO A) (k : A -> IO B) :
  calls (bind m k) = calls m ++ calls (k (result m)).
Proof. reflexivity. Qed.


Lemma wcs_idem s : wcs (wcs s) = wcs s.
Proof.
  induction s as [|c s IH]; [reflexivity|].
  cbn. destruct (c =? 0) eqn:E; [reflexivity|].
  cbn. rewrite E, IH. reflexivity.
Qed.

Lemma wcslen_child_path path name :
  wcslen (child_path path name) = (wcslen path + 1 + wcslen name)%nat.
Proof.
  unfold child_path.
  rewrite wcslen_app by apply wcs_nonzero.
  rewrite length_wcs. cbn [app].
  rewrite wcslen_cons by discriminate.
  rewrite wcslen_wcs. lia.
Qed.

Section WalkFacts.

Variable UX_DIRECTORY : USHORT.
Variable WinMasks : WindowsAclMask -> ACCESS_MASK.
Variable env : NativeEnv.

(** ChangeFileModeByMask rewrites the security of its path when it returns
    TRUE, and of nothing otherwise. *)
Lemma ChangeFileModeByMask_applied path mode :
  applied (calls (ChangeFileModeByMask WinMasks env path mode))
  = if result (ChangeFileModeByMask WinMasks env path mode)
    then [path] else [].
Proof.
  unfold ChangeFileModeByMask, bind, call_opt, call_bool, ret, result, calls.
  cbn [fst snd].
  destruct (GetNamedSecurityInfoW env path) as [[[pOwnerSid pGroupSid] pSD]|];
    [|reflexivity].
  destruct (GetSecurityDescriptorControl env pSD) as [control|];
    [|reflexivity].
  match goal with
  | |- context [match ?a with Some _ => _ | None => _ end] =>
      destruct a as [pAbsSD|]; [|reflexivity]
  end.
  destruct (GetWindowsDACLs WinMasks env mode pOwnerSid pGroupSid)
    as [pNewDACL|]; [|reflexivity].
  destruct (SetSecurityDescriptorDacl env pAbsSD pNewDACL); [|reflexivity].
  cbn [negb fst snd app applied flat_map].
  destruct (SetFileSecurity env path pAbsSD pNewDACL); reflexivity.
Qed.

Lemma ConvertActionsToMask_applied path acts :
  applied (calls (ConvertActionsToMask UX_DIRECTORY env path acts)) = [].
Proof.
  unfold ConvertActionsToMask, bind, call_opt, ret, result, calls.
  cbn [fst snd].
  destruct (GetFileInformationByName env path) as [fileInformation|];
    [|reflexivity].
  cbn [fst snd].
  destruct (FindFileOwnerAndPermission env path _); reflexivity.
Qed.

Lemma ChangeFileMode_applied path mode acts :
  applied (calls (ChangeFileMode UX_DIRECTORY WinMasks env path mode acts))
  = if result (ChangeFileMode UX_DIRECTORY WinMasks env path mode acts)
    then [path] else [].
Proof.
  unfold ChangeFileMode. destruct acts as [|a acts].
  - apply ChangeFileModeByMask_applied.
  - unfold ChangeFileModeByActions.
    rewrite calls_bind, result_bind, applied_app,
      ConvertActionsToMask_applied.
    destruct (result (ConvertActionsToMask UX_DIRECTORY env path (a :: acts))).
    + apply ChangeFileModeByMask_applied.
    + reflexivity.
Qed.

(** The name that the loop hands to the recursive call. *)
Lemma child_path_built path name n f1 f2 f3 :
  StringCchCopyW n path = Some f1 ->
  StringCchCatW f1 n [backslash] = Some f2 ->
  StringCchCatW f2 n name = Some f3 ->
  f3 = child_path path name.
Proof.
  unfold StringCchCopyW, StringCchCatW, child_path.
  destruct (_ <? n); [|discriminate]. intros H1. injection H1 as <-.
  destruct (_ <? n); [|discriminate]. intros H2. injection H2 as <-.
  destruct (_ <? n); [|discriminate]. intros H3. injection H3 as <-.
  rewrite wcs_idem. change (wcs [backslash]) with [backslash].
  rewrite wcs_app by apply wcs_nonzero.
  change (wcs [backslash]) with [backslash].
  rewrite <- app_assoc. reflexivity.
Qed.

Lemma ChangeFileModeRecursively_loop_cons self path dir pathSize name names :
  ChangeFileModeRecursively_loop env self path dir pathSize (name :: names)
  = let next :=
      bind (call_bool (Call_FindNextFileW dir)
              (match names with [] => false | _ => true end))
        (fun _ => ChangeFileModeRecursively_loop env self path dir pathSize
                    names) in
    if is_pseudo_entry name then next
    else
      let filenameSize :=
        Z.of_nat pathSize + Z.of_nat (wcslen name) + 2 in
      if negb (LocalAlloc env (filenameSize * sizeof_WCHAR))
      then ret (Some false)
      else
        match StringCchCopyW filenameSize path with
        | None => ret (Some false)
        | Some filename =>
        match StringCchCatW filename filenameSize [backslash] with
        | None => ret (Some false)
        | Some filename =>
        match StringCchCatW filename filenameSize name with
        | None => ret (Some false)
        | Some filename =>
            bind (self filename)
              (fun r => match r with
                        | None => ret None
                        | Some false => ret (Some false)
                        | Some true => next
                        end)
        end end end.
Proof. reflexivity. Qed.

(** The listings of the children of [path] among [names], one after the
    other. *)
Lemma children_listing_cons (spec : LPCWSTR -> list LPCWSTR) path name names :
  flat_map (fun name => spec (child_path path name))
    (filter (fun name => negb (is_pseudo_entry name)) (name :: names))
  = (if is_pseudo_entry name then [] else spec (child_path path name))
    ++ flat_map (fun name => spec (child_path path name))
         (filter (fun name => negb (is_pseudo_entry name)) names).
Proof.
  cbn [filter]. destruct (is_pseudo_entry name); reflexivity.
Qed.

Lemma ChangeFileModeRecursively_loop_applied
    (self : LPCWSTR -> IO (option bool)) (spec : LPCWSTR -> list LPCWSTR)
    path dir pathSize names :
  (forall p, result (self p) = Some true ->
             applied (calls (self p)) = spec p) ->
  (forall p, result (self p) = Some false ->
             exists rest, spec p = applied (calls (self p)) ++ rest) ->
  (result (ChangeFileModeRecursively_loop env self path dir pathSize names)
   = Some true ->
   applied (calls (ChangeFileModeRecursively_loop env self path dir pathSize
                     names))
   = flat_map (fun name => spec (child_path path name))
       (filter (fun name => negb (is_pseudo_entry name)) names)) /\
  (result (ChangeFileModeRecursively_loop env self path dir pathSize names)
   = Some false ->
   exists rest,
     flat_map (fun name => spec (child_path path name))
       (filter (fun name => negb (is_pseudo_entry name)) names)
     = applied (calls (ChangeFileModeRecursively_loop env self path dir
                         pathSize names)) ++ rest).
Proof.
  intros Hok Hfail.
  induction names as [|name names [IHok IHfail]].
  - split; [reflexivity | discriminate].
  - rewrite ChangeFileModeRecursively_loop_cons, children_listing_cons.
    cbv zeta.
    destruct (is_pseudo_entry name).
    { rewrite result_bind, calls_bind, applied_app. cbn [app].
      split; assumption. }
    destruct (LocalAlloc env _); cbn [negb];
      [|split; [discriminate | intros _; eexists; reflexivity]].
    destruct (StringCchCopyW _ path) as [f1|] eqn:E1;
      [|split; [discriminate | intros _; eexists; reflexivity]].
    destruct (StringCchCatW f1 _ [backslash]) as [f2|] eqn:E2;
      [|split; [discriminate | intros _; eexists; reflexivity]].
    destruct (StringCchCatW f2 _ name) as [f3|] eqn:E3;
      [|split; [discriminate | intros _; eexists; reflexivity]].
    rewrite (child_path_built _ _ _ _ _ _ E1 E2 E3).
    rewrite result_bind, calls_bind, applied_app.
    destruct (result (self (child_path path name))) as [[|]|] eqn:Er.
    + rewrite (Hok _ Er), result_bind, calls_bind, applied_app.
      cbn [call_bool calls snd applied flat_map app].
      split.
      * intros H. now rewrite (IHok H).
      * intros H. destruct (IHfail H) as [rest ->].
        exists rest. now rewrite app_assoc.
    + split; [discriminate|]. intros _.
      destruct (Hfail _ Er) as [rest ->].
      exists (rest ++ flat_map (fun name => spec (child_path path name))
                        (filter (fun name => negb (is_pseudo_entry name))
                           names)).
      cbn [ret calls snd applied flat_map].
      rewrite app_nil_r, <- app_assoc. reflexivity.
    + split; discriminate.
Qed.

Variable mode : USHORT.
Variable actions : list MODE_CHANGE_ACTION.

Lemma ChangeFileModeRecursively_fuel_S fuel path :
  ChangeFileModeRecursively_fuel UX_DIRECTORY WinMasks env (S fuel) path mode
    actions
  = bind (call_opt (Call_GetFileInformationByName path)
            (GetFileInformationByName env path))
      (fun r =>
         match r with
         | None => ret (Some false)
         | Some fileInfo =>
             if negb (IsDirFileInfo fileInfo) then
               bind (ChangeFileMode UX_DIRECTORY WinMasks env path mode
                       actions)
                 (fun b => ret (Some b))
             else
               match StringCchLengthW path (MAX_PATH - 3) with
               | None => ret (Some false)
               | Some pathSize =>
                   let dirSize := Z.of_nat pathSize + 3 in
                   if negb (LocalAlloc env (dirSize * sizeof_WCHAR))
                   then ret (Some false)
                   else
                     match StringCchCopyW dirSize path with
                     | None => ret (Some false)
                     | Some dir =>
                     match StringCchCatW dir dirSize [backslash; wc "*"] with
                     | None => ret (Some false)
                     | Some dir =>
                         bind (call_opt (Call_FindFirstFile dir)
                                 (FindFirstFile env dir))
                           (fun r =>
                              match r with
                              | None => ret (Some false)
                              | Some (first, rest) =>
                                  bind (ChangeFileModeRecursively_loop env
                                          (fun filename =>
                                             ChangeFileModeRecursively_fuel
                                               UX_DIRECTORY WinMasks env fuel
                                               filename mode actions)
                                          path dir pathSize (first :: rest))
                                    (fun r =>
                                       match r with
                                       | None => ret None
                                       | Some false => ret (Some false)
                                       | Some true =>
                                           bind (ChangeFileMode UX_DIRECTORY
                                                   WinMasks env path mode
                                                   actions)
                                             (fun b => ret (Some b))
                                       end)
                              end)
                     end end
               end
         end).
Proof. reflexivity. Qed.

Lemma dir_pattern_built path n d1 d2 :
  StringCchCopyW n path = Some d1 ->
  StringCchCatW d1 n [backslash; wc "*"] = Some d2 ->
  d2 = wcs path ++ [backslash; wc "*"].
Proof.
  unfold StringCchCopyW, StringCchCatW.
  destruct (_ <? n); [|discriminate]. intros H1. injection H1 as <-.
  destruct (_ <? n); [|discriminate]. intros H2. injection H2 as <-.
  rewrite wcs_idem. reflexivity.
Qed.

Lemma postorder_ends depth path :
  exists front, postorder env depth path = front ++ [path].
Proof.
  destruct depth as [|depth]; cbn [postorder]; [now exists []|].
  destruct (GetFileInformationByName env path) as [fileInfo|];
    [|now exists []].
  destruct (IsDirFileInfo fileInfo); [|now exists []].
  destruct (FindFirstFile env _) as [[first rest]|]; [|now exists []].
  eexists. reflexivity.
Qed.

(** The walk against the post-order listing: all of it when the walk
    succeeds; when it fails, a part of it that stops before [path]. *)
Lemma ChangeFileModeRecursively_fuel_applied fuel : forall path,
  (result (ChangeFileModeRecursively_fuel UX_DIRECTORY WinMasks env fuel path
             mode actions) = Some true ->
   applied (calls (ChangeFileModeRecursively_fuel UX_DIRECTORY WinMasks env
                     fuel path mode actions))
   = postorder env fuel path) /\
  (result (ChangeFileModeRecursively_fuel UX_DIRECTORY WinMasks env fuel path
             mode actions) = Some false ->
   exists rest,
     postorder env fuel path
     = applied (calls (ChangeFileModeRecursively_fuel UX_DIRECTORY WinMasks
                         env fuel path mode actions))
       ++ rest ++ [path]).
Proof.
  induction fuel as [|fuel IH]; intros path.
  { split; discriminate. }
  rewrite ChangeFileModeRecursively_fuel_S.
  rewrite result_bind, calls_bind, applied_app.
  cbn [call_opt result calls fst snd applied flat_map app].
  destruct (postorder_ends (S fuel) path) as [front Hfront].
  assert (Hnothing : exists rest,
             postorder env (S fuel) path = [] ++ rest ++ [path])
    by (exists front; exact Hfront).
  clear Hfront. cbn [postorder] in *.
  destruct (GetFileInformationByName env path) as [fileInfo|];
    [|split; [discriminate | intros _; exact Hnothing]].
  cbn [app].
  destruct (IsDirFileInfo fileInfo); cbn [negb].
  2:{ rewrite result_bind, calls_bind, applied_app, ChangeFileMode_applied.
      cbn [ret result calls fst snd applied flat_map].
      destruct (result (ChangeFileMode _ _ _ _ _ _)).
      - split; [reflexivity | discriminate].
      - split; [discriminate | intros _; now exists []]. }
  destruct (StringCchLengthW path (MAX_PATH - 3)) as [pathSize|] eqn:Elen;
    [|split; [discriminate | intros _; exact Hnothing]].
  cbv zeta.
  destruct (LocalAlloc env _); cbn [negb];
    [|split; [discriminate | intros _; exact Hnothing]].
  destruct (StringCchCopyW _ path) as [d1|] eqn:E1;
    [|split; [discriminate | intros _; exact Hnothing]].
  destruct (StringCchCatW d1 _ _) as [d2|] eqn:E2;
    [|split; [discriminate | intros _; exact Hnothing]].
  rewrite (dir_pattern_built _ _ _ _ E1 E2) in *.
  rewrite result_bind, calls_bind, applied_app.
  cbn [call_opt result calls fst snd applied flat_map app].
  destruct (FindFirstFile env _) as [[first rest]|];
    [|split; [discriminate | intros _; now exists []]].
  rewrite result_bind, calls_bind, applied_app.
  destruct (ChangeFileModeRecursively_loop_applied
              (fun filename =>
                 ChangeFileModeRecursively_fuel UX_DIRECTORY WinMasks env
                   fuel filename mode actions)
              (postorder env fuel) path
              (wcs path ++ [backslash; wc "*"]) pathSize (first :: rest))
    as [Lok Lfail].
  { intros p. apply (IH p). }
  { intros p Hp. destruct (proj2 (IH p) Hp) as [r Hr].
    exists (r ++ [p]). exact Hr. }
  destruct (result (ChangeFileModeRecursively_loop env _ path _ pathSize
                      (first :: rest))) as [[|]|].
  - rewrite (Lok eq_refl).
    rewrite result_bind, calls_bind, applied_app, ChangeFileMode_applied.
    cbn [ret result calls fst snd applied flat_map].
    destruct (result (ChangeFileMode _ _ _ _ _ _)).
    + split; [intros _; now rewrite app_nil_r | discriminate].
    + split; [discriminate|]. intros _. exists [].
      now rewrite !app_nil_r.
  - split; [discriminate|]. intros _.
    destruct (Lfail eq_refl) as [r ->]. exists r.
    cbn [ret calls snd applied flat_map].
    now rewrite app_nil_r, <- app_assoc.
  - split; discriminate.
Qed.

(** *** The recursion ends within its fuel *)

Lemma ChangeFileModeRecursively_loop_total
    (self : LPCWSTR -> IO (option bool)) path dir pathSize names :
  (forall name, result (self (child_path path name)) <> None) ->
  result (ChangeFileModeRecursively_loop env self path dir pathSize names)
  <> None.
Proof.
  intros Hself. induction names as [|name names IH]; [discriminate|].
  rewrite ChangeFileModeRecursively_loop_cons. cbv zeta.
  destruct (is_pseudo_entry name); [rewrite result_bind; exact IH|].
  destruct (LocalAlloc env _); cbn [negb]; [|discriminate].
  destruct (StringCchCopyW _ path) as [f1|] eqn:E1; [|discriminate].
  destruct (StringCchCatW f1 _ [backslash]) as [f2|] eqn:E2; [|discriminate].
  destruct (StringCchCatW f2 _ name) as [f3|] eqn:E3; [|discriminate].
  rewrite (child_path_built _ _ _ _ _ _ E1 E2 E3), result_bind.
  destruct (result (self (child_path path name))) as [[|]|] eqn:Er.
  - rewrite result_bind. exact IH.
  - discriminate.
  - now apply Hself in Er.
Qed.

Lemma ChangeFileModeRecursively_fuel_total fuel : forall path,
  (1 <= fuel)%nat ->
  (Z.to_nat (MAX_PATH - 3) + 1 <= fuel + wcslen path)%nat ->
  result (ChangeFileModeRecursively_fuel UX_DIRECTORY WinMasks env fuel path
            mode actions) <> None.
Proof.
  induction fuel as [|fuel IH]; intros path H1 Hlen; [lia|].
  rewrite ChangeFileModeRecursively_fuel_S, result_bind.
  cbn [call_opt result fst].
  destruct (GetFileInformationByName env path) as [fileInfo|];
    [|discriminate].
  destruct (IsDirFileInfo fileInfo); cbn [negb];
    [|rewrite result_bind; discriminate].
  destruct (StringCchLengthW path (MAX_PATH - 3)) as [pathSize|] eqn:Elen;
    [|discriminate].
  cbv zeta.
  destruct (LocalAlloc env _); cbn [negb]; [|discriminate].
  destruct (StringCchCopyW _ path) as [d1|]; [|discriminate].
  destruct (StringCchCatW d1 _ _) as [d2|]; [|discriminate].
  rewrite result_bind. cbn [call_opt result fst].
  destruct (FindFirstFile env d2) as [[first rest]|]; [|discriminate].
  rewrite result_bind.
  assert (Hshort : (wcslen path < Z.to_nat (MAX_PATH - 3))%nat).
  { unfold StringCchLengthW in Elen.
    destruct (Z.of_nat (wcslen path) <? MAX_PATH - 3) eqn:E;
      [|discriminate].
    apply Z.ltb_lt in E. lia. }
  pose proof (ChangeFileModeRecursively_loop_total
                (fun filename =>
                   ChangeFileModeRecursively_fuel UX_DIRECTORY WinMasks env
                     fuel filename mode actions)
                path d2 pathSize (first :: rest)) as Hloop.
  destruct (result (ChangeFileModeRecursively_loop env _ path d2 pathSize
                      (first :: rest))) as [[|]|].
  - rewrite result_bind. discriminate.
  - discriminate.
  - exfalso. apply Hloop; [|reflexivity].
    intros name. apply IH; [lia|].
    rewrite wcslen_child_path. lia.
Qed.

(** *** Everything below a path has a longer path *)

Lemma postorder_front depth : forall path,
  exists front,
    postorder env depth path = front ++ [path] /\
    Forall (fun q => (wcslen path < wcslen q)%nat) front.
Proof.
  induction depth as [|depth IH]; intros path; cbn [postorder].
  { exists []. split; [reflexivity | constructor]. }
  destruct (GetFileInformationByName env path) as [fileInfo|];
    [|exists []; split; [reflexivity | constructor]].
  destruct (IsDirFileInfo fileInfo);
    [|exists []; split; [reflexivity | constructor]].
  destruct (FindFirstFile env _) as [[first rest]|];
    [|exists []; split; [reflexivity | constructor]].
  eexists. split; [reflexivity|].
  apply Forall_forall. intros q Hq.
  apply in_flat_map in Hq. destruct Hq as (name & _ & Hq).
  destruct (IH (child_path path name)) as (front & Hfront & Hlonger).
  rewrite Hfront in Hq. apply in_app_or in Hq.
  pose proof (wcslen_child_path path name) as Hc.
  destruct Hq as [Hq|[<-|[]]]; [|lia].
  rewrite Forall_forall in Hlonger. specialize (Hlonger q Hq). lia.
Qed.

Lemma not_applied_to_parent depth path (done rest : list LPCWSTR) :
  postorder env depth path = done ++ rest ++ [path] ->
  ~ In path done.
Proof.
  intros H Hin.
  destruct (postorder_front depth path) as (front & Hfront & Hlonger).
  rewrite Hfront, app_assoc in H. apply app_inj_tail in H.
  destruct H as [-> _].
  rewrite Forall_forall in Hlonger.
  specialize (Hlonger path (in_or_app _ _ _ (or_introl Hin))). lia.
Qed.

(** *** More fuel changes nothing *)



(** *** A directory succeeds only when every child has succeeded *)



End WalkFacts.



(** * Further properties *)

(** ** ComputeNewMode: what an action changes *)

Lemma to_USHORT_land m x :
  0 <= m < 65536 -> to_USHORT (Z.land m x) = Z.land m x.
Proof.
  intros H. unfold to_USHORT. change 65536 with (2 ^ 16).
  rewrite <- Z.land_ones by lia.
  rewrite <- Z.land_assoc, (Z.land_comm x), Z.land_assoc.
  rewrite Z.land_ones, Z.mod_small by lia. reflexivity.
Qed.

Lemma to_USHORT_bits z n :
  0 <= n -> Z.testbit (to_USHORT z) n = Z.testbit z n && Z.testbit 65535 n.
Proof.
  intros Hn. unfold to_USHORT. change 65536 with (2 ^ 16).
  rewrite <- Z.land_ones by lia. apply Z.land_spec.
Qed.

(** Equations between masks, bit by bit, with every bit a case. *)
Ltac bitwise :=
  apply Z.bits_inj'; intros ?n ?Hn;
  repeat first [ rewrite Z.land_spec | rewrite Z.lor_spec
               | rewrite Z.lnot_spec by assumption | rewrite Z.bits_0
               | rewrite to_USHORT_bits by assumption ];
  repeat match goal with
         | |- context [Z.testbit ?a ?n] =>
             destruct (Z.testbit a n)
         end;
  reflexivity.

Section ModeComputerMoreFacts.

Variable UX_DIRECTORY : USHORT.

(** The mask of ComputeNewMode in one expression. *)
Lemma ComputeNewMode_mask_form oldMode perm ref :
  ComputeNewMode_mask UX_DIRECTORY oldMode perm ref
  = Z.lor (Z.lor (literal_mask perm)
                 (conditional_mask UX_DIRECTORY oldMode perm))
          (Z.land oldMode ref).
Proof.
  unfold ComputeNewMode_mask, literal_mask, conditional_mask,
    grants_conditional_execute. cbv zeta.
  destruct (perm =? CHMOD_PERM_NA) eqn:Ep; cbn [negb].
  - apply Z.eqb_eq in Ep. subst perm. reflexivity.
  - destruct (Z.land perm CHMOD_PERM_R =? CHMOD_PERM_R),
             (Z.land perm CHMOD_PERM_W =? CHMOD_PERM_W),
             (Z.land perm CHMOD_PERM_X =? CHMOD_PERM_X),
             (Z.land perm CHMOD_PERM_LX =? CHMOD_PERM_LX),
             ((Z.land oldMode UX_DIRECTORY =? UX_DIRECTORY)
              || negb (Z.land oldMode exeMask =? 0));
      cbn [andb]; solve_lor.
Qed.

(** X1.  The operators '+' and '-' leave every bit outside [who] as it was;
    '+' only sets bits and '-' only clears bits. *)
Theorem X1_plus_minus_frame :
  forall oldMode who perm ref,
    0 <= oldMode < 65536 ->
    Z.land (ComputeNewMode UX_DIRECTORY oldMode who CHMOD_OP_PLUS perm ref)
      (Z.lnot who) = Z.land oldMode (Z.lnot who) /\
    Z.land (ComputeNewMode UX_DIRECTORY oldMode who CHMOD_OP_MINUS perm ref)
      (Z.lnot who) = Z.land oldMode (Z.lnot who) /\
    Z.land oldMode
      (ComputeNewMode UX_DIRECTORY oldMode who CHMOD_OP_PLUS perm ref)
    = oldMode /\
    Z.land (ComputeNewMode UX_DIRECTORY oldMode who CHMOD_OP_MINUS perm ref)
      oldMode
    = ComputeNewMode UX_DIRECTORY oldMode who CHMOD_OP_MINUS perm ref.
Proof.
  intros oldMode who perm ref Hold. unfold ComputeNewMode.
  destruct ((perm =? CHMOD_PERM_NA) && (ref =? CHMOD_WHO_NONE)).
  { repeat split; try reflexivity; apply Z.land_diag. }
  rewrite to_USHORT_land by assumption.
  generalize (ComputeNewMode_mask UX_DIRECTORY oldMode perm ref).
  intros m. repeat split; bitwise.
Qed.

Lemma literal_mask_nine perm :
  literal_mask perm = Z.land (literal_mask perm) CHMOD_WHO_ALL.
Proof.
  unfold literal_mask.
  destruct (Z.land perm CHMOD_PERM_R =? CHMOD_PERM_R),
           (Z.land perm CHMOD_PERM_W =? CHMOD_PERM_W),
           (Z.land perm CHMOD_PERM_X =? CHMOD_PERM_X); reflexivity.
Qed.

Lemma conditional_mask_nine m perm :
  conditional_mask UX_DIRECTORY m perm
  = Z.land (conditional_mask UX_DIRECTORY m perm) CHMOD_WHO_ALL.
Proof.
  unfold conditional_mask.
  destruct (_ && _); reflexivity.
Qed.

(** X2.  Outside the nine permission bits ComputeNewMode sets no bit that
    the old mode does not have: it never makes up a directory flag or any
    other high bit. *)
Theorem X2_no_bit_above_permissions :
  forall oldMode who op perm ref,
    Z.land (Z.land (ComputeNewMode UX_DIRECTORY oldMode who op perm ref)
              (Z.lnot CHMOD_WHO_ALL))
      (Z.lnot oldMode) = 0.
Proof.
  intros oldMode who op perm ref. unfold ComputeNewMode.
  destruct ((perm =? CHMOD_PERM_NA) && (ref =? CHMOD_WHO_NONE));
    [bitwise|].
  rewrite ComputeNewMode_mask_form.
  rewrite (literal_mask_nine perm), (conditional_mask_nine oldMode perm).
  generalize (literal_mask perm), (conditional_mask UX_DIRECTORY oldMode perm).
  intros l c. destruct op; bitwise.
Qed.

(** *** Applying an action twice *)

(** The value of one bit of a hypothesis that equates two masks. *)
Ltac bit_fact H n :=
  let H' := fresh "B" in
  pose proof (f_equal (fun z => Z.testbit z n) H) as H';
  cbv beta in H';
  repeat first [ rewrite Z.land_spec in H' | rewrite Z.lor_spec in H'
               | rewrite Z.lnot_spec in H' by assumption
               | rewrite Z.bits_0 in H'
               | rewrite to_USHORT_bits in H' by assumption ].

Ltac bit_cases n :=
  repeat first [ rewrite Z.land_spec | rewrite Z.lor_spec
               | rewrite Z.lnot_spec by assumption | rewrite Z.bits_0
               | rewrite to_USHORT_bits by assumption ];
  repeat match goal with
         | |- context [Z.testbit ?a n] => destruct (Z.testbit a n)
         | H : context [Z.testbit ?a n] |- _ => destruct (Z.testbit a n)
         end;
  cbn in *; congruence.

Lemma rw_below_exe_r : Z.land readMask (Z.lnot 438) = 0.
Proof. reflexivity. Qed.
Lemma rw_below_exe_w : Z.land writeMask (Z.lnot 438) = 0.
Proof. reflexivity. Qed.
Lemma rw_apart_exe : Z.land exeMask 438 = 0.
Proof. reflexivity. Qed.
Lemma rw_within_nine : Z.land 438 (Z.lnot CHMOD_WHO_ALL) = 0.
Proof. reflexivity. Qed.

(** More bits keep the letter X granting. *)
Lemma grants_conditional_execute_more m m' :
  Z.land m m' = m ->
  grants_conditional_execute UX_DIRECTORY m = true ->
  grants_conditional_execute UX_DIRECTORY m' = true.
Proof.
  unfold grants_conditional_execute. intros Hsub H.
  apply orb_true_iff in H. apply orb_true_iff.
  destruct H as [D|E].
  - left. apply Z.eqb_eq in D. apply Z.eqb_eq.
    apply Z.bits_inj'. intros n Hn.
    bit_fact Hsub n. bit_fact D n. bit_cases n.
  - right. apply negb_true_iff, Z.eqb_neq in E.
    apply negb_true_iff, Z.eqb_neq. intros E'. apply E.
    apply Z.bits_inj'. intros n Hn.
    bit_fact Hsub n. bit_fact E' n. bit_cases n.
Qed.

(** New read and write bits do not make the letter X grant. *)
Lemma grants_conditional_execute_less m m' :
  Z.land UX_DIRECTORY CHMOD_WHO_ALL = 0 ->
  Z.land (Z.land m' (Z.lnot m)) (Z.lnot 438) = 0 ->
  grants_conditional_execute UX_DIRECTORY m' = true ->
  grants_conditional_execute UX_DIRECTORY m = true.
Proof.
  unfold grants_conditional_execute. intros Hux Hsub H.
  apply orb_true_iff in H. apply orb_true_iff.
  destruct H as [D|E].
  - left. apply Z.eqb_eq in D. apply Z.eqb_eq.
    apply Z.bits_inj'. intros n Hn.
    bit_fact Hsub n. bit_fact D n. bit_fact Hux n.
    bit_fact rw_within_nine n. bit_cases n.
  - right. apply negb_true_iff, Z.eqb_neq in E.
    apply negb_true_iff, Z.eqb_neq. intros E'. apply E.
    apply Z.bits_inj'. intros n Hn.
    bit_fact Hsub n. bit_fact E' n. bit_fact rw_apart_exe n. bit_cases n.
Qed.

Lemma grants_no_execute m :
  grants_conditional_execute UX_DIRECTORY m = false ->
  Z.land m exeMask = 0.
Proof.
  unfold grants_conditional_execute. intros H.
  apply orb_false_iff in H. destruct H as [_ H].
  apply negb_false_iff in H. now apply Z.eqb_eq.
Qed.

(** X3.  Applying the same action twice gives what applying it once gives,
    for a mode of sixteen bits and a directory flag that is none of the nine
    permission bits. *)
Theorem X3_same_action_twice :
  forall oldMode who op perm ref,
    0 <= oldMode < 65536 ->
    Z.land UX_DIRECTORY CHMOD_WHO_ALL = 0 ->
    ComputeNewMode UX_DIRECTORY
      (ComputeNewMode UX_DIRECTORY oldMode who op perm ref) who op perm ref
    = ComputeNewMode UX_DIRECTORY oldMode who op perm ref.
Proof.
  intros oldMode who op perm ref Hrange Hux.
  assert (Hold : Z.land oldMode 65535 = oldMode).
  { change 65535 with (Z.ones 16). rewrite Z.land_ones by lia.
    apply Z.mod_small. exact Hrange. }
  unfold ComputeNewMode.
  destruct ((perm =? CHMOD_PERM_NA) && (ref =? CHMOD_WHO_NONE));
    [reflexivity|].
  rewrite !ComputeNewMode_mask_form. unfold conditional_mask.
  destruct (Z.land perm CHMOD_PERM_LX =? CHMOD_PERM_LX); cbn [andb].
  2:{ generalize (literal_mask perm). intros l.
      destruct op; try reflexivity;
        apply Z.bits_inj'; intros n Hn; bit_fact Hold n; bit_cases n. }
  destruct (grants_conditional_execute UX_DIRECTORY oldMode) eqn:G.
  - (* X grants on the old mode *)
    destruct op; try reflexivity.
    + (* '+': the new mode has every bit of the old one *)
      rewrite (grants_conditional_execute_more oldMode) by
        (try exact G; apply Z.bits_inj'; intros n Hn; bit_cases n).
      generalize (literal_mask perm). intros l.
      apply Z.bits_inj'; intros n Hn; bit_cases n.
    + (* '-' *)
      generalize (literal_mask perm). intros l.
      match goal with
      | |- context [grants_conditional_execute UX_DIRECTORY ?m] =>
          destruct (grants_conditional_execute UX_DIRECTORY m)
      end;
        apply Z.bits_inj'; intros n Hn; bit_fact Hold n; bit_cases n.
    + (* '=' *)
      generalize (literal_mask perm). intros l.
      match goal with
      | |- context [grants_conditional_execute UX_DIRECTORY ?m] =>
          destruct (grants_conditional_execute UX_DIRECTORY m) eqn:G'
      end.
      * apply Z.bits_inj'; intros n Hn; bit_cases n.
      * apply grants_no_execute in G'.
        apply Z.bits_inj'; intros n Hn; bit_fact G' n; bit_cases n.
  - (* X does not grant on the old mode *)
    destruct op; try reflexivity.
    + (* '+' *)
      match goal with
      | |- context [grants_conditional_execute UX_DIRECTORY ?m] =>
          destruct (grants_conditional_execute UX_DIRECTORY m) eqn:G'
      end.
      * unfold literal_mask in *.
        destruct (Z.land perm CHMOD_PERM_X =? CHMOD_PERM_X).
        { destruct (Z.land perm CHMOD_PERM_R =? CHMOD_PERM_R),
                   (Z.land perm CHMOD_PERM_W =? CHMOD_PERM_W);
            apply Z.bits_inj'; intros n Hn; bit_cases n. }
        exfalso.
        apply grants_conditional_execute_less with (m := oldMode) in G';
          [congruence|exact Hux|].
        apply grants_no_execute in G.
        destruct (Z.land perm CHMOD_PERM_R =? CHMOD_PERM_R),
                 (Z.land perm CHMOD_PERM_W =? CHMOD_PERM_W);
          apply Z.bits_inj'; intros n Hn;
          bit_fact rw_below_exe_r n; bit_fact rw_below_exe_w n;
          bit_cases n.
      * generalize (literal_mask perm). intros l.
        apply Z.bits_inj'; intros n Hn; bit_cases n.
    + (* '-': the new mode has no bit that the old one lacks *)
      match goal with
      | |- context [grants_conditional_execute UX_DIRECTORY ?m] =>
          destruct (grants_conditional_execute UX_DIRECTORY m) eqn:G'
      end.
      * exfalso.
        apply grants_conditional_execute_more with (m' := oldMode) in G';
          [congruence|].
        generalize (literal_mask perm). intros l.
        apply Z.bits_inj'; intros n Hn; bit_fact Hold n; bit_cases n.
      * generalize (literal_mask perm). intros l.
        apply Z.bits_inj'; intros n Hn; bit_fact Hold n; bit_cases n.
    + (* '=' *)
      match goal with
      | |- context [grants_conditional_execute UX_DIRECTORY ?m] =>
          destruct (grants_conditional_execute UX_DIRECTORY m) eqn:G'
      end.
      * unfold literal_mask in *.
        destruct (Z.land perm CHMOD_PERM_X =? CHMOD_PERM_X).
        { destruct (Z.land perm CHMOD_PERM_R =? CHMOD_PERM_R),
                   (Z.land perm CHMOD_PERM_W =? CHMOD_PERM_W);
            apply Z.bits_inj'; intros n Hn; bit_cases n. }
        exfalso.
        apply grants_conditional_execute_less with (m := oldMode) in G';
          [congruence|exact Hux|].
        destruct (Z.land perm CHMOD_PERM_R =? CHMOD_PERM_R),
                 (Z.land perm CHMOD_PERM_W =? CHMOD_PERM_W);
          apply Z.bits_inj'; intros n Hn;
          bit_fact rw_below_exe_r n; bit_fact rw_below_exe_w n;
          bit_cases n.
      * generalize (literal_mask perm). intros l.
        apply Z.bits_inj'; intros n Hn; bit_cases n.
Qed.

(** The operators '+' and '-' with a [who] within the nine permission bits:
    a mode of sixteen bits stays one, and its bits above the nine stay as
    they are. *)
Lemma ComputeNewMode_above_permissions oldMode who op perm ref :
  0 <= oldMode < 65536 ->
  Z.land who CHMOD_WHO_ALL = who ->
  op = CHMOD_OP_PLUS \/ op = CHMOD_OP_MINUS ->
  0 <= ComputeNewMode UX_DIRECTORY oldMode who op perm ref < 65536 /\
  Z.land (ComputeNewMode UX_DIRECTORY oldMode who op perm ref)
    (Z.lnot CHMOD_WHO_ALL)
  = Z.land oldMode (Z.lnot CHMOD_WHO_ALL).
Proof.
  intros Hrange Hwho Hop.
  assert (Hold : Z.land oldMode 65535 = oldMode).
  { change 65535 with (Z.ones 16). rewrite Z.land_ones by lia.
    apply Z.mod_small. exact Hrange. }
  assert (Hin : forall z, Z.land z 65535 = z -> 0 <= z < 65536).
  { intros z <-. change 65535 with (Z.ones 16).
    rewrite Z.land_ones by lia. apply Z.mod_pos_bound. lia. }
  assert (Hnine : Z.land CHMOD_WHO_ALL 65535 = CHMOD_WHO_ALL)
    by reflexivity.
  unfold ComputeNewMode.
  destruct ((perm =? CHMOD_PERM_NA) && (ref =? CHMOD_WHO_NONE));
    [split; [assumption | reflexivity]|].
  generalize (ComputeNewMode_mask UX_DIRECTORY oldMode perm ref).
  intros m. destruct Hop as [-> | ->]; split.
  - apply Hin. apply Z.bits_inj'. intros n Hn.
    bit_fact Hold n. bit_fact Hwho n. bit_fact Hnine n. bit_cases n.
  - apply Z.bits_inj'. intros n Hn. bit_fact Hwho n. bit_cases n.
  - unfold to_USHORT. apply Z.mod_pos_bound. lia.
  - rewrite to_USHORT_land by assumption.
    apply Z.bits_inj'. intros n Hn. bit_fact Hwho n. bit_cases n.
Qed.

End ModeComputerMoreFacts.

Lemma X1_witness :
  Z.land (ComputeNewMode example_UX_DIRECTORY (octal 6 4 4) CHMOD_WHO_USER
            CHMOD_OP_PLUS CHMOD_PERM_X CHMOD_WHO_NONE)
    (Z.lnot CHMOD_WHO_USER)
  = Z.land (octal 6 4 4) (Z.lnot CHMOD_WHO_USER).
Proof.
  refine (proj1 (X1_plus_minus_frame example_UX_DIRECTORY (octal 6 4 4) CHMOD_WHO_USER
                   CHMOD_PERM_X CHMOD_WHO_NONE _)).
  unfold octal. lia.
Defined.

(** "+rX" twice on the file mode 0640. *)
Lemma X3_witness :
  ComputeNewMode example_UX_DIRECTORY
    (ComputeNewMode example_UX_DIRECTORY (octal 6 4 0) CHMOD_WHO_ALL
       CHMOD_OP_PLUS (Z.lor CHMOD_PERM_R CHMOD_PERM_LX) CHMOD_WHO_NONE)
    CHMOD_WHO_ALL CHMOD_OP_PLUS (Z.lor CHMOD_PERM_R CHMOD_PERM_LX)
    CHMOD_WHO_NONE
  = ComputeNewMode example_UX_DIRECTORY (octal 6 4 0) CHMOD_WHO_ALL
      CHMOD_OP_PLUS (Z.lor CHMOD_PERM_R CHMOD_PERM_LX) CHMOD_WHO_NONE.
Proof.
  refine (X3_same_action_twice example_UX_DIRECTORY (octal 6 4 0) CHMOD_WHO_ALL CHMOD_OP_PLUS
            (Z.lor CHMOD_PERM_R CHMOD_PERM_LX) CHMOD_WHO_NONE _ eq_refl).
  unfold octal. lia.
Defined.


(** ** ParseMode: what it accepts and what it stores *)

Ltac letter_tests :=
  repeat match goal with
         | |- context [?c =? ?k] =>
             let E := fresh "E" in
             destruct (c =? k) eqn:E;
             [apply Z.eqb_eq in E; subst; try discriminate|]
         end.

Section ParserMoreFacts.

Variable alloc : Z -> bool.

Lemma who_letter_cases c w :
  who_of_char c = Some w ->
  (w = CHMOD_WHO_ALL \/ w = CHMOD_WHO_USER \/ w = CHMOD_WHO_GROUP
   \/ w = CHMOD_WHO_OTHER) /\ op_of_char c = None.
Proof.
  unfold who_of_char, op_of_char.
  letter_tests; intros H; inversion H; subst; cbn; auto 6.
Qed.

Lemma perm_letter_cases c p :
  perm_of_char c = Some p ->
  Z.land p 15 = p /\ op_of_char c = None.
Proof.
  unfold perm_of_char, op_of_char.
  letter_tests; intros H; inversion H; subst; cbn; auto.
Qed.

Lemma ref_letter_cases c r :
  ref_of_char c = Some r ->
  (r = CHMOD_WHO_USER \/ r = CHMOD_WHO_GROUP \/ r = CHMOD_WHO_OTHER)
  /\ op_of_char c = None.
Proof.
  unfold ref_of_char, op_of_char.
  letter_tests; intros H; inversion H; subst; cbn; auto.
Qed.

Lemma land_lor_within a b m :
  Z.land a m = a -> Z.land b m = b -> Z.land (Z.lor a b) m = Z.lor a b.
Proof. intros Ha Hb. now rewrite Z.land_lor_distr_l, Ha, Hb. Qed.

Lemma finalized_well_formed a :
  pending_action a -> op a <> CHMOD_OP_INVALID ->
  well_formed_action (finalized a).
Proof.
  intros (Hw & Hp & Hr) Ho. unfold finalized, well_formed_action,
    pending_action.
  destruct (who a =? CHMOD_WHO_NONE) eqn:E; cbn [set_who who op perm ref].
  - repeat split; try assumption. discriminate.
  - apply Z.eqb_neq in E. repeat split; assumption.
Qed.

Lemma finalized_who_within a :
  pending_action a -> Z.land (who (finalized a)) CHMOD_WHO_ALL
                      = who (finalized a).
Proof.
  intros (Hw & _). unfold finalized.
  destruct (who a =? CHMOD_WHO_NONE); [reflexivity | exact Hw].
Qed.

(** The invariant of the loop: the stored actions are well formed, the
    action under construction has its fields within their sets, and has an
    operator once the OP state is behind. *)
Lemma ParseMode_body_well_formed s l l' :
  Forall well_formed_action (actions l) ->
  pending_action (action l) ->
  (past_operator (state l) = true -> op (action l) <> CHMOD_OP_INVALID) ->
  ParseMode_body alloc s l = Continue l' ->
  Forall well_formed_action (actions l') /\
  pending_action (action l') /\
  (past_operator (state l') = true -> op (action l') <> CHMOD_OP_INVALID).
Proof.
  intros Hacts Hpend Hop.
  pose proof Hpend as (Hw & Hp & Hr).
  destruct (state l) eqn:Hs.
  - rewrite ParseMode_body_WHO by assumption.
    destruct (who_of_char _) as [w|] eqn:Ew;
      intros H; inversion H; subst; cbn; repeat split;
      try assumption; try discriminate.
    apply land_lor_within; [assumption|].
    apply who_letter_cases in Ew.
    destruct Ew as [[->|[->|[->| ->]]] _]; reflexivity.
  - rewrite ParseMode_body_OP by assumption.
    destruct (op_of_char _) as [o|] eqn:Eo; [|discriminate].
    intros H; inversion H; subst; cbn; repeat split; try assumption.
    intros _. unfold op_of_char in Eo.
    destruct (_ =? wc "+"); [inversion Eo; discriminate|].
    destruct (_ =? wc "-"); [inversion Eo; discriminate|].
    destruct (_ =? wc "="); [inversion Eo; discriminate|discriminate].
  - rewrite ParseMode_body_PERM by assumption.
    destruct (perm_of_char _) as [p|] eqn:Ep;
      intros H; inversion H; subst; cbn; repeat split;
      try assumption; try (intros _; now apply Hop).
    apply land_lor_within; [assumption|].
    now apply perm_letter_cases in Ep.
  - rewrite ParseMode_body_REF by assumption.
    destruct (ref_of_char _) as [r|] eqn:Er;
      intros H; inversion H; subst; cbn; repeat split;
      try assumption; try (intros _; now apply Hop).
    apply ref_letter_cases in Er. tauto.
  - rewrite ParseMode_body_END by assumption. cbv zeta.
    assert (Hfin : well_formed_action (finalized (action l)))
      by (apply finalized_well_formed; [assumption | now apply Hop]).
    assert (Hall : Forall well_formed_action
                     (actions l ++ [finalized (action l)]))
      by (apply Forall_app; split; [assumption | now constructor]).
    pose proof (finalized_who_within _ Hpend) as Hfw.
    destruct (alloc sizeof_MODE_CHANGE_ACTION); [|discriminate].
    destruct (_ =? wc ",").
    { intros H; inversion H; subst; cbn.
      repeat split; auto; discriminate. }
    destruct (_ =? 0).
    { intros H; inversion H; subst; cbn.
      repeat split; auto; discriminate. }
    destruct (op_of_char _); [|discriminate].
    intros H; inversion H; subst; cbn.
    repeat split; auto; discriminate.
Qed.

Lemma ParseMode_loop_well_formed fuel s len : forall l acts,
  Forall well_formed_action (actions l) ->
  pending_action (action l) ->
  (past_operator (state l) = true -> op (action l) <> CHMOD_OP_INVALID) ->
  ParseMode_loop alloc fuel s len l = Some (Some acts) ->
  Forall well_formed_action acts.
Proof.
  induction fuel as [|fuel IH]; intros l acts Hacts Hpend Hop.
  - rewrite ParseMode_loop_O. destruct (len <? i l)%nat; [|discriminate].
    intros H. now injection H as <-.
  - rewrite ParseMode_loop_S. destruct (len <? i l)%nat.
    + intros H. now injection H as <-.
    + destruct (ParseMode_body alloc s l) as [l'|] eqn:Hb; [|discriminate].
      destruct (ParseMode_body_well_formed s l l' Hacts Hpend Hop Hb)
        as (H1 & H2 & H3).
      now apply IH.
Qed.

End ParserMoreFacts.

(** X4.  Every action of a list that ParseMode returns has an operator, a
    [who] that is not empty and lies within the nine permission bits, a
    permission set within r, w, x and X, and as reference class none or one
    of the three classes. *)
Theorem X4_parsed_actions_well_formed :
  forall (alloc : Z -> bool) (s : LPCWSTR) (acts : list MODE_CHANGE_ACTION),
    ParseMode alloc s = Some acts ->
    Forall well_formed_action acts.
Proof.
  intros alloc s acts. unfold ParseMode.
  destruct (StringCchLengthW s STRSAFE_MAX_CCH) as [len|]; [|discriminate].
  destruct (ParseMode_loop alloc _ s len ParseMode_init) as [r|] eqn:E;
    [|discriminate].
  intros ->. eapply ParseMode_loop_well_formed; [| | |exact E].
  - constructor.
  - cbn. repeat split. auto.
  - discriminate.
Qed.

Lemma X4_witness :
  Forall well_formed_action
    [{| who := CHMOD_WHO_ALL; op := CHMOD_OP_PLUS;
        perm := Z.lor CHMOD_PERM_R CHMOD_PERM_LX; ref := CHMOD_WHO_NONE |}].
Proof.
  refine (X4_parsed_actions_well_formed (fun _ => true) (L "+rX") _ _).
  vm_compute. reflexivity.
Defined.

Section ParserCountFacts.

Variable alloc : Z -> bool.

Lemma count_operators_firstn_S s : forall k,
  count_operators (firstn (S k) s)
  = (count_operators (firstn k s)
     + (if is_operator (wchar_at s k) then 1 else 0))%nat.
Proof.
  unfold count_operators, wchar_at.
  induction s as [|c s IH]; intros k.
  - rewrite !firstn_nil. destruct k; reflexivity.
  - destruct k as [|k].
    + cbn. destruct (is_operator c); reflexivity.
    + change (firstn (S (S k)) (c :: s)) with (c :: firstn (S k) s).
      change (firstn (S k) (c :: s)) with (c :: firstn k s).
      cbn [filter nth]. destruct (is_operator c); cbn [List.length];
        rewrite IH; reflexivity.
Qed.

Lemma firstn_wcslen s : firstn (wcslen s) s = wcs s.
Proof.
  induction s as [|c s IH]; [reflexivity|].
  cbn. destruct (c =? 0); [reflexivity|]. cbn. now rewrite IH.
Qed.

Lemma not_operator c :
  op_of_char c = None -> is_operator c = false.
Proof. unfold is_operator. now intros ->. Qed.

(** One more than the stored actions once an operator is taken: as many as
    the operators that were read. *)
Lemma ParseMode_body_count s l l' :
  (List.length (actions l) + (if past_operator (state l) then 1 else 0)
   = count_operators (firstn (i l) s))%nat ->
  ParseMode_body alloc s l = Continue l' ->
  (List.length (actions l') + (if past_operator (state l') then 1 else 0)
   = count_operators (firstn (i l') s))%nat.
Proof.
  intros J.
  destruct (state l) eqn:Hs; cbn [past_operator] in J.
  - rewrite ParseMode_body_WHO by assumption.
    destruct (who_of_char _) as [w|] eqn:Ew;
      intros H; inversion H; subst; cbn [state actions i past_operator].
    + rewrite count_operators_firstn_S.
      apply who_letter_cases in Ew. destruct Ew as [_ Ew].
      rewrite (not_operator _ Ew). lia.
    + exact J.
  - rewrite ParseMode_body_OP by assumption.
    destruct (op_of_char _) as [o|] eqn:Eo; [|discriminate].
    intros H; inversion H; subst; cbn [state actions i past_operator].
    rewrite count_operators_firstn_S. unfold is_operator. rewrite Eo. lia.
  - rewrite ParseMode_body_PERM by assumption.
    destruct (perm_of_char _) as [p|] eqn:Ep;
      intros H; inversion H; subst; cbn [state actions i past_operator].
    + rewrite count_operators_firstn_S.
      apply perm_letter_cases in Ep. destruct Ep as [_ Ep].
      rewrite (not_operator _ Ep). lia.
    + exact J.
  - rewrite ParseMode_body_REF by assumption.
    destruct (ref_of_char _) as [r|] eqn:Er;
      intros H; inversion H; subst; cbn [state actions i past_operator].
    + rewrite count_operators_firstn_S.
      apply ref_letter_cases in Er. destruct Er as [_ Er].
      rewrite (not_operator _ Er). lia.
    + exact J.
  - rewrite ParseMode_body_END by assumption. cbv zeta.
    destruct (alloc sizeof_MODE_CHANGE_ACTION); [|discriminate].
    destruct (_ =? wc ",") eqn:Ec.
    { intros H; inversion H; subst; cbn [state actions i past_operator].
      rewrite count_operators_firstn_S, length_app.
      apply Z.eqb_eq in Ec. rewrite Ec. cbn. lia. }
    destruct (_ =? 0) eqn:E0.
    { intros H; inversion H; subst; cbn [state actions i past_operator].
      rewrite count_operators_firstn_S, length_app.
      apply Z.eqb_eq in E0. rewrite E0. cbn. lia. }
    destruct (op_of_char _); [|discriminate].
    intros H; inversion H; subst; cbn [state actions i past_operator].
    rewrite length_app. cbn. lia.
Qed.

(** Past the terminator the loop is back in the WHO state. *)
Lemma ParseMode_body_position s l l' :
  (i l <= wcslen s)%nat ->
  ParseMode_body alloc s l = Continue l' ->
  (i l' <= wcslen s)%nat
  \/ (i l' = S (wcslen s) /\ state l' = PARSE_MODE_ACTION_WHO_STATE).
Proof.
  intros Hi Hb.
  destruct (Nat.eq_dec (i l) (wcslen s)) as [E|E].
  - assert (Hc : wchar_at s (i l) = 0) by (rewrite E; apply wchar_at_wcslen).
    destruct (state l) eqn:Hs.
    + rewrite ParseMode_body_WHO, Hc in Hb by assumption.
      cbn in Hb. inversion Hb; subst; cbn. left. lia.
    + rewrite ParseMode_body_OP, Hc in Hb by assumption. discriminate Hb.
    + rewrite ParseMode_body_PERM, Hc in Hb by assumption.
      cbn in Hb. inversion Hb; subst; cbn. left. lia.
    + rewrite ParseMode_body_REF, Hc in Hb by assumption.
      cbn in Hb. inversion Hb; subst; cbn. left. lia.
    + rewrite ParseMode_body_END in Hb by assumption.
      cbv zeta in Hb. rewrite Hc in Hb. cbn [Z.eqb wc] in Hb.
      destruct (alloc sizeof_MODE_CHANGE_ACTION); [|discriminate].
      cbn in Hb. inversion Hb; subst; cbn. right. split; congruence.
  - apply ParseMode_body_progress in Hb. left. lia.
Qed.

Lemma ParseMode_loop_count fuel s : forall l acts,
  (i l <= wcslen s)%nat
  \/ (i l = S (wcslen s) /\ state l = PARSE_MODE_ACTION_WHO_STATE) ->
  (List.length (actions l) + (if past_operator (state l) then 1 else 0)
   = count_operators (firstn (i l) s))%nat ->
  ParseMode_loop alloc fuel s (wcslen s) l = Some (Some acts) ->
  List.length acts = count_operators (wcs s).
Proof.
  assert (Hdone : forall l acts,
            (i l <= wcslen s)%nat
            \/ (i l = S (wcslen s)
                /\ state l = PARSE_MODE_ACTION_WHO_STATE) ->
            (List.length (actions l)
             + (if past_operator (state l) then 1 else 0)
             = count_operators (firstn (i l) s))%nat ->
            (wcslen s <? i l)%nat = true ->
            Some (Some (actions l)) = Some (Some acts) ->
            List.length acts = count_operators (wcs s)).
  { intros l acts P J E H. injection H as <-.
    apply Nat.ltb_lt in E. destruct P as [P|[Pi Ps]]; [lia|].
    rewrite Pi, Ps, count_operators_firstn_S, firstn_wcslen,
      wchar_at_wcslen in J.
    cbn in J. lia. }
  induction fuel as [|fuel IH]; intros l acts P J.
  - rewrite ParseMode_loop_O.
    destruct (wcslen s <? i l)%nat eqn:E; [|discriminate].
    now apply Hdone.
  - rewrite ParseMode_loop_S.
    destruct (wcslen s <? i l)%nat eqn:E; [now apply Hdone|].
    apply Nat.ltb_ge in E.
    destruct (ParseMode_body alloc s l) as [l'|] eqn:Hb; [|discriminate].
    apply IH.
    + eapply ParseMode_body_position; eassumption.
    + eapply ParseMode_body_count; eassumption.
Qed.

(** A string that starts with neither a who letter nor an operator is
    rejected at its first character. *)
Lemma ParseMode_rejects_first s :
  who_of_char (wchar_at s 0) = None ->
  op_of_char (wchar_at s 0) = None ->
  ParseMode alloc s = None.
Proof.
  intros Hw Ho.
  destruct (StringCchLengthW s STRSAFE_MAX_CCH) as [len|] eqn:Hlen;
    [|unfold ParseMode; now rewrite Hlen].
  apply ParseMode_by_loop with (fuel := 2%nat) (len := len); [assumption|].
  rewrite ParseMode_loop_step
    with (l' := {| state := PARSE_MODE_ACTION_OP_STATE;
                   action := INIT_MODE_CHANGE_ACTION; actions := [];
                   i := 0 |}); [|cbn; lia|].
  2:{ rewrite ParseMode_body_WHO by reflexivity. cbn [i ParseMode_init].
      rewrite Hw. reflexivity. }
  rewrite ParseMode_loop_S. cbn [i].
  replace (len <? 0)%nat with false by (symmetry; apply Nat.ltb_ge; lia).
  rewrite ParseMode_body_OP by reflexivity. cbn [i]. rewrite Ho.
  reflexivity.
Qed.

End ParserCountFacts.

(** X6.  ParseMode rejects every string whose first character is neither a
    who letter nor an operator, the empty string among them; so it rejects
    every string that ParseOctalMode accepts, and a mode string is never
    both an octal and a symbolic mode. *)
Theorem X6_symbolic_and_octal_exclude :
  forall (alloc : Z -> bool) (s : LPCWSTR),
    (who_of_char (wchar_at s 0) = None ->
     op_of_char (wchar_at s 0) = None ->
     ParseMode alloc s = None) /\
    (wcslen s = 0%nat -> ParseMode alloc s = None) /\
    (forall m, ParseOctalMode s = Some m -> ParseMode alloc s = None).
Proof.
  intros alloc s.
  split; [apply ParseMode_rejects_first|].
  split.
  - intros H. apply wcslen_0 in H.
    apply ParseMode_rejects_first; rewrite H; reflexivity.
  - intros m Hm. apply ParseOctalMode_some in Hm.
    destruct Hm as [Hlen Hd].
    assert (H0 : is_octal_digit (wchar_at s 0)) by (apply Hd; lia).
    unfold is_octal_digit in H0.
    change (wc "0") with 48 in H0. change (wc "7") with 55 in H0.
    apply ParseMode_rejects_first.
    + unfold who_of_char.
      repeat match goal with
             | |- context [?c =? ?k] =>
                 let E := fresh in
                 destruct (Z.eqb_spec c k) as [E|E];
                 [rewrite E in H0; cbn in H0; lia|]
             end.
      reflexivity.
    + unfold op_of_char.
      repeat match goal with
             | |- context [?c =? ?k] =>
                 let E := fresh in
                 destruct (Z.eqb_spec c k) as [E|E];
                 [rewrite E in H0; cbn in H0; lia|]
             end.
      reflexivity.
Qed.

Lemma X6_witness :
  ParseMode (fun _ => true) (L "0755") = None /\
  ParseMode (fun _ => true) (L "rwx") = None.
Proof.
  split.
  - refine (proj2 (proj2 (X6_symbolic_and_octal_exclude (fun _ => true)
                            (L "0755"))) (octal 7 5 5) _).
    vm_compute. reflexivity.
  - refine (proj1 (X6_symbolic_and_octal_exclude (fun _ => true) (L "rwx"))
              _ _); vm_compute; reflexivity.
Defined.

(** *** Clauses separated by a comma *)

Section ParserCommaFacts.

Variable alloc : Z -> bool.

Lemma finalized_who_nonzero a : who (finalized a) <> CHMOD_WHO_NONE.
Proof.
  unfold finalized. destruct (who a =? CHMOD_WHO_NONE) eqn:E.
  - discriminate.
  - now apply Z.eqb_neq.
Qed.

Lemma ParseMode_body_char s s' l :
  wchar_at s (i l) = wchar_at s' (i l) ->
  ParseMode_body alloc s l = ParseMode_body alloc s' l.
Proof. unfold ParseMode_body. intros ->. reflexivity. Qed.

Lemma ParseMode_body_shift acts0 k s s2 l :
  wchar_at s (k + i l) = wchar_at s2 (i l) ->
  ParseMode_body alloc s (ParseMode_shift acts0 k l)
  = match ParseMode_body alloc s2 l with
    | Continue l' => Continue (ParseMode_shift acts0 k l')
    | ReturnFALSE => ReturnFALSE
    end.
Proof.
  unfold ParseMode_body, ParseMode_shift. cbn [state action actions i].
  intros ->.
  destruct (state l);
    repeat match goal with
           | |- context [if ?b then _ else _] => destruct b
           end;
    cbn [state action actions i];
    rewrite <- ?app_assoc, ?Nat.add_succ_r; reflexivity.
Qed.

Lemma ParseMode_loop_shift acts0 k s s2 len2 :
  (forall j, wchar_at s (k + j) = wchar_at s2 j) ->
  forall fuel l,
    ParseMode_loop alloc fuel s (k + len2) (ParseMode_shift acts0 k l)
    = match ParseMode_loop alloc fuel s2 len2 l with
      | Some (Some a) => Some (Some (acts0 ++ a))
      | Some None => Some None
      | None => None
      end.
Proof.
  intros Hchars.
  assert (Hcond : forall l,
            (k + len2 <? i (ParseMode_shift acts0 k l))%nat
            = (len2 <? i l)%nat).
  { intros l. cbn [ParseMode_shift i].
    destruct (Nat.ltb_spec len2 (i l));
      [apply Nat.ltb_lt | apply Nat.ltb_ge]; lia. }
  induction fuel as [|fuel IH]; intros l.
  - rewrite !ParseMode_loop_O, Hcond.
    destruct (len2 <? i l)%nat; reflexivity.
  - rewrite !ParseMode_loop_S, Hcond.
    destruct (len2 <? i l)%nat; [reflexivity|].
    rewrite (ParseMode_body_shift acts0 k s s2 l (Hchars (i l))).
    destruct (ParseMode_body alloc s2 l); [apply IH | reflexivity].
Qed.

Variables s1 s2 : LPCWSTR.
Hypothesis s1_nonzero : Forall (fun c => c <> 0) s1.

(** The run on the first part, read in the whole string: it fails where it
    fails alone, and where it ends alone it goes on with a fresh action. *)
Lemma ParseMode_loop_before_comma len :
  (List.length s1 < len)%nat ->
  forall fuel l r,
    (i l <= List.length s1)%nat ->
    ParseMode_loop alloc fuel s1 (List.length s1) l = Some r ->
    match r with
    | None =>
        exists fuel',
          ParseMode_loop alloc fuel' (s1 ++ wc "," :: s2) len l = Some None
    | Some acts =>
        ParseMode_reaches alloc (s1 ++ wc "," :: s2) len l
          {| state := PARSE_MODE_ACTION_WHO_STATE;
             action := INIT_MODE_CHANGE_ACTION;
             actions := acts; i := S (List.length s1) |}
    end.
Proof.
  intros Hlen.
  assert (Hend1 : wchar_at s1 (List.length s1) = 0) by apply wchar_at_past.
  assert (Hcomma : wchar_at (s1 ++ wc "," :: s2) (List.length s1) = wc ",")
    by apply wchar_at_middle.
  induction fuel as [|fuel IH]; intros l r Hi.
  { rewrite ParseMode_loop_O.
    replace (List.length s1 <? i l)%nat with false
      by (symmetry; apply Nat.ltb_ge; lia).
    discriminate. }
  rewrite ParseMode_loop_S.
  replace (List.length s1 <? i l)%nat with false
    by (symmetry; apply Nat.ltb_ge; lia).
  (* the iterations that do not tell the comma from the terminator *)
  assert (Hsame :
    ParseMode_body alloc (s1 ++ wc "," :: s2) l = ParseMode_body alloc s1 l ->
    match ParseMode_body alloc s1 l with
    | Continue l' => ParseMode_loop alloc fuel s1 (List.length s1) l'
    | ReturnFALSE => Some None
    end = Some r ->
    match r with
    | None =>
        exists fuel',
          ParseMode_loop alloc fuel' (s1 ++ wc "," :: s2) len l = Some None
    | Some acts =>
        ParseMode_reaches alloc (s1 ++ wc "," :: s2) len l
          {| state := PARSE_MODE_ACTION_WHO_STATE;
             action := INIT_MODE_CHANGE_ACTION;
             actions := acts; i := S (List.length s1) |}
    end).
  { intros Hb.
    destruct (ParseMode_body alloc s1 l) as [l'|] eqn:Hb1.
    - intros H.
      assert (Hi' : (i l' <= List.length s1)%nat \/ i l' = S (i l)).
      { apply ParseMode_body_progress in Hb1. lia. }
      assert (Hl' : (i l' <= List.length s1)%nat).
      { destruct Hi' as [|Hi']; [assumption|].
        destruct (Nat.eq_dec (i l) (List.length s1)) as [E|E]; [|lia].
        exfalso.
        (* at the terminator only the END state moves on *)
        destruct (state l) eqn:Hs.
        + rewrite ParseMode_body_WHO, E, Hend1 in Hb1 by assumption.
          cbn in Hb1. inversion Hb1; subst; cbn in Hi'. lia.
        + rewrite ParseMode_body_OP, E, Hend1 in Hb1 by assumption.
          discriminate Hb1.
        + rewrite ParseMode_body_PERM, E, Hend1 in Hb1 by assumption.
          cbn in Hb1. inversion Hb1; subst; cbn in Hi'. lia.
        + rewrite ParseMode_body_REF, E, Hend1 in Hb1 by assumption.
          cbn in Hb1. inversion Hb1; subst; cbn in Hi'. lia.
        + rewrite ParseMode_body_END in Hb, Hb1 by assumption.
          cbv zeta in Hb, Hb1.
          rewrite E, Hcomma in Hb. rewrite E, Hend1 in Hb1.
          destruct (alloc sizeof_MODE_CHANGE_ACTION); [|discriminate Hb1].
          rewrite Z.eqb_refl in Hb.
          change (0 =? wc ",") with false in Hb1.
          change (0 =? 0) with true in Hb1. cbv iota in Hb1.
          rewrite <- Hb in Hb1. inversion Hb1 as [Hwho].
          now apply finalized_who_nonzero in Hwho. }
      specialize (IH l' r Hl' H).
      destruct r as [acts|].
      + eapply ParseMode_reaches_trans; [|exact IH].
        apply ParseMode_reaches_step; [lia | exact Hb].
      + destruct IH as [fuel' IH]. exists (S fuel').
        rewrite ParseMode_loop_step with (l' := l'); [exact IH|lia|exact Hb].
    - intros H. injection H as <-. exists 1%nat.
      rewrite ParseMode_loop_S.
      replace (len <? i l)%nat with false
        by (symmetry; apply Nat.ltb_ge; lia).
      now rewrite Hb. }
  destruct (Nat.eq_dec (i l) (List.length s1)) as [E|E].
  2:{ apply Hsame. apply ParseMode_body_char.
      unfold wchar_at. apply app_nth1. lia. }
  destruct (state l) eqn:Hs.
  - apply Hsame.
    rewrite !ParseMode_body_WHO by assumption.
    rewrite E, Hend1, Hcomma. reflexivity.
  - apply Hsame.
    rewrite !ParseMode_body_OP by assumption.
    rewrite E, Hend1, Hcomma. reflexivity.
  - apply Hsame.
    rewrite !ParseMode_body_PERM by assumption.
    rewrite E, Hend1, Hcomma. reflexivity.
  - apply Hsame.
    rewrite !ParseMode_body_REF by assumption.
    rewrite E, Hend1, Hcomma. reflexivity.
  - clear Hsame.
    rewrite ParseMode_body_END by assumption. cbv zeta.
    rewrite E, Hend1.
    destruct (alloc sizeof_MODE_CHANGE_ACTION) eqn:Ha.
    + change (0 =? wc ",") with false. change (0 =? 0) with true.
      cbv iota.
      rewrite ParseMode_loop_done by (cbn; lia).
      intros H. injection H as <-. cbn [actions].
      apply ParseMode_reaches_step; [lia|].
      rewrite ParseMode_body_END by assumption. cbv zeta.
      rewrite E, Hcomma, Ha, Z.eqb_refl, <- E. reflexivity.
    + intros H. injection H as <-. exists 1%nat.
      rewrite ParseMode_loop_S.
      replace (len <? i l)%nat with false
        by (symmetry; apply Nat.ltb_ge; lia).
      rewrite ParseMode_body_END by assumption. cbv zeta.
      now rewrite Ha.
Qed.

Ltac alias_lia := unfold LPCWSTR, WCHAR in *; lia.

Lemma ParseMode_comma :
  Z.of_nat (wcslen (s1 ++ wc "," :: s2)) < STRSAFE_MAX_CCH ->
  ParseMode alloc (s1 ++ wc "," :: s2)
  = match ParseMode alloc s1 with
    | Some a1 =>
        match ParseMode alloc s2 with
        | Some a2 => Some (a1 ++ a2)
        | None => None
        end
    | None => None
    end.
Proof.
  intros Hmax.
  assert (Hlen : wcslen (s1 ++ wc "," :: s2)
                 = (S (List.length s1) + wcslen s2)%nat).
  { rewrite wcslen_app by assumption.
    match goal with
    | |- (_ + ?x)%nat = _ => change x with (S (wcslen s2))
    end.
    alias_lia. }
  rewrite Hlen in Hmax.
  assert (Hl : StringCchLengthW (s1 ++ wc "," :: s2) STRSAFE_MAX_CCH
               = Some (S (List.length s1) + wcslen s2)%nat).
  { unfold StringCchLengthW. rewrite Hlen.
    apply Z.ltb_lt in Hmax. now rewrite Hmax. }
  assert (Hl1 : StringCchLengthW s1 STRSAFE_MAX_CCH
                = Some (List.length s1)).
  { unfold StringCchLengthW. rewrite (wcslen_all_nonzero s1 s1_nonzero).
    match goal with
    | |- (if ?b then _ else _) = _ =>
        replace b with true by (symmetry; apply Z.ltb_lt; alias_lia)
    end.
    reflexivity. }
  assert (Hl2 : StringCchLengthW s2 STRSAFE_MAX_CCH = Some (wcslen s2)).
  { unfold StringCchLengthW.
    replace (Z.of_nat (wcslen s2) <? STRSAFE_MAX_CCH) with true
      by (symmetry; apply Z.ltb_lt; alias_lia).
    reflexivity. }
  destruct (ParseMode_loop alloc (ParseMode_fuel (List.length s1)) s1
              (List.length s1) ParseMode_init) as [r1|] eqn:E1;
    [|now apply ParseMode_fuel_enough in E1].
  destruct (ParseMode_loop alloc (ParseMode_fuel (wcslen s2)) s2 (wcslen s2)
              ParseMode_init) as [r2|] eqn:E2;
    [|now apply ParseMode_fuel_enough in E2].
  rewrite (ParseMode_by_loop alloc _ s1 _ r1 Hl1 E1).
  rewrite (ParseMode_by_loop alloc _ s2 _ r2 Hl2 E2).
  pose proof (ParseMode_loop_before_comma
                (S (List.length s1) + wcslen s2) ltac:(alias_lia) _
                ParseMode_init r1 ltac:(cbn; alias_lia) E1) as Hrun.
  destruct r1 as [a1|].
  - destruct Hrun as [n Hrun].
    apply ParseMode_by_loop
      with (fuel := (n + ParseMode_fuel (wcslen s2))%nat)
           (len := (S (List.length s1) + wcslen s2)%nat); [assumption|].
    rewrite Hrun.
    change {| state := PARSE_MODE_ACTION_WHO_STATE;
              action := INIT_MODE_CHANGE_ACTION; actions := a1;
              i := S (List.length s1) |}
      with {| state := state ParseMode_init; action := action ParseMode_init;
              actions := a1; i := S (List.length s1) |}.
    replace {| state := state ParseMode_init; action := action ParseMode_init;
               actions := a1; i := S (List.length s1) |}
      with (ParseMode_shift a1 (S (List.length s1)) ParseMode_init)
      by (unfold ParseMode_shift; cbn [actions i ParseMode_init];
          rewrite app_nil_r, Nat.add_0_r; reflexivity).
    rewrite (ParseMode_loop_shift a1 (S (List.length s1))
               (s1 ++ wc "," :: s2) s2 (wcslen s2)).
    + rewrite E2. destruct r2; reflexivity.
    + intros j. unfold wchar_at.
      rewrite app_nth2 by alias_lia.
      replace (S (List.length s1) + j - List.length s1)%nat with (S j)
        by alias_lia.
      reflexivity.
  - destruct Hrun as [fuel' Hrun].
    now apply ParseMode_by_loop
      with (fuel := fuel') (len := (S (List.length s1) + wcslen s2)%nat).
Qed.

End ParserCommaFacts.



(** ** The ACL of a mode *)

Lemma has_bit_nine m b :
  Z.land CHMOD_WHO_ALL b = b ->
  has_bit (Z.land m CHMOD_WHO_ALL) b = has_bit m b.
Proof.
  intros H. unfold has_bit. now rewrite <- Z.land_assoc, H.
Qed.

Lemma GetWindowsAccessMask_nine WinMasks m :
  GetWindowsAccessMask WinMasks (Z.land m CHMOD_WHO_ALL)
  = GetWindowsAccessMask WinMasks m.
Proof.
  unfold GetWindowsAccessMask.
  rewrite !has_bit_nine by reflexivity. reflexivity.
Qed.

(** X8.  The access masks and the ACL of a mode depend on its nine
    permission bits only: the directory flag and every other bit above
    them are not looked at. *)
Theorem X8_acl_reads_nine_bits :
  forall (WinMasks : WindowsAclMask -> ACCESS_MASK) (env : NativeEnv)
         (unixMask : USHORT) (owner group : SID),
    GetWindowsAccessMask WinMasks (Z.land unixMask CHMOD_WHO_ALL)
    = GetWindowsAccessMask WinMasks unixMask /\
    GetWindowsDACLs WinMasks env (Z.land unixMask CHMOD_WHO_ALL) owner group
    = GetWindowsDACLs WinMasks env unixMask owner group.
Proof.
  intros WinMasks env unixMask owner group.
  split; [apply GetWindowsAccessMask_nine|].
  unfold GetWindowsDACLs. now rewrite GetWindowsAccessMask_nine.
Qed.

Lemma length_deny_entry sid m :
  List.length (deny_entry sid m) = if m =? 0 then 0%nat else 1%nat.
Proof.
  unfold deny_entry. destruct (m =? 0); reflexivity.
Qed.

Lemma length_expected_acl m owner group :
  List.length (expected_acl m owner group)
  = ((if (userDeny m =? 0)%Z then 0 else 1)
     + (if (groupDeny m =? 0)%Z then 0 else 1) + 3)%nat.
Proof.
  unfold expected_acl, allow_entry.
  rewrite !length_app, !length_deny_entry. cbn [List.length]. lia.
Qed.

(** X9.  An ACL that GetWindowsDACLs returns has three, four or five
    entries, and it has three, none of them a deny entry, exactly for the
    modes in which no class lacks a right that a broader class has. *)
Theorem X9_acl_entries :
  forall (WinMasks : WindowsAclMask -> ACCESS_MASK) (env : NativeEnv)
         (unixMask : USHORT) (owner group : SID) (acl : ACL),
    rights_distinct WinMasks ->
    GetWindowsDACLs WinMasks env unixMask owner group = Some acl ->
    (3 <= List.length acl <= 5)%nat /\
    (List.length acl = 3%nat <-> nothing_denied unixMask) /\
    (nothing_denied unixMask ->
     Forall (fun a => AceType a = ACCESS_ALLOWED_ACE_TYPE) acl).
Proof.
  intros WinMasks env unixMask owner group acl Hd H.
  apply GetWindowsDACLs_result in H. subst acl.
  pose proof (userDeny_nonzero WinMasks unixMask Hd) as Hu.
  pose proof (groupDeny_nonzero WinMasks unixMask Hd) as Hg.
  set (m := GetWindowsAccessMask WinMasks unixMask) in *.
  assert (Hnone : nothing_denied unixMask
                  <-> userDeny m = 0 /\ groupDeny m = 0).
  { unfold nothing_denied. split.
    - intros Hn. split.
      + destruct (Z.eq_dec (userDeny m) 0) as [E|E]; [exact E|].
        apply Hu in E. destruct E as [r Hr]. now destruct (Hn r).
      + destruct (Z.eq_dec (groupDeny m) 0) as [E|E]; [exact E|].
        apply Hg in E. destruct E as [r Hr]. now destruct (Hn r).
    - intros [Eu Eg] r. split; intros Hr.
      + apply (proj2 Hu); [now exists r | exact Eu].
      + apply (proj2 Hg); [now exists r | exact Eg]. }
  rewrite length_expected_acl, Hnone.
  split; [|split].
  - destruct (userDeny m =? 0), (groupDeny m =? 0); lia.
  - destruct (Z.eqb_spec (userDeny m) 0), (Z.eqb_spec (groupDeny m) 0);
      split; try lia; tauto.
  - intros [Eu Eg]. unfold expected_acl, deny_entry, allow_entry.
    rewrite Eu, Eg. cbn. repeat constructor.
Qed.

Lemma X9_witness :
  (3 <= List.length
          (expected_acl (GetWindowsAccessMask example_WinMasks (octal 6 4 4))
             example_owner example_group) <= 5)%nat.
Proof.
  refine (proj1 (X9_acl_entries example_WinMasks example_env (octal 6 4 4)
                   example_owner example_group _ _ _)).
  - split.
    + intros []; discriminate.
    + intros [] [] H; try reflexivity; contradiction.
  - vm_compute. reflexivity.
Defined.

Lemma acl_size_app a b :
  acl_size (a ++ b) = acl_size a + acl_size b - sizeof_ACL.
Proof.
  unfold acl_size. rewrite map_app, fold_right_app.
  generalize (map ace_size b). intros lb.
  induction (map ace_size a) as [|x la IH]; cbn [fold_right]; lia.
Qed.

Lemma GetLengthSid_range sid :
  (List.length (SubAuthority sid) <= SID_MAX_SUB_AUTHORITIES)%nat ->
  8 <= GetLengthSid sid <= 68.
Proof.
  unfold GetLengthSid, SID_MAX_SUB_AUTHORITIES. lia.
Qed.

(** X10.  The buffer that GetWindowsDACLs asks for, and hands to
    InitializeAcl, has exactly the size of the ACL that it returns: the
    header and, for each entry that is then added, the entry with its
    SID. *)
Theorem X10_acl_buffer_fits :
  forall (WinMasks : WindowsAclMask -> ACCESS_MASK) (env : NativeEnv)
         (unixMask : USHORT) (owner group : SID) (acl : ACL),
    (List.length (SubAuthority owner) <= SID_MAX_SUB_AUTHORITIES)%nat ->
    (List.length (SubAuthority group) <= SID_MAX_SUB_AUTHORITIES)%nat ->
    GetWindowsDACLs WinMasks env unixMask owner group = Some acl ->
    LocalAlloc env (acl_size acl) = true /\
    InitializeAcl env (acl_size acl) = true.
Proof.
  intros WinMasks env unixMask owner group acl Ho Hg H.
  pose proof (GetWindowsDACLs_result WinMasks env _ _ _ _ H) as Hacl.
  apply GetLengthSid_range in Ho, Hg.
  revert H. unfold GetWindowsDACLs. cbv zeta.
  destruct (AllocateAndInitializeSid env EveryoneSid); [|discriminate].
  cbn [negb].
  match goal with
  | |- context [LocalAlloc env ?n] =>
      replace n with (acl_size acl)
  end.
  - destruct (LocalAlloc env (acl_size acl)); [|discriminate].
    destruct (InitializeAcl env (acl_size acl)); [|discriminate].
    intros _. split; reflexivity.
  - subst acl. unfold expected_acl, deny_entry, allow_entry.
    generalize (GetWindowsAccessMask WinMasks unixMask). intros m.
    change (GetLengthSid EveryoneSid) with 12.
    unfold sizeof_ACL, sizeof_ACCESS_ALLOWED_ACE, sizeof_ACCESS_DENIED_ACE,
      sizeof_DWORD in *.
    destruct (userDeny m =? 0), (groupDeny m =? 0); cbn [negb app];
      unfold acl_size, ace_size, to_DWORD;
      cbn [map fold_right AceSid AceType];
      change (GetLengthSid EveryoneSid) with 12;
      unfold sizeof_ACL, sizeof_ACCESS_ALLOWED_ACE, sizeof_ACCESS_DENIED_ACE,
        sizeof_DWORD;
      Z.to_euclidean_division_equations; lia.
Qed.

Lemma X10_witness :
  LocalAlloc example_env
    (acl_size (expected_acl
                 (GetWindowsAccessMask example_WinMasks (octal 0 4 4))
                 example_owner example_group)) = true /\
  InitializeAcl example_env
    (acl_size (expected_acl
                 (GetWindowsAccessMask example_WinMasks (octal 0 4 4))
                 example_owner example_group)) = true.
Proof.
  refine (X10_acl_buffer_fits example_WinMasks example_env (octal 0 4 4)
            example_owner example_group _ _ _ _).
  - vm_compute. lia.
  - vm_compute. lia.
  - vm_compute. reflexivity.
Defined.

(** X11.  The allow mask of the group does not depend on the entry of the
    table for reading: a group that may read is given FILE_GENERIC_READ. *)
Theorem X11_group_read_is_generic :
  forall (WinMasks WinMasks' : WindowsAclMask -> ACCESS_MASK)
         (unixMask : USHORT),
    (forall w, w <> WIN_READ -> WinMasks w = WinMasks' w) ->
    groupAllow (GetWindowsAccessMask WinMasks unixMask)
    = groupAllow (GetWindowsAccessMask WinMasks' unixMask) /\
    (has_bit unixMask UX_G_READ = true ->
     Z.land (groupAllow (GetWindowsAccessMask WinMasks unixMask))
       FILE_GENERIC_READ = FILE_GENERIC_READ).
Proof.
  intros WM WM' unixMask H.
  unfold GetWindowsAccessMask. cbn [groupAllow].
  rewrite !(H WIN_ALL), !(H WIN_WRITE), !(H WIN_EXECUTE) by discriminate.
  split; [reflexivity|].
  intros ->.
  destruct (has_bit unixMask UX_G_WRITE), (has_bit unixMask UX_G_EXECUTE);
    bitwise.
Qed.

Lemma X11_witness :
  groupAllow (GetWindowsAccessMask example_WinMasks (octal 6 4 0))
  = groupAllow
      (GetWindowsAccessMask
         (fun w => match w with
                   | WIN_READ => 0
                   | _ => example_WinMasks w
                   end) (octal 6 4 0)).
Proof.
  refine (proj1 (X11_group_read_is_generic example_WinMasks
                   (fun w => match w with
                             | WIN_READ => 0
                             | _ => example_WinMasks w
                             end) (octal 6 4 0) _)).
  intros [] H; try reflexivity. contradiction.
Defined.

(** ** The drivers: what they call *)

Section WalkTraceFacts.

Variable UX_DIRECTORY : USHORT.
Variable WinMasks : WindowsAclMask -> ACCESS_MASK.
Variable env : NativeEnv.
Variable mode : USHORT.
Variable actions : list MODE_CHANGE_ACTION.

(** A property of the calls of a walk, which may depend on the path that is
    walked: it is enough that the calls of one level have it and that it
    passes from a child to its directory. *)
Variable Q : LPCWSTR -> NativeCall * bool -> Prop.

Hypothesis Q_info :
  forall path b, Q path (Call_GetFileInformationByName path, b).
Hypothesis Q_first :
  forall path b,
    Q path (Call_FindFirstFile (wcs path ++ [backslash; wc "*"]), b).
Hypothesis Q_next :
  forall path b,
    Q path (Call_FindNextFileW (wcs path ++ [backslash; wc "*"]), b).
Hypothesis Q_change :
  forall path,
    Forall (Q path)
      (calls (ChangeFileMode UX_DIRECTORY WinMasks env path mode actions)).
Hypothesis Q_child :
  forall path name e, Q (child_path path name) e -> Q path e.

Lemma ChangeFileModeRecursively_loop_calls
    (self : LPCWSTR -> IO (option bool)) path pathSize names :
  (forall name,
     Forall (Q (child_path path name)) (calls (self (child_path path name))))
  ->
  Forall (Q path)
    (calls (ChangeFileModeRecursively_loop env self path
              (wcs path ++ [backslash; wc "*"]) pathSize names)).
Proof.
  intros Hself. induction names as [|name names IH]; [constructor|].
  rewrite ChangeFileModeRecursively_loop_cons. cbv zeta.
  assert (Hnext :
    Forall (Q path)
      (calls (bind (call_bool
                      (Call_FindNextFileW (wcs path ++ [backslash; wc "*"]))
                      (match names with [] => false | _ => true end))
                (fun _ =>
                   ChangeFileModeRecursively_loop env self path
                     (wcs path ++ [backslash; wc "*"]) pathSize names)))).
  { rewrite calls_bind. apply Forall_app. split; [|exact IH].
    repeat constructor. apply Q_next. }
  destruct (is_pseudo_entry name); [exact Hnext|].
  destruct (LocalAlloc env _); cbn [negb]; [|constructor].
  destruct (StringCchCopyW _ path) as [f1|] eqn:E1; [|constructor].
  destruct (StringCchCatW f1 _ [backslash]) as [f2|] eqn:E2; [|constructor].
  destruct (StringCchCatW f2 _ name) as [f3|] eqn:E3; [|constructor].
  rewrite (child_path_built _ _ _ _ _ _ E1 E2 E3).
  rewrite calls_bind. apply Forall_app. split.
  - eapply Forall_impl; [|apply Hself]. intros e. apply Q_child.
  - destruct (result (self (child_path path name))) as [[|]|];
      [exact Hnext | constructor | constructor].
Qed.

Lemma ChangeFileModeRecursively_fuel_calls fuel : forall path,
  Forall (Q path)
    (calls (ChangeFileModeRecursively_fuel UX_DIRECTORY WinMasks env fuel
              path mode actions)).
Proof.
  induction fuel as [|fuel IH]; intros path; [constructor|].
  rewrite ChangeFileModeRecursively_fuel_S.
  rewrite calls_bind. apply Forall_app. split.
  { repeat constructor. apply Q_info. }
  cbn [call_opt result fst].
  destruct (GetFileInformationByName env path) as [fileInfo|];
    [|constructor].
  destruct (IsDirFileInfo fileInfo); cbn [negb].
  2:{ rewrite calls_bind. apply Forall_app.
      split; [apply Q_change | constructor]. }
  destruct (StringCchLengthW path (MAX_PATH - 3)) as [pathSize|];
    [|constructor].
  cbv zeta.
  destruct (LocalAlloc env _); cbn [negb]; [|constructor].
  destruct (StringCchCopyW _ path) as [d1|] eqn:E1; [|constructor].
  destruct (StringCchCatW d1 _ _) as [d2|] eqn:E2; [|constructor].
  rewrite (dir_pattern_built _ _ _ _ E1 E2).
  rewrite calls_bind. apply Forall_app. split.
  { repeat constructor. apply Q_first. }
  cbn [call_opt result fst].
  destruct (FindFirstFile env _) as [[first rest]|]; [|constructor].
  rewrite calls_bind. apply Forall_app. split.
  { apply ChangeFileModeRecursively_loop_calls. intros name. apply IH. }
  destruct (result (ChangeFileModeRecursively_loop env _ path _ pathSize
                      (first :: rest))) as [[|]|];
    [|constructor|constructor].
  rewrite calls_bind. apply Forall_app.
  split; [apply Q_change | constructor].
Qed.

End WalkTraceFacts.

Section DriverMoreFacts.

Variable UX_DIRECTORY : USHORT.
Variable WinMasks : WindowsAclMask -> ACCESS_MASK.
Variable env : NativeEnv.

(** The calls of ChangeFileModeByMask: the security of the path is read,
    and written when every step between succeeds. *)
Lemma ChangeFileModeByMask_calls path mode :
  (exists owner group sd dacl,
     GetNamedSecurityInfoW env path = Some (owner, group, sd) /\
     GetWindowsDACLs WinMasks env mode owner group = Some dacl /\
     calls (ChangeFileModeByMask WinMasks env path mode)
     = [(Call_GetNamedSecurityInfoW path, true);
        (Call_SetFileSecurity path dacl,
         result (ChangeFileModeByMask WinMasks env path mode))]) \/
  (result (ChangeFileModeByMask WinMasks env path mode) = false /\
   calls (ChangeFileModeByMask WinMasks env path mode)
   = [(Call_GetNamedSecurityInfoW path,
       match GetNamedSecurityInfoW env path with
       | Some _ => true
       | None => false
       end)]).
Proof.
  unfold ChangeFileModeByMask, bind, call_opt, call_bool, ret, result, calls.
  cbn [fst snd].
  destruct (GetNamedSecurityInfoW env path) as [[[pOwnerSid pGroupSid] pSD]|];
    [|right; split; reflexivity].
  destruct (GetSecurityDescriptorControl env pSD) as [control|];
    [|right; split; reflexivity].
  match goal with
  | |- context [match ?a with Some _ => _ | None => _ end] =>
      destruct a as [pAbsSD|]; [|right; split; reflexivity]
  end.
  destruct (GetWindowsDACLs WinMasks env mode pOwnerSid pGroupSid)
    as [pNewDACL|] eqn:Ed; [|right; split; reflexivity].
  destruct (SetSecurityDescriptorDacl env pAbsSD pNewDACL);
    [|right; split; reflexivity].
  left. exists pOwnerSid, pGroupSid, pSD, pNewDACL.
  repeat split. exact Ed.
Qed.

Lemma ChangeFileModeByMask_no_read path mode :
  Forall (fun e => reads_mode (fst e) = false)
    (calls (ChangeFileModeByMask WinMasks env path mode)).
Proof.
  destruct (ChangeFileModeByMask_calls path mode)
    as [(o & g & sd & dacl & _ & _ & ->)|[_ ->]];
    repeat constructor.
Qed.





End DriverMoreFacts.

(** X12.  On success ChangeFileModeByMask has issued two calls: it has read
    the security of the path and has written, on the same path, the ACL of
    the mode for the owner and the group that it read.  When it fails it
    has written nothing. *)
Theorem X12_by_mask_calls :
  forall (WinMasks : WindowsAclMask -> ACCESS_MASK) (env : NativeEnv)
         (path : LPCWSTR) (mode : USHORT),
    let run := ChangeFileModeByMask WinMasks env path mode in
    (result run = true ->
     exists owner group sd,
       GetNamedSecurityInfoW env path = Some (owner, group, sd) /\
       calls run
       = [(Call_GetNamedSecurityInfoW path, true);
          (Call_SetFileSecurity path
             (expected_acl (GetWindowsAccessMask WinMasks mode) owner group),
           true)]) /\
    (result run = false -> applied (calls run) = []).
Proof.
  intros WinMasks env path mode run. unfold run. split.
  - intros Hr.
    destruct (ChangeFileModeByMask_calls WinMasks env path mode)
      as [(o & g & sd & dacl & Hinfo & Hdacl & Hcalls)|[Hfalse _]];
      [|congruence].
    exists o, g, sd. split; [exact Hinfo|].
    rewrite Hcalls, Hr.
    now rewrite (GetWindowsDACLs_result _ _ _ _ _ _ Hdacl).
  - intros Hr. rewrite ChangeFileModeByMask_applied, Hr. reflexivity.
Qed.

Lemma X12_witness :
  exists owner group sd,
    GetNamedSecurityInfoW example_env (L "f") = Some (owner, group, sd) /\
    calls (ChangeFileModeByMask example_WinMasks example_env (L "f")
             (octal 6 4 4))
    = [(Call_GetNamedSecurityInfoW (L "f"), true);
       (Call_SetFileSecurity (L "f")
          (expected_acl (GetWindowsAccessMask example_WinMasks (octal 6 4 4))
             owner group),
        true)].
Proof.
  refine (proj1 (X12_by_mask_calls example_WinMasks example_env (L "f")
                   (octal 6 4 4)) _).
  vm_compute. reflexivity.
Defined.

(** X13.  With an octal mode Chmod never reads the mode that a file has,
    with or without the option -R. *)
Theorem X13_octal_mode_never_reads :
  forall (UX_DIRECTORY : USHORT) (WinMasks : WindowsAclMask -> ACCESS_MASK)
         (env : NativeEnv) (prog s path : LPCWSTR) (m : USHORT),
    ParseOctalMode s = Some m ->
    Forall (fun e => reads_mode (fst e) = false)
      (calls (Chmod UX_DIRECTORY WinMasks env [prog; s; path])) /\
    Forall (fun e => reads_mode (fst e) = false)
      (calls (Chmod UX_DIRECTORY WinMasks env [prog; L "-R"; s; path])).
Proof.
  intros UXD WM env prog s path m Hoct.
  assert (Hrun : forall recursive,
    Forall (fun e => reads_mode (fst e) = false)
      (calls
         (bind (call_opt (Call_ConvertToLongPath path)
                  (ConvertToLongPath env path))
            (fun r =>
               match r with
               | None => ret EXIT_FAILURE
               | Some longPathName =>
                   if negb recursive then
                     bind (ChangeFileMode UXD WM env longPathName m [])
                       (fun b => ret (if b : bool then EXIT_SUCCESS
                                      else EXIT_FAILURE))
                   else
                     bind (ChangeFileModeRecursively UXD WM env longPathName
                             m [])
                       (fun b => ret (if b : bool then EXIT_SUCCESS
                                      else EXIT_FAILURE))
               end)))).
  { intros recursive. rewrite calls_bind. apply Forall_app. split.
    { repeat constructor. }
    cbn [call_opt result fst].
    destruct (ConvertToLongPath env path) as [longPathName|]; [|constructor].
    destruct recursive; cbn [negb].
    - rewrite calls_bind. apply Forall_app. split; [|constructor].
      unfold ChangeFileModeRecursively.
      rewrite calls_bind. apply Forall_app. split; [|constructor].
      apply (ChangeFileModeRecursively_fuel_calls UXD WM env m []
               (fun _ e => reads_mode (fst e) = false)); try reflexivity.
      + intros p. apply ChangeFileModeByMask_no_read.
      + intros p name e H. exact H.
    - rewrite calls_bind. apply Forall_app. split; [|constructor].
      apply ChangeFileModeByMask_no_read. }
  split.
  - unfold Chmod, ParseCommandLineArguments. rewrite Hoct.
    rewrite calls_bind. cbn [ret calls result fst snd app].
    apply (Hrun false).
  - unfold Chmod, ParseCommandLineArguments.
    change (wcs_eqb (L "-R") (L "-R")) with true. cbv iota.
    rewrite Hoct.
    rewrite calls_bind, calls_bind. apply Forall_app. split.
    { apply Forall_app. split; [repeat constructor|].
      cbn [call_opt result fst].
      destruct (GetFileInformationByName env path); constructor. }
    rewrite result_bind. cbn [call_opt result fst].
    destruct (GetFileInformationByName env path) as [fileInfo|];
      cbn [ret fst]; [|constructor].
    apply (Hrun (IsDirFileInfo fileInfo)).
Qed.

Lemma X13_witness :
  Forall (fun e => reads_mode (fst e) = false)
    (calls (Chmod example_UX_DIRECTORY example_WinMasks example_env
              [L "chmod"; L "-R"; L "755"; L "d"])).
Proof.
  refine (proj2 (X13_octal_mode_never_reads example_UX_DIRECTORY
                   example_WinMasks example_env (L "chmod") (L "755") (L "d")
                   (octal 7 5 5) _)).
  vm_compute. reflexivity.
Defined.

(** X14.  With the option -R on a path that is not a directory Chmod does
    what it does without the option, after the one query that tells it
    so. *)
Theorem X14_recursive_on_a_file :
  forall (UX_DIRECTORY : USHORT) (WinMasks : WindowsAclMask -> ACCESS_MASK)
         (env : NativeEnv) (prog s path : LPCWSTR)
         (fileInfo : BY_HANDLE_FILE_INFORMATION),
    GetFileInformationByName env path = Some fileInfo ->
    IsDirFileInfo fileInfo = false ->
    Chmod UX_DIRECTORY WinMasks env [prog; L "-R"; s; path]
    = (result (Chmod UX_DIRECTORY WinMasks env [prog; s; path]),
       (Call_GetFileInformationByName path, true)
       :: calls (Chmod UX_DIRECTORY WinMasks env [prog; s; path])).
Proof.
  intros UXD WM env prog s path fileInfo Hinfo Hdir.
  assert (HR : ParseCommandLineArguments env [prog; L "-R"; s; path]
               = (result (ParseCommandLineArguments env [prog; s; path]),
                  [(Call_GetFileInformationByName path, true)])).
  { unfold ParseCommandLineArguments.
    change (wcs_eqb (L "-R") (L "-R")) with true. cbv iota.
    unfold bind, call_opt, ret, result. rewrite Hinfo. cbn [fst snd].
    rewrite Hdir. reflexivity. }
  assert (HN : calls (ParseCommandLineArguments env [prog; s; path]) = [])
    by reflexivity.
  unfold Chmod. rewrite HR.
  destruct (ParseCommandLineArguments env [prog; s; path]) as [r c].
  cbn in HN. subst c. reflexivity.
Qed.

Lemma X14_witness :
  Chmod example_UX_DIRECTORY example_WinMasks example_env
    [L "chmod"; L "-R"; L "600"; L "f"]
  = (result (Chmod example_UX_DIRECTORY example_WinMasks example_env
               [L "chmod"; L "600"; L "f"]),
     (Call_GetFileInformationByName (L "f"), true)
     :: calls (Chmod example_UX_DIRECTORY example_WinMasks example_env
                 [L "chmod"; L "600"; L "f"])).
Proof.
  refine (X14_recursive_on_a_file example_UX_DIRECTORY example_WinMasks
            example_env (L "chmod") (L "600") (L "f")
            {| dwFileAttributes := 32 |} _ _).
  - vm_compute. reflexivity.
  - vm_compute. reflexivity.
Defined.

(** X15.  Chmod fails without a single call when it is given neither two nor
    three arguments after the program name, or three of which the first is
    not -R. *)
Theorem X15_bad_arguments :
  forall (UX_DIRECTORY : USHORT) (WinMasks : WindowsAclMask -> ACCESS_MASK)
         (env : NativeEnv) (argv : list LPCWSTR),
    (List.length argv <> 3%nat /\ List.length argv <> 4%nat) \/
    (exists prog a1 a2 a3,
       argv = [prog; a1; a2; a3] /\ wcs_eqb a1 (L "-R") = false) ->
    Chmod UX_DIRECTORY WinMasks env argv = (EXIT_FAILURE, []).
Proof.
  intros UXD WM env argv [[H3 H4]|(prog & a1 & a2 & a3 & -> & Hopt)].
  - unfold Chmod, ParseCommandLineArguments.
    destruct argv as [|a0 [|a1 [|a2 [|a3 [|a4 rest]]]]]; cbn in H3, H4;
      try reflexivity; contradiction.
  - unfold Chmod, ParseCommandLineArguments. rewrite Hopt. reflexivity.
Qed.

Lemma X15_witness :
  Chmod example_UX_DIRECTORY example_WinMasks example_env
    [L "chmod"; L "-r"; L "644"; L "f"]
  = (EXIT_FAILURE, []).
Proof.
  refine (X15_bad_arguments example_UX_DIRECTORY example_WinMasks example_env
            [L "chmod"; L "-r"; L "644"; L "f"] _).
  right. exists (L "chmod"), (L "-r"), (L "644"), (L "f").
  split; reflexivity.
Defined.

(** X16.  On a directory whose path has MAX_PATH - 3 characters or more
    ChangeFileModeRecursively fails after the query that tells it a
    directory: it lists nothing and changes nothing, not even the
    directory. *)
Theorem X16_long_directory_path :
  forall (UX_DIRECTORY : USHORT) (WinMasks : WindowsAclMask -> ACCESS_MASK)
         (env : NativeEnv) (path : LPCWSTR) (mode : USHORT)
         (actions : list MODE_CHANGE_ACTION)
         (fileInfo : BY_HANDLE_FILE_INFORMATION),
    GetFileInformationByName env path = Some fileInfo ->
    IsDirFileInfo fileInfo = true ->
    MAX_PATH - 3 <= Z.of_nat (wcslen path) ->
    ChangeFileModeRecursively UX_DIRECTORY WinMasks env path mode actions
    = (false, [(Call_GetFileInformationByName path, true)]).
Proof.
  intros UXD WM env path mode actions fileInfo Hinfo Hdir Hlen.
  unfold ChangeFileModeRecursively.
  change (Z.to_nat MAX_PATH) with (S 259).
  rewrite ChangeFileModeRecursively_fuel_S.
  unfold bind, call_opt, ret. rewrite Hinfo. cbn [fst snd]. rewrite Hdir.
  cbn [negb]. unfold StringCchLengthW.
  replace (Z.of_nat (wcslen path) <? MAX_PATH - 3) with false
    by (symmetry; apply Z.ltb_ge; exact Hlen).
  reflexivity.
Qed.

Lemma X16_witness :
  ChangeFileModeRecursively example_UX_DIRECTORY example_WinMasks
    {| LocalAlloc := LocalAlloc example_env;
       AllocateAndInitializeSid := AllocateAndInitializeSid example_env;
       InitializeAcl := InitializeAcl example_env;
       AddAccessDeniedAce_ok := AddAccessDeniedAce_ok example_env;
       AddAccessAllowedAce_ok := AddAccessAllowedAce_ok example_env;
       GetFileInformationByName := fun _ =>
         Some {| dwFileAttributes := FILE_ATTRIBUTE_DIRECTORY |};
       ConvertToLongPath := ConvertToLongPath example_env;
       FindFileOwnerAndPermission := FindFileOwnerAndPermission example_env;
       FindFirstFile := FindFirstFile example_env;
       GetNamedSecurityInfoW := GetNamedSecurityInfoW example_env;
       GetSecurityDescriptorControl :=
         GetSecurityDescriptorControl example_env;
       MakeAbsoluteSD_query := MakeAbsoluteSD_query example_env;
       MakeAbsoluteSD := MakeAbsoluteSD example_env;
       SetSecurityDescriptorDacl := SetSecurityDescriptorDacl example_env;
       SetFileSecurity := SetFileSecurity example_env |}
    (repeat (wc "d") 257) (octal 7 5 5) []
  = (false, [(Call_GetFileInformationByName (repeat (wc "d") 257), true)]).
Proof.
  refine (X16_long_directory_path example_UX_DIRECTORY example_WinMasks _
            (repeat (wc "d") 257) (octal 7 5 5) []
            {| dwFileAttributes := FILE_ATTRIBUTE_DIRECTORY |} _ _ _).
  - reflexivity.
  - reflexivity.
  - vm_compute. discriminate.
Defined.

(** ** ParseMode: the strings it accepts *)

Lemma class_of_zero :
  who_of_char 0 = None /\ op_of_char 0 = None /\ perm_of_char 0 = None
  /\ ref_of_char 0 = None.
Proof. repeat split. Qed.

Lemma class_of_comma :
  who_of_char (wc ",") = None /\ op_of_char (wc ",") = None
  /\ perm_of_char (wc ",") = None /\ ref_of_char (wc ",") = None.
Proof. repeat split. Qed.

Lemma operator_only c :
  op_of_char c <> None ->
  who_of_char c = None /\ perm_of_char c = None /\ ref_of_char c = None
  /\ c <> wc "," /\ c <> 0.
Proof.
  unfold op_of_char, who_of_char, perm_of_char, ref_of_char.
  letter_tests; intros H; repeat split; try discriminate;
    exfalso; now apply H.
Qed.

Lemma who_letter_only c :
  who_of_char c <> None -> op_of_char c = None /\ c <> wc "," /\ c <> 0.
Proof.
  unfold op_of_char, who_of_char.
  letter_tests; intros H; repeat split; try discriminate;
    exfalso; now apply H.
Qed.

Lemma perm_letter_only c :
  perm_of_char c <> None ->
  ref_of_char c = None /\ op_of_char c = None /\ c <> wc "," /\ c <> 0.
Proof.
  unfold op_of_char, perm_of_char, ref_of_char.
  letter_tests; intros H; repeat split; try discriminate;
    exfalso; now apply H.
Qed.

Lemma ref_letter_only c :
  ref_of_char c <> None ->
  perm_of_char c = None /\ op_of_char c = None /\ c <> wc "," /\ c <> 0.
Proof.
  unfold op_of_char, perm_of_char, ref_of_char.
  letter_tests; intros H; repeat split; try discriminate;
    exfalso; now apply H.
Qed.

(** *** The grammar, read from the left *)

Lemma is_groups_head gs :
  is_groups gs ->
  exists c perms refs y,
    op_of_char c <> None /\ all_letters perm_of_char perms /\
    all_letters ref_of_char refs /\ (y = [] \/ is_groups y) /\
    gs = c :: perms ++ refs ++ y.
Proof.
  intros [g Hg|g gs' Hg Hgs]; destruct Hg as [c perms refs Hc Hp Hr];
    exists c, perms, refs.
  - exists []. rewrite app_nil_r. repeat split; auto.
  - exists gs'. cbn [app]. rewrite <- app_assoc. repeat split; auto.
Qed.

Lemma is_groups_operator gs r :
  is_groups gs -> op_of_char (hd 0 (gs ++ r)) <> None.
Proof.
  intros Hgs.
  destruct (is_groups_head gs Hgs) as (c & ? & ? & ? & Hc & _ & _ & _ & ->).
  exact Hc.
Qed.

Lemma after_group_head x :
  after_group x ->
  x = [] \/ (exists m, is_mode m /\ x = wc "," :: m)
  \/ (op_of_char (hd 0 x) <> None /\
      accepted_from PARSE_MODE_ACTION_OP_STATE x).
Proof.
  intros [[->|(m & Hm & ->)]|(gs & r & Hgs & Hr & ->)]; eauto.
  right. right. split.
  - now apply is_groups_operator.
  - exists gs, r. auto.
Qed.

(** What follows a group starts with no permission or reference letter. *)
Lemma after_group_no_letter x :
  after_group x ->
  perm_of_char (hd 0 x) = None /\ ref_of_char (hd 0 x) = None.
Proof.
  intros H.
  destruct (after_group_head x H) as [->|[(m & _ & ->)|[Hc _]]].
  - split; reflexivity.
  - split; reflexivity.
  - apply operator_only in Hc. tauto.
Qed.

Lemma accepted_from_OP_form x :
  accepted_from PARSE_MODE_ACTION_OP_STATE x <->
  exists c perms refs y,
    op_of_char c <> None /\ all_letters perm_of_char perms /\
    all_letters ref_of_char refs /\ after_group y /\
    x = c :: perms ++ refs ++ y.
Proof.
  split.
  - intros (gs & r & Hgs & Hr & ->).
    destruct (is_groups_head gs Hgs)
      as (c & perms & refs & y & Hc & Hp & Hf & Hy & ->).
    exists c, perms, refs, (y ++ r). repeat split; try assumption.
    + destruct Hy as [->|Hy]; [left; exact Hr|].
      right. exists y, r. auto.
    + cbn [app]. now rewrite <- !app_assoc.
  - intros (c & perms & refs & y & Hc & Hp & Hf & Hy & ->).
    assert (Hg : is_group (c :: perms ++ refs)) by now constructor.
    destruct Hy as [Hr|(gs & r & Hgs & Hr & ->)].
    + exists (c :: perms ++ refs), y. repeat split; try assumption.
      * now constructor.
      * cbn [app]. now rewrite <- app_assoc.
    + exists ((c :: perms ++ refs) ++ gs), r. repeat split; try assumption.
      * now constructor.
      * cbn [app]. now rewrite <- !app_assoc.
Qed.

Lemma accepted_from_WHO_mode x :
  accepted_from PARSE_MODE_ACTION_WHO_STATE x <-> is_mode x.
Proof.
  split.
  - intros (whos & gs & r & Hw & Hgs & Hr & ->).
    assert (Hc : is_clause (whos ++ gs)) by (exists whos, gs; auto).
    destruct Hr as [->|(m & Hm & ->)].
    + rewrite app_nil_r. now constructor.
    + rewrite app_assoc. now constructor.
  - intros [c (whos & gs & Hw & Hgs & ->)
           |c m (whos & gs & Hw & Hgs & ->) Hm].
    + exists whos, gs, []. rewrite app_nil_r. repeat split; auto.
      now left.
    + exists whos, gs, (wc "," :: m). rewrite <- app_assoc.
      repeat split; auto. right. eauto.
Qed.

(** *** The grammar as the transitions of the loop *)

Lemma accepted_from_WHO_step x :
  accepted_from PARSE_MODE_ACTION_WHO_STATE x <->
  match who_of_char (hd 0 x) with
  | Some _ => accepted_from PARSE_MODE_ACTION_WHO_STATE (tl x)
  | None => accepted_from PARSE_MODE_ACTION_OP_STATE x
  end.
Proof.
  split.
  - intros (whos & gs & r & Hw & Hgs & Hr & ->).
    destruct whos as [|c whos].
    + cbn [app].
      pose proof (is_groups_operator gs r Hgs) as Hc.
      apply operator_only in Hc. destruct Hc as [-> _].
      exists gs, r. auto.
    + apply Forall_cons_iff in Hw. destruct Hw as [Hc Hw].
      cbn [app hd tl].
      destruct (who_of_char c); [|contradiction].
      exists whos, gs, r. auto.
  - destruct x as [|c x]; cbn [hd tl].
    + change (who_of_char 0) with (@None USHORT).
      intros (gs & r & Hgs & Hr & E). exists [], gs, r.
      repeat split; auto. constructor.
    + destruct (who_of_char c) eqn:Ec.
      * intros (whos & gs & r & Hw & Hgs & Hr & ->).
        exists (c :: whos), gs, r. repeat split; auto.
        constructor; [congruence | exact Hw].
      * intros (gs & r & Hgs & Hr & E). exists [], gs, r.
        repeat split; auto. constructor.
Qed.

Lemma accepted_from_OP_step x :
  accepted_from PARSE_MODE_ACTION_OP_STATE x <->
  op_of_char (hd 0 x) <> None /\
  accepted_from PARSE_MODE_ACTION_PERM_STATE (tl x).
Proof.
  rewrite accepted_from_OP_form. split.
  - intros (c & perms & refs & y & Hc & Hp & Hf & Hy & ->).
    cbn [hd tl]. split; [exact Hc|]. exists perms, refs, y. auto.
  - intros [Hc (perms & refs & y & Hp & Hf & Hy & E)].
    destruct x as [|c x]; [now destruct Hc|].
    cbn [hd tl] in *. subst x. exists c, perms, refs, y. auto.
Qed.

Lemma accepted_from_PERM_step x :
  accepted_from PARSE_MODE_ACTION_PERM_STATE x <->
  match perm_of_char (hd 0 x) with
  | Some _ => accepted_from PARSE_MODE_ACTION_PERM_STATE (tl x)
  | None => accepted_from PARSE_MODE_ACTION_REF_STATE x
  end.
Proof.
  split.
  - intros (perms & refs & y & Hp & Hf & Hy & ->).
    destruct perms as [|c perms].
    + cbn [app].
      assert (E : perm_of_char (hd 0 (refs ++ y)) = None).
      { destruct refs as [|c refs]; cbn [app hd].
        - now apply after_group_no_letter.
        - apply Forall_cons_iff in Hf. destruct Hf as [Hc _].
          apply ref_letter_only in Hc. tauto. }
      rewrite E. exists refs, y. auto.
    + apply Forall_cons_iff in Hp. destruct Hp as [Hc Hp].
      cbn [app hd tl].
      destruct (perm_of_char c); [|contradiction].
      exists perms, refs, y. auto.
  - destruct x as [|c x]; cbn [hd tl].
    + change (perm_of_char 0) with (@None USHORT).
      intros (refs & y & Hf & Hy & E). exists [], refs, y.
      repeat split; auto. constructor.
    + destruct (perm_of_char c) eqn:Ec.
      * intros (perms & refs & y & Hp & Hf & Hy & ->).
        exists (c :: perms), refs, y. repeat split; auto.
        constructor; [congruence | exact Hp].
      * intros (refs & y & Hf & Hy & E). exists [], refs, y.
        repeat split; auto. constructor.
Qed.

Lemma accepted_from_REF_step x :
  accepted_from PARSE_MODE_ACTION_REF_STATE x <->
  match ref_of_char (hd 0 x) with
  | Some _ => accepted_from PARSE_MODE_ACTION_REF_STATE (tl x)
  | None => accepted_from PARSE_MODE_ACTION_END_STATE x
  end.
Proof.
  split.
  - intros (refs & y & Hf & Hy & ->).
    destruct refs as [|c refs].
    + cbn [app].
      destruct (after_group_no_letter y Hy) as [_ E]. rewrite E. exact Hy.
    + apply Forall_cons_iff in Hf. destruct Hf as [Hc Hf].
      cbn [app hd tl].
      destruct (ref_of_char c); [|contradiction].
      exists refs, y. auto.
  - destruct x as [|c x]; cbn [hd tl].
    + change (ref_of_char 0) with (@None USHORT).
      intros Hy. exists [], []. repeat split; auto. constructor.
    + destruct (ref_of_char c) eqn:Ec.
      * intros (refs & y & Hf & Hy & ->).
        exists (c :: refs), y. repeat split; auto.
        constructor; [congruence | exact Hf].
      * intros Hy. exists [], (c :: x). repeat split; auto. constructor.
Qed.

Lemma accepted_from_END_step x :
  accepted_from PARSE_MODE_ACTION_END_STATE x <->
  x = [] \/
  (exists y, x = wc "," :: y /\ accepted_from PARSE_MODE_ACTION_WHO_STATE y)
  \/ (op_of_char (hd 0 x) <> None /\
      accepted_from PARSE_MODE_ACTION_WHO_STATE x).
Proof.
  cbn [accepted_from]. split.
  - intros H.
    destruct (after_group_head x H) as [->|[(m & Hm & ->)|[Hc Hop]]].
    + now left.
    + right. left. exists m. split; [reflexivity|].
      now apply accepted_from_WHO_mode.
    + right. right. split; [exact Hc|].
      apply accepted_from_WHO_step.
      apply operator_only in Hc. destruct Hc as [-> _]. exact Hop.
  - intros [->|[(y & -> & Hy)|[Hc Hw]]].
    + left. now left.
    + left. right. exists y. split; [|reflexivity].
      now apply accepted_from_WHO_mode.
    + apply accepted_from_WHO_step in Hw.
      pose proof (operator_only _ Hc) as [E _]. rewrite E in Hw.
      destruct Hw as (gs & r & Hgs & Hr & ->). right. exists gs, r. auto.
Qed.

(** *** The loop against the grammar *)

Lemma hd_skipn (t : list WCHAR) k : hd 0 (skipn k t) = wchar_at t k.
Proof.
  unfold wchar_at. revert k.
  induction t as [|c t IH]; intros [|k]; cbn; auto.
Qed.

Lemma tl_skipn (t : list WCHAR) k : tl (skipn k t) = skipn (S k) t.
Proof.
  revert k. induction t as [|c t IH]; intros [|k]; try reflexivity.
  apply (IH k).
Qed.

Lemma skipn_char (t : list WCHAR) k :
  wchar_at t k <> 0 ->
  (k < List.length t)%nat /\ skipn k t = wchar_at t k :: skipn (S k) t.
Proof.
  intros Hc. split.
  - destruct (Nat.lt_ge_cases k (List.length t)) as [H|H]; [exact H|].
    exfalso. apply Hc. unfold wchar_at. now apply nth_overflow.
  - rewrite <- hd_skipn, <- tl_skipn.
    destruct (skipn k t) as [|a x] eqn:E; [|reflexivity].
    exfalso. apply Hc. rewrite <- hd_skipn, E. reflexivity.
Qed.

Lemma skipn_terminator (t : list WCHAR) k :
  Forall (fun c => c <> 0) t -> wchar_at t k = 0 ->
  (List.length t <= k)%nat /\ skipn k t = [].
Proof.
  intros Hnz Hc.
  assert (H : (List.length t <= k)%nat).
  { destruct (Nat.lt_ge_cases k (List.length t)) as [H|H]; [|exact H].
    exfalso. rewrite Forall_forall in Hnz.
    apply (Hnz (wchar_at t k)); [|exact Hc].
    unfold wchar_at. now apply nth_In. }
  split; [exact H | now apply skipn_all2].
Qed.

Lemma wchar_at_wcs s : forall j,
  (j <= wcslen s)%nat -> wchar_at (wcs s) j = wchar_at s j.
Proof.
  unfold wchar_at.
  induction s as [|c s IH]; intros j Hj; [reflexivity|].
  cbn [wcs wcslen] in *. destruct (c =? 0) eqn:E.
  - apply Z.eqb_eq in E. subst c.
    assert (j = 0%nat) by lia. subst j. reflexivity.
  - destruct j as [|j]; [reflexivity|]. cbn [nth]. apply IH. lia.
Qed.

Section ParserGrammarFacts.

Variable alloc : Z -> bool.

Lemma ParseMode_loop_chars s s' len :
  (forall j, (j <= len)%nat -> wchar_at s j = wchar_at s' j) ->
  forall fuel l,
    ParseMode_loop alloc fuel s len l = ParseMode_loop alloc fuel s' len l.
Proof.
  intros Hchars.
  induction fuel as [|fuel IH]; intros l; [reflexivity|].
  rewrite !ParseMode_loop_S.
  destruct (len <? i l)%nat eqn:E; [reflexivity|].
  apply Nat.ltb_ge in E.
  rewrite (ParseMode_body_char alloc s s' l (Hchars _ E)).
  destruct (ParseMode_body alloc s' l); [apply IH | reflexivity].
Qed.

(** ParseMode reads the characters before the terminator only. *)
Lemma ParseMode_wcs s : ParseMode alloc (wcs s) = ParseMode alloc s.
Proof.
  unfold ParseMode, StringCchLengthW. rewrite wcslen_wcs.
  destruct (Z.of_nat (wcslen s) <? STRSAFE_MAX_CCH); [|reflexivity].
  rewrite (ParseMode_loop_chars (wcs s) s (wcslen s) (wchar_at_wcs s)).
  reflexivity.
Qed.

Hypothesis alloc_ok : alloc sizeof_MODE_CHANGE_ACTION = true.

Variable t : list WCHAR.
Hypothesis t_nonzero : Forall (fun c => c <> 0) t.

(** Where the loop is, it returns TRUE exactly when the rest of the string
    is one that can follow. *)
Lemma ParseMode_loop_accepts fuel : forall l r,
  (i l <= List.length t)%nat ->
  ParseMode_loop alloc fuel t (List.length t) l = Some r ->
  (r <> None <-> accepted_from (state l) (skipn (i l) t)).
Proof.
  induction fuel as [|fuel IH]; intros l r Hi.
  { rewrite ParseMode_loop_O.
    replace (List.length t <? i l)%nat with false
      by (symmetry; apply Nat.ltb_ge; lia).
    discriminate. }
  rewrite ParseMode_loop_S.
  replace (List.length t <? i l)%nat with false
    by (symmetry; apply Nat.ltb_ge; lia).
  pose proof (hd_skipn t (i l)) as Hhd.
  pose proof (tl_skipn t (i l)) as Htl.
  pose proof (skipn_char t (i l)) as Hchar.
  pose proof (skipn_terminator t (i l) t_nonzero) as Hterm.
  set (c := wchar_at t (i l)) in *.
  set (x := skipn (i l) t) in *.
  destruct (state l) eqn:Hs.
  - rewrite ParseMode_body_WHO by assumption. fold c.
    rewrite accepted_from_WHO_step, Hhd, Htl.
    destruct (who_of_char c) as [w|] eqn:Ec; intros H.
    + apply IH in H; [exact H|]. cbn [i].
      assert (Hc : c <> 0) by (intros E; rewrite E in Ec; discriminate).
      apply Hchar in Hc. lia.
    + apply IH in H; [exact H | exact Hi].
  - rewrite ParseMode_body_OP by assumption. fold c.
    rewrite accepted_from_OP_step, Hhd, Htl.
    destruct (op_of_char c) as [o|] eqn:Ec; intros H.
    + apply IH in H.
      * cbn [state i] in H. rewrite H. split; [|tauto].
        intros Hx. split; [discriminate | exact Hx].
      * cbn [i].
        assert (Hc : c <> 0) by (intros E; rewrite E in Ec; discriminate).
        apply Hchar in Hc. lia.
    + injection H as <-. split; [congruence | tauto].
  - rewrite ParseMode_body_PERM by assumption. fold c.
    rewrite accepted_from_PERM_step, Hhd, Htl.
    destruct (perm_of_char c) as [p|] eqn:Ec; intros H.
    + apply IH in H; [exact H|]. cbn [i].
      assert (Hc : c <> 0) by (intros E; rewrite E in Ec; discriminate).
      apply Hchar in Hc. lia.
    + apply IH in H; [exact H | exact Hi].
  - rewrite ParseMode_body_REF by assumption. fold c.
    rewrite accepted_from_REF_step, Hhd, Htl.
    destruct (ref_of_char c) as [p|] eqn:Ec; intros H.
    + apply IH in H; [exact H|]. cbn [i].
      assert (Hc : c <> 0) by (intros E; rewrite E in Ec; discriminate).
      apply Hchar in Hc. lia.
    + apply IH in H; [exact H | exact Hi].
  - rewrite ParseMode_body_END by assumption. cbv zeta. fold c.
    rewrite alloc_ok, accepted_from_END_step, Hhd.
    destruct (c =? wc ",") eqn:Ec.
    { apply Z.eqb_eq in Ec.
      assert (Hc : c <> 0) by (rewrite Ec; discriminate).
      apply Hchar in Hc. destruct Hc as [Hlt Hx].
      intros H. apply IH in H; [|cbn [i]; lia]. cbn [state i] in H.
      rewrite H, Hx, Ec. split.
      - intros Hy. right. left. eexists. split; [reflexivity | exact Hy].
      - intros [E|[(y & E & Hy)|[Ho _]]].
        + discriminate E.
        + injection E as <-. exact Hy.
        + now destruct Ho. }
    destruct (c =? 0) eqn:E0.
    { apply Z.eqb_eq in E0. destruct (Hterm E0) as [Hlen Hx].
      rewrite ParseMode_loop_done by (cbn [i]; lia).
      intros H. injection H as <-. split; [now left | discriminate]. }
    apply Z.eqb_neq in Ec, E0.
    destruct (Hchar E0) as [Hlt Hx].
    destruct (op_of_char c) as [o|] eqn:Eo; intros H.
    + apply IH in H; [|exact Hi]. cbn [state i] in H. fold x in H.
      rewrite H. split.
      * intros Hy. right. right. split; [discriminate | exact Hy].
      * intros [E|[(y & E & Hy)|[_ Hy]]].
        -- rewrite Hx in E. discriminate E.
        -- rewrite Hx in E. injection E as E _. contradiction.
        -- exact Hy.
    + injection H as <-. split; [congruence|].
      intros [E|[(y & E & Hy)|[Ho _]]].
      * rewrite Hx in E. discriminate E.
      * rewrite Hx in E. injection E as E _. contradiction.
      * now destruct Ho.
Qed.

End ParserGrammarFacts.

(** X18.  ParseMode accepts exactly the strings of the grammar: clauses
    separated by commas, each of them who letters followed by one group or
    more of an operator, permission letters and reference letters, in this
    order. *)
Theorem X18_accepted_language :
  forall (alloc : Z -> bool) (s : LPCWSTR),
    alloc sizeof_MODE_CHANGE_ACTION = true ->
    Z.of_nat (wcslen s) < STRSAFE_MAX_CCH ->
    ((exists acts, ParseMode alloc s = Some acts) <-> is_mode (wcs s)).
Proof.
  intros alloc s Halloc Hmax.
  rewrite <- ParseMode_wcs.
  assert (Hnz : Forall (fun c => c <> 0) (wcs s)) by apply wcs_nonzero.
  assert (Hlen : wcslen (wcs s) = List.length (wcs s))
    by now apply wcslen_all_nonzero.
  assert (Hl : StringCchLengthW (wcs s) STRSAFE_MAX_CCH
               = Some (List.length (wcs s))).
  { unfold StringCchLengthW. rewrite Hlen.
    rewrite <- (wcslen_wcs s), Hlen in Hmax.
    apply Z.ltb_lt in Hmax. now rewrite Hmax. }
  destruct (ParseMode_loop alloc (ParseMode_fuel (List.length (wcs s)))
              (wcs s) (List.length (wcs s)) ParseMode_init) as [r|] eqn:E;
    [|now apply ParseMode_fuel_enough in E].
  rewrite (ParseMode_by_loop alloc _ _ _ r Hl E).
  pose proof (ParseMode_loop_accepts alloc Halloc (wcs s) Hnz _
                ParseMode_init r ltac:(cbn; lia) E) as H.
  cbn [state i ParseMode_init skipn] in H.
  rewrite <- accepted_from_WHO_mode, <- H.
  destruct r as [acts|].
  - split; [discriminate | eauto].
  - split; [intros [acts Ha]; discriminate Ha | congruence].
Qed.

Lemma X18_witness :
  (exists acts, ParseMode (fun _ => true) (L "ug+rX-w,o=g") = Some acts)
  <-> is_mode (wcs (L "ug+rX-w,o=g")).
Proof.
  apply (X18_accepted_language (fun _ => true) (L "ug+rX-w,o=g")).
  - reflexivity.
  - vm_compute. reflexivity.
Defined.

(** ** ParseMode and ComputeNewMode together *)

Lemma operators_of_firstn_S s : forall k,
  operators_of (firstn (S k) s)
  = operators_of (firstn k s)
    ++ match op_of_char (wchar_at s k) with
       | Some o => [o]
       | None => []
       end.
Proof.
  unfold operators_of, wchar_at.
  induction s as [|c s IH]; intros k.
  - rewrite !firstn_nil. destruct k; reflexivity.
  - destruct k as [|k].
    + cbn. now rewrite app_nil_r.
    + change (firstn (S (S k)) (c :: s)) with (c :: firstn (S k) s).
      change (firstn (S k) (c :: s)) with (c :: firstn k s).
      cbn [flat_map nth]. rewrite IH, app_assoc. reflexivity.
Qed.

Lemma operators_of_in s o :
  In o (operators_of s) -> exists c, In c s /\ op_of_char c = Some o.
Proof.
  unfold operators_of. rewrite in_flat_map.
  intros (c & Hc & Ho). exists c. split; [exact Hc|].
  destruct (op_of_char c) as [o'|]; [|contradiction].
  destruct Ho as [->|[]]. reflexivity.
Qed.

Lemma op_of_char_equal c :
  op_of_char c = Some CHMOD_OP_EQUAL -> c = wc "=".
Proof.
  unfold op_of_char. letter_tests; try discriminate. reflexivity.
Qed.

Lemma op_of_char_valid c : op_of_char c <> Some CHMOD_OP_INVALID.
Proof. unfold op_of_char. letter_tests; discriminate. Qed.

Section ParserOperatorFacts.

Variable alloc : Z -> bool.

Lemma op_finalized a : op (finalized a) = op a.
Proof. unfold finalized. destruct (who a =? CHMOD_WHO_NONE); reflexivity. Qed.

(** The operators of the stored actions, and of the one that is read once
    its operator is taken, are the operators that were read. *)
Lemma ParseMode_body_operators s l l' :
  map op (actions l)
  ++ (if past_operator (state l) then [op (action l)] else [])
  = operators_of (firstn (i l) s) ->
  ParseMode_body alloc s l = Continue l' ->
  map op (actions l')
  ++ (if past_operator (state l') then [op (action l')] else [])
  = operators_of (firstn (i l') s).
Proof.
  intros J.
  destruct (state l) eqn:Hs; cbn [past_operator] in J.
  - rewrite ParseMode_body_WHO by assumption.
    destruct (who_of_char _) as [w|] eqn:Ew;
      intros H; inversion H; subst; cbn [state actions i past_operator].
    + rewrite operators_of_firstn_S.
      apply who_letter_cases in Ew. destruct Ew as [_ Ew].
      rewrite Ew. rewrite !app_nil_r in *. exact J.
    + exact J.
  - rewrite ParseMode_body_OP by assumption.
    destruct (op_of_char _) as [o|] eqn:Eo; [|discriminate].
    intros H; inversion H; subst;
      cbn [state actions action i past_operator set_op op].
    rewrite operators_of_firstn_S, Eo. rewrite app_nil_r in J.
    now rewrite J.
  - rewrite ParseMode_body_PERM by assumption.
    destruct (perm_of_char _) as [p|] eqn:Ep;
      intros H; inversion H; subst;
      cbn [state actions action i past_operator set_perm op].
    + rewrite operators_of_firstn_S.
      apply perm_letter_cases in Ep. destruct Ep as [_ Ep].
      rewrite Ep, (app_nil_r (operators_of _)). exact J.
    + exact J.
  - rewrite ParseMode_body_REF by assumption.
    destruct (ref_of_char _) as [r|] eqn:Er;
      intros H; inversion H; subst;
      cbn [state actions action i past_operator set_ref op].
    + rewrite operators_of_firstn_S.
      apply ref_letter_cases in Er. destruct Er as [_ Er].
      rewrite Er, (app_nil_r (operators_of _)). exact J.
    + exact J.
  - rewrite ParseMode_body_END by assumption. cbv zeta.
    destruct (alloc sizeof_MODE_CHANGE_ACTION); [|discriminate].
    destruct (_ =? wc ",") eqn:Ec.
    { intros H; inversion H; subst; cbn [state actions i past_operator].
      rewrite operators_of_firstn_S, map_app.
      apply Z.eqb_eq in Ec. rewrite Ec.
      cbn [map]. rewrite op_finalized, J.
      change (op_of_char (wc ",")) with (@None CHMOD_OP).
      now rewrite !app_nil_r. }
    destruct (_ =? 0) eqn:E0.
    { intros H; inversion H; subst; cbn [state actions i past_operator].
      rewrite operators_of_firstn_S, map_app.
      apply Z.eqb_eq in E0. rewrite E0.
      cbn [map]. rewrite op_finalized, J.
      change (op_of_char 0) with (@None CHMOD_OP).
      now rewrite !app_nil_r. }
    destruct (op_of_char _); [|discriminate].
    intros H; inversion H; subst; cbn [state actions i past_operator].
    rewrite map_app. cbn [map]. rewrite op_finalized, app_nil_r. exact J.
Qed.

Lemma ParseMode_loop_operators fuel s : forall l acts,
  (i l <= wcslen s)%nat
  \/ (i l = S (wcslen s) /\ state l = PARSE_MODE_ACTION_WHO_STATE) ->
  map op (actions l)
  ++ (if past_operator (state l) then [op (action l)] else [])
  = operators_of (firstn (i l) s) ->
  ParseMode_loop alloc fuel s (wcslen s) l = Some (Some acts) ->
  map op acts = operators_of (wcs s).
Proof.
  assert (Hdone : forall l acts,
            (i l <= wcslen s)%nat
            \/ (i l = S (wcslen s)
                /\ state l = PARSE_MODE_ACTION_WHO_STATE) ->
            map op (actions l)
            ++ (if past_operator (state l) then [op (action l)] else [])
            = operators_of (firstn (i l) s) ->
            (wcslen s <? i l)%nat = true ->
            Some (Some (actions l)) = Some (Some acts) ->
            map op acts = operators_of (wcs s)).
  { intros l acts P J E H. injection H as <-.
    apply Nat.ltb_lt in E. destruct P as [P|[Pi Ps]]; [lia|].
    rewrite Pi, Ps, operators_of_firstn_S, firstn_wcslen,
      wchar_at_wcslen in J.
    cbn in J. now rewrite !app_nil_r in J. }
  induction fuel as [|fuel IH]; intros l acts P J.
  - rewrite ParseMode_loop_O.
    destruct (wcslen s <? i l)%nat eqn:E; [|discriminate].
    now apply Hdone.
  - rewrite ParseMode_loop_S.
    destruct (wcslen s <? i l)%nat eqn:E; [now apply Hdone|].
    apply Nat.ltb_ge in E.
    destruct (ParseMode_body alloc s l) as [l'|] eqn:Hb; [|discriminate].
    apply IH.
    + eapply ParseMode_body_position; eassumption.
    + eapply ParseMode_body_operators; eassumption.
Qed.

Lemma ParseMode_operators s acts :
  ParseMode alloc s = Some acts -> map op acts = operators_of (wcs s).
Proof.
  unfold ParseMode, StringCchLengthW.
  destruct (Z.of_nat (wcslen s) <? STRSAFE_MAX_CCH); [|discriminate].
  destruct (ParseMode_loop alloc _ s (wcslen s) ParseMode_init)
    as [r|] eqn:E; [|discriminate].
  intros ->. eapply ParseMode_loop_operators; [| |exact E].
  - left. cbn. lia.
  - reflexivity.
Qed.

Lemma ParseMode_well_formed s acts :
  ParseMode alloc s = Some acts -> Forall well_formed_action acts.
Proof.
  unfold ParseMode.
  destruct (StringCchLengthW s STRSAFE_MAX_CCH) as [len|]; [|discriminate].
  destruct (ParseMode_loop alloc _ s len ParseMode_init) as [r|] eqn:E;
    [|discriminate].
  intros ->. eapply ParseMode_loop_well_formed; [| | |exact E].
  - constructor.
  - cbn. repeat split. auto.
  - discriminate.
Qed.

(** Without the character '=' every action adds or removes. *)
Lemma ParseMode_plus_minus s acts :
  ParseMode alloc s = Some acts ->
  ~ In (wc "=") (wcs s) ->
  Forall (fun a => Z.land (who a) CHMOD_WHO_ALL = who a /\
                   (op a = CHMOD_OP_PLUS \/ op a = CHMOD_OP_MINUS)) acts.
Proof.
  intros H Hno.
  pose proof (ParseMode_well_formed s acts H) as Hwf.
  pose proof (ParseMode_operators s acts H) as Hops.
  rewrite Forall_forall in Hwf |- *. intros a Ha.
  destruct (Hwf a Ha) as (_ & _ & Hw & _). split; [exact Hw|].
  assert (Hin : In (op a) (operators_of (wcs s))).
  { rewrite <- Hops. now apply in_map. }
  apply operators_of_in in Hin. destruct Hin as (c & Hc & Ho).
  destruct (op a) eqn:E; auto.
  - now apply op_of_char_valid in Ho.
  - apply op_of_char_equal in Ho. subst c. contradiction.
Qed.

End ParserOperatorFacts.

(** X5.  A list that ParseMode returns has one action for each operator
    character of the string, with that operator, in the order of the
    string: a string without an operator is never accepted, and no operator
    is dropped or read twice. *)
Theorem X5_one_action_per_operator :
  forall (alloc : Z -> bool) (s : LPCWSTR) (acts : list MODE_CHANGE_ACTION),
    ParseMode alloc s = Some acts ->
    map op acts = operators_of (wcs s)
    /\ List.length acts = count_operators (wcs s)
    /\ (1 <= count_operators (wcs s))%nat.
Proof.
  intros alloc s acts H.
  assert (Hlen : List.length acts = count_operators (wcs s)).
  { revert H. unfold ParseMode, StringCchLengthW.
    destruct (Z.of_nat (wcslen s) <? STRSAFE_MAX_CCH); [|discriminate].
    destruct (ParseMode_loop alloc _ s (wcslen s) ParseMode_init)
      as [r|] eqn:E; [|discriminate].
    intros ->. eapply ParseMode_loop_count; [| |exact E].
    - left. cbn. lia.
    - reflexivity. }
  split; [now apply (ParseMode_operators alloc)|].
  split; [exact Hlen|].
  apply ParseMode_nonempty in H.
  destruct acts; [contradiction|]. cbn in Hlen. lia.
Qed.

Lemma X5_witness :
  map op
    [{| who := CHMOD_WHO_USER; op := CHMOD_OP_PLUS; perm := CHMOD_PERM_R;
        ref := CHMOD_WHO_NONE |};
     {| who := CHMOD_WHO_USER; op := CHMOD_OP_MINUS; perm := CHMOD_PERM_W;
        ref := CHMOD_WHO_NONE |}]
  = operators_of (wcs (L "u+r-w")).
Proof.
  refine (proj1 (X5_one_action_per_operator (fun _ => true) (L "u+r-w")
                   [{| who := CHMOD_WHO_USER; op := CHMOD_OP_PLUS;
                       perm := CHMOD_PERM_R; ref := CHMOD_WHO_NONE |};
                    {| who := CHMOD_WHO_USER; op := CHMOD_OP_MINUS;
                       perm := CHMOD_PERM_W; ref := CHMOD_WHO_NONE |}] _)).
  vm_compute. reflexivity.
Defined.

Lemma apply_actions_above_permissions UX_DIRECTORY acts : forall m,
  Forall (fun a => Z.land (who a) CHMOD_WHO_ALL = who a /\
                   (op a = CHMOD_OP_PLUS \/ op a = CHMOD_OP_MINUS)) acts ->
  0 <= m < 65536 ->
  0 <= apply_actions UX_DIRECTORY acts m < 65536 /\
  Z.land (apply_actions UX_DIRECTORY acts m) (Z.lnot CHMOD_WHO_ALL)
  = Z.land m (Z.lnot CHMOD_WHO_ALL).
Proof.
  unfold apply_actions.
  induction acts as [|a acts IH]; intros m Hall Hm.
  - split; [exact Hm | reflexivity].
  - apply Forall_cons_iff in Hall. destruct Hall as [[Hw Ho] Hall].
    cbn [fold_left].
    destruct (ComputeNewMode_above_permissions UX_DIRECTORY m (who a) (op a)
                (perm a) (ref a) Hm Hw Ho) as [Hr Hk].
    destruct (IH _ Hall Hr) as [Hr' Hk'].
    split; [exact Hr' | now rewrite Hk'].
Qed.

(** X19.  A symbolic mode without the operator '=' changes nothing but the
    nine permission bits: the mode that ConvertActionsToMask computes has
    the directory flag, and every other bit above the nine, as the mode
    that was read has them. *)
Theorem X19_plus_minus_keep_flags :
  forall (UX_DIRECTORY : USHORT) (env : NativeEnv) (alloc : Z -> bool)
         (s path : LPCWSTR) (acts : list MODE_CHANGE_ACTION)
         (fileInfo : BY_HANDLE_FILE_INFORMATION) (m : USHORT),
    ParseMode alloc s = Some acts ->
    ~ In (wc "=") (wcs s) ->
    GetFileInformationByName env path = Some fileInfo ->
    FindFileOwnerAndPermission env path
      (if IsDirFileInfo fileInfo then Z.lor 0 UX_DIRECTORY else 0) = Some m ->
    0 <= m < 65536 ->
    exists m',
      result (ConvertActionsToMask UX_DIRECTORY env path acts) = Some m' /\
      0 <= m' < 65536 /\
      Z.land m' (Z.lnot CHMOD_WHO_ALL) = Z.land m (Z.lnot CHMOD_WHO_ALL).
Proof.
  intros UXD env alloc s path acts fileInfo m Hparse Hno Hinfo Hperm Hm.
  exists (apply_actions UXD acts m). split.
  - unfold ConvertActionsToMask, result, bind, call_opt, ret.
    cbn [fst snd]. rewrite Hinfo. cbv zeta. cbn [fst snd].
    match goal with
    | |- fst match ?a with Some _ => _ | None => _ end = _ =>
        replace a with (Some m) by (symmetry; exact Hperm)
    end.
    reflexivity.
  - apply apply_actions_above_permissions; [|exact Hm].
    now apply (ParseMode_plus_minus alloc s).
Qed.

Lemma X19_witness :
  exists m',
    result (ConvertActionsToMask example_UX_DIRECTORY example_env (L "d")
              [{| who := CHMOD_WHO_ALL; op := CHMOD_OP_MINUS;
                  perm := CHMOD_PERM_W; ref := CHMOD_WHO_NONE |}])
    = Some m' /\
    0 <= m' < 65536 /\
    Z.land m' (Z.lnot CHMOD_WHO_ALL)
    = Z.land (Z.lor example_UX_DIRECTORY 420) (Z.lnot CHMOD_WHO_ALL).
Proof.
  refine (X19_plus_minus_keep_flags example_UX_DIRECTORY example_env
            (fun _ => true) (L "a-w") (L "d") _
            {| dwFileAttributes := FILE_ATTRIBUTE_DIRECTORY |}
            (Z.lor example_UX_DIRECTORY 420) _ _ _ _ _).
  - vm_compute. reflexivity.
  - cbn. intros [H|[H|[H|H]]]; try discriminate H. exact H.
  - vm_compute. reflexivity.
  - vm_compute. reflexivity.
  - vm_compute. split; [discriminate | reflexivity].
Defined.

(** ** Chmod: the exit code *)

Section ChmodExitFacts.

Variable UX_DIRECTORY : USHORT.
Variable WinMasks : WindowsAclMask -> ACCESS_MASK.
Variable env : NativeEnv.

(** The path that the walk was called on is the last one rewritten when the
    walk succeeds, and is not rewritten when it fails. *)
Lemma ChangeFileModeRecursively_root path mode actions :
  let run :=
    ChangeFileModeRecursively UX_DIRECTORY WinMasks env path mode actions in
  (result run = true -> exists front, applied (calls run) = front ++ [path])
  /\ (result run = false -> ~ In path (applied (calls run))).
Proof.
  intros run.
  pose proof (ChangeFileModeRecursively_fuel_total UX_DIRECTORY WinMasks env
                mode actions (Z.to_nat MAX_PATH) path) as Htotal.
  pose proof (ChangeFileModeRecursively_fuel_applied UX_DIRECTORY WinMasks
                env mode actions (Z.to_nat MAX_PATH) path) as [Hok Hfail].
  assert (Hsome : result (ChangeFileModeRecursively_fuel UX_DIRECTORY
                            WinMasks env (Z.to_nat MAX_PATH) path mode
                            actions) <> None).
  { apply Htotal; change (Z.to_nat MAX_PATH) with 260%nat;
      change (Z.to_nat (MAX_PATH - 3)) with 257%nat; lia. }
  unfold run, ChangeFileModeRecursively.
  rewrite !result_bind, calls_bind.
  cbn [ret result calls fst snd]. rewrite app_nil_r.
  destruct (result (ChangeFileModeRecursively_fuel UX_DIRECTORY WinMasks env
                      (Z.to_nat MAX_PATH) path mode actions))
    as [[|]|] eqn:Er; [| |contradiction].
  - split; [|discriminate]. intros _. rewrite (Hok eq_refl).
    apply postorder_ends.
  - split; [discriminate|]. intros _.
    destruct (Hfail eq_refl) as [rest Hrest].
    eapply not_applied_to_parent. exact Hrest.
Qed.

(** ParseCommandLineArguments changes nothing, and the path it stores is
    the last argument. *)
Lemma ParseCommandLineArguments_path argv :
  applied (calls (ParseCommandLineArguments env argv)) = [] /\
  forall cl,
    result (ParseCommandLineArguments env argv) = Some cl ->
    cl_path cl = last argv [].
Proof.
  unfold ParseCommandLineArguments.
  destruct argv as [|a0 [|a1 [|a2 [|a3 [|a4 rest]]]]];
    try (split; [reflexivity | discriminate]).
  - split; [reflexivity|]. cbn [ret result fst].
    destruct (ParseOctalMode a1);
      [|destruct (ParseMode (LocalAlloc env) a1); [|discriminate]];
      intros cl H; injection H as <-; reflexivity.
  - destruct (wcs_eqb a1 (L "-R")); [|split; [reflexivity | discriminate]].
    unfold bind, call_opt, ret, result, calls. cbn [fst snd].
    destruct (GetFileInformationByName env a3) as [fileInfo|];
      cbn [fst snd]; [|split; [reflexivity | discriminate]].
    split; [reflexivity|].
    destruct (ParseOctalMode a2);
      [|destruct (ParseMode (LocalAlloc env) a2); [|discriminate]];
      intros cl H; injection H as <-; reflexivity.
Qed.

End ChmodExitFacts.

(** X21.  Chmod returns EXIT_SUCCESS exactly when it has rewritten the
    security of the path it was given, and then this was the last thing it
    rewrote; when it fails the path itself is as it was, whatever was
    rewritten below it. *)
Theorem X21_exit_code_tells_the_path :
  forall (UX_DIRECTORY : USHORT) (WinMasks : WindowsAclMask -> ACCESS_MASK)
         (env : NativeEnv) (argv : list LPCWSTR),
    let run := Chmod UX_DIRECTORY WinMasks env argv in
    (result run = EXIT_SUCCESS \/ result run = EXIT_FAILURE) /\
    (result run = EXIT_SUCCESS <->
     exists longPath front,
       ConvertToLongPath env (last argv []) = Some longPath /\
       applied (calls run) = front ++ [longPath]) /\
    (result run = EXIT_FAILURE ->
     forall longPath,
       ConvertToLongPath env (last argv []) = Some longPath ->
       ~ In longPath (applied (calls run))).
Proof.
  intros UXD WM env argv run.
  assert (Hmain :
    (result run = EXIT_SUCCESS /\
     exists longPath front,
       ConvertToLongPath env (last argv []) = Some longPath /\
       applied (calls run) = front ++ [longPath]) \/
    (result run = EXIT_FAILURE /\
     forall longPath,
       ConvertToLongPath env (last argv []) = Some longPath ->
       ~ In longPath (applied (calls run)))).
  { unfold run, Chmod.
    destruct (ParseCommandLineArguments_path env argv) as [Hnone Hpath].
    rewrite result_bind, calls_bind, applied_app, Hnone. cbn [app].
    destruct (result (ParseCommandLineArguments env argv)) as [cl|];
      [|right; split; [reflexivity | intros lp _ []]].
    rewrite (Hpath cl eq_refl).
    rewrite result_bind, calls_bind, applied_app.
    cbn [call_opt result calls fst snd applied flat_map app].
    destruct (ConvertToLongPath env (last argv [])) as [longPathName|];
      [|right; split; [reflexivity | discriminate]].
    destruct (rec cl); cbn [negb].
    - rewrite result_bind, calls_bind, applied_app.
      cbn [ret result calls fst snd applied flat_map]. rewrite app_nil_r.
      destruct (ChangeFileModeRecursively_root UXD WM env longPathName
                  (mask cl) (cl_actions cl)) as [Hok Hfail].
      destruct (result (ChangeFileModeRecursively UXD WM env longPathName
                          (mask cl) (cl_actions cl))).
      + left. split; [reflexivity|].
        destruct (Hok eq_refl) as [front Hfront].
        exists longPathName, front. split; [reflexivity | exact Hfront].
      + right. split; [reflexivity|].
        intros lp H. injection H as <-. now apply Hfail.
    - rewrite result_bind, calls_bind, applied_app, ChangeFileMode_applied.
      cbn [ret result calls fst snd applied flat_map]. rewrite app_nil_r.
      destruct (result (ChangeFileMode UXD WM env longPathName (mask cl)
                          (cl_actions cl))).
      + left. split; [reflexivity|].
        exists longPathName, []. split; reflexivity.
      + right. split; [reflexivity | intros lp _ []]. }
  split; [|split].
  - destruct Hmain as [[H _]|[H _]]; auto.
  - split.
    + intros Hs. destruct Hmain as [[_ H]|[Hf _]]; [exact H|].
      rewrite Hs in Hf. discriminate Hf.
    + intros (lp & front & Hlp & Happ).
      destruct Hmain as [[H _]|[_ Hf]]; [exact H|].
      exfalso. apply (Hf lp Hlp). rewrite Happ.
      apply in_or_app. right. now left.
  - intros Hf. destruct Hmain as [[Hs _]|[_ H]]; [|exact H].
    rewrite Hf in Hs. discriminate Hs.
Qed.

Lemma X21_witness :
  ~ In (L "f")
      (applied (calls (Chmod example_UX_DIRECTORY example_WinMasks
                         example_env [L "chmod"; L "u+q"; L "f"]))).
Proof.
  refine (proj2 (proj2 (X21_exit_code_tells_the_path example_UX_DIRECTORY
                          example_WinMasks example_env
                          [L "chmod"; L "u+q"; L "f"])) _ (L "f") _).
  - vm_compute. reflexivity.
  - vm_compute. reflexivity.
Defined.

(** ** ChangeFileModeByActions: what it calls *)

(** X22.  When ChangeFileModeByActions returns TRUE it has issued four calls
    on the path, in this order: the query for its kind, the query for its
    mode, the reading of its security, and the writing of the ACL of the
    mode that the actions make of the mode read, for the owner and the
    group read. *)
Theorem X22_by_actions_calls :
  forall (UX_DIRECTORY : USHORT) (WinMasks : WindowsAclMask -> ACCESS_MASK)
         (env : NativeEnv) (path : LPCWSTR)
         (actions : list MODE_CHANGE_ACTION),
    result (ChangeFileModeByActions UX_DIRECTORY WinMasks env path actions)
    = true ->
    exists fileInfo m owner group sd,
      GetFileInformationByName env path = Some fileInfo /\
      FindFileOwnerAndPermission env path
        (if IsDirFileInfo fileInfo then Z.lor 0 UX_DIRECTORY else 0)
      = Some m /\
      GetNamedSecurityInfoW env path = Some (owner, group, sd) /\
      calls (ChangeFileModeByActions UX_DIRECTORY WinMasks env path actions)
      = [(Call_GetFileInformationByName path, true);
         (Call_FindFileOwnerAndPermission path, true);
         (Call_GetNamedSecurityInfoW path, true);
         (Call_SetFileSecurity path
            (expected_acl
               (GetWindowsAccessMask WinMasks
                  (apply_actions UX_DIRECTORY actions m))
               owner group),
          true)].
Proof.
  intros UXD WM env path actions.
  unfold ChangeFileModeByActions.
  rewrite result_bind, calls_bind.
  unfold ConvertActionsToMask at 1 2 3.
  unfold bind at 1 3 5, call_opt at 1 2 3, ret, result at 2 3, calls at 2.
  cbn [fst snd].
  destruct (GetFileInformationByName env path) as [fileInfo|];
    [|discriminate].
  cbv zeta. unfold bind, call_opt, result, calls. cbn [fst snd].
  destruct (FindFileOwnerAndPermission env path _) as [m|] eqn:Em;
    [|discriminate].
  cbn [fst snd app]. fold (apply_actions UXD actions m).
  intros Hr.
  destruct (ChangeFileModeByMask_calls WM env path
              (apply_actions UXD actions m))
    as [(o & g & sd & dacl & Hinfo & Hdacl & Hcalls)|[Hfalse _]].
  - exists fileInfo, m, o, g, sd.
    split; [reflexivity|]. split; [exact Em|]. split; [exact Hinfo|].
    unfold calls, result in Hcalls, Hr. rewrite Hcalls, Hr.
    now rewrite (GetWindowsDACLs_result _ _ _ _ _ _ Hdacl).
  - unfold result in Hfalse, Hr. rewrite Hr in Hfalse. discriminate Hfalse.
Qed.

Lemma X22_witness :
  exists fileInfo m owner group sd,
    GetFileInformationByName example_env (L "f") = Some fileInfo /\
    FindFileOwnerAndPermission example_env (L "f")
      (if IsDirFileInfo fileInfo then Z.lor 0 example_UX_DIRECTORY else 0)
    = Some m /\
    GetNamedSecurityInfoW example_env (L "f") = Some (owner, group, sd) /\
    calls (ChangeFileModeByActions example_UX_DIRECTORY example_WinMasks
             example_env (L "f")
             [{| who := CHMOD_WHO_USER; op := CHMOD_OP_PLUS;
                 perm := CHMOD_PERM_X; ref := CHMOD_WHO_NONE |}])
    = [(Call_GetFileInformationByName (L "f"), true);
       (Call_FindFileOwnerAndPermission (L "f"), true);
       (Call_GetNamedSecurityInfoW (L "f"), true);
       (Call_SetFileSecurity (L "f")
          (expected_acl
             (GetWindowsAccessMask example_WinMasks
                (apply_actions example_UX_DIRECTORY
                   [{| who := CHMOD_WHO_USER; op := CHMOD_OP_PLUS;
                       perm := CHMOD_PERM_X; ref := CHMOD_WHO_NONE |}] m))
             owner group),
        true)].
Proof.
  refine (X22_by_actions_calls example_UX_DIRECTORY example_WinMasks
            example_env (L "f")
            [{| who := CHMOD_WHO_USER; op := CHMOD_OP_PLUS;
                perm := CHMOD_PERM_X; ref := CHMOD_WHO_NONE |}] _).
  vm_compute. reflexivity.
Defined.

(** ** ParseMode: the actions of a mode string *)

Lemma suffix_cons (s : list WCHAR) k c x :
  skipn k s = c :: x ->
  wchar_at s k = c /\ skipn (S k) s = x /\ (S k <= List.length s)%nat.
Proof.
  intros H. split; [|split].
  - rewrite <- hd_skipn, H. reflexivity.
  - rewrite <- tl_skipn, H. reflexivity.
  - destruct (Nat.lt_ge_cases k (List.length s)) as [Hk|Hk]; [exact Hk|].
    rewrite skipn_all2 in H by exact Hk. discriminate H.
Qed.

Lemma suffix_nil (s : list WCHAR) k :
  (k <= List.length s)%nat -> skipn k s = [] ->
  wchar_at s k = 0 /\ k = List.length s.
Proof.
  intros Hk H. split.
  - rewrite <- hd_skipn, H. reflexivity.
  - pose proof (length_skipn k s) as Hl. rewrite H in Hl. cbn in Hl. lia.
Qed.

Lemma set_who_same a : set_who a (who a) = a.
Proof. destruct a; reflexivity. Qed.

Lemma set_perm_same a : set_perm a (perm a) = a.
Proof. destruct a; reflexivity. Qed.

Lemma set_ref_same a : set_ref a (ref a) = a.
Proof. destruct a; reflexivity. Qed.

Lemma groups_string_cons g gs :
  groups_string (g :: gs) = group_string g ++ groups_string gs.
Proof. reflexivity. Qed.

(** What follows a group starts with no permission or reference letter. *)
Lemma groups_string_head gs :
  Forall well_formed_group gs ->
  who_of_char (hd 0 (groups_string gs)) = None /\
  perm_of_char (hd 0 (groups_string gs)) = None /\
  ref_of_char (hd 0 (groups_string gs)) = None.
Proof.
  intros H. destruct gs as [|g gs]; [repeat split|].
  apply Forall_cons_iff in H. destruct H as [(Hc & _) _].
  cbn [groups_string flat_map group_string app hd].
  apply operator_only in Hc. tauto.
Qed.

Lemma clause_who_idem w :
  (if (if w =? CHMOD_WHO_NONE then CHMOD_WHO_ALL else w) =? CHMOD_WHO_NONE
   then CHMOD_WHO_ALL
   else (if w =? CHMOD_WHO_NONE then CHMOD_WHO_ALL else w))
  = (if w =? CHMOD_WHO_NONE then CHMOD_WHO_ALL else w).
Proof.
  destruct (w =? CHMOD_WHO_NONE) eqn:E; [reflexivity|]. now rewrite E.
Qed.

Section ParserClauseFacts.

Variable alloc : Z -> bool.
Hypothesis alloc_ok : alloc sizeof_MODE_CHANGE_ACTION = true.

Variable s : list WCHAR.

(** A run of who letters. *)
Lemma ParseMode_reads_whos : forall whos l y,
  state l = PARSE_MODE_ACTION_WHO_STATE ->
  (i l <= List.length s)%nat ->
  skipn (i l) s = whos ++ y ->
  all_letters who_of_char whos ->
  exists l',
    ParseMode_reaches alloc s (List.length s) l l' /\
    state l' = PARSE_MODE_ACTION_WHO_STATE /\
    action l'
    = set_who (action l) (union_from who_of_char (who (action l)) whos) /\
    actions l' = actions l /\
    (i l' <= List.length s)%nat /\
    skipn (i l') s = y.
Proof.
  induction whos as [|c whos IH]; intros l y Hs Hi Hx Hall.
  - exists l. cbn [union_from fold_left]. rewrite set_who_same.
    repeat split; try assumption. apply ParseMode_reaches_refl.
  - apply Forall_cons_iff in Hall. destruct Hall as [Hc Hall].
    cbn [app] in Hx. apply suffix_cons in Hx.
    destruct Hx as (Echar & Hx & Hlen).
    destruct (who_of_char c) as [v|] eqn:Ec; [|contradiction].
    destruct (IH {| state := PARSE_MODE_ACTION_WHO_STATE;
                    action := set_who (action l) (Z.lor (who (action l)) v);
                    actions := actions l; i := S (i l) |} y
                eq_refl Hlen Hx Hall)
      as (l' & Hr & Hs' & Ha' & Hacts' & Hi' & Hx').
    exists l'. cbn [state action actions i set_who who] in *.
    repeat split; try assumption.
    + eapply ParseMode_reaches_trans; [|exact Hr].
      apply ParseMode_reaches_step; [exact Hi|].
      rewrite ParseMode_body_WHO by assumption.
      rewrite Echar, Ec. reflexivity.
    + rewrite Ha'. cbn [union_from fold_left]. rewrite Ec. reflexivity.
Qed.

(** A run of permission letters. *)
Lemma ParseMode_reads_perms : forall perms l y,
  state l = PARSE_MODE_ACTION_PERM_STATE ->
  (i l <= List.length s)%nat ->
  skipn (i l) s = perms ++ y ->
  all_letters perm_of_char perms ->
  exists l',
    ParseMode_reaches alloc s (List.length s) l l' /\
    state l' = PARSE_MODE_ACTION_PERM_STATE /\
    action l'
    = set_perm (action l)
        (union_from perm_of_char (perm (action l)) perms) /\
    actions l' = actions l /\
    (i l' <= List.length s)%nat /\
    skipn (i l') s = y.
Proof.
  induction perms as [|c perms IH]; intros l y Hs Hi Hx Hall.
  - exists l. cbn [union_from fold_left]. rewrite set_perm_same.
    repeat split; try assumption. apply ParseMode_reaches_refl.
  - apply Forall_cons_iff in Hall. destruct Hall as [Hc Hall].
    cbn [app] in Hx. apply suffix_cons in Hx.
    destruct Hx as (Echar & Hx & Hlen).
    destruct (perm_of_char c) as [v|] eqn:Ec; [|contradiction].
    destruct (IH {| state := PARSE_MODE_ACTION_PERM_STATE;
                    action := set_perm (action l)
                                (Z.lor (perm (action l)) v);
                    actions := actions l; i := S (i l) |} y
                eq_refl Hlen Hx Hall)
      as (l' & Hr & Hs' & Ha' & Hacts' & Hi' & Hx').
    exists l'. cbn [state action actions i set_perm perm] in *.
    repeat split; try assumption.
    + eapply ParseMode_reaches_trans; [|exact Hr].
      apply ParseMode_reaches_step; [exact Hi|].
      rewrite ParseMode_body_PERM by assumption.
      rewrite Echar, Ec. reflexivity.
    + rewrite Ha'. cbn [union_from fold_left]. rewrite Ec. reflexivity.
Qed.

(** A run of reference letters: each takes the place of the one before. *)
Lemma ParseMode_reads_refs : forall refs l y,
  state l = PARSE_MODE_ACTION_REF_STATE ->
  (i l <= List.length s)%nat ->
  skipn (i l) s = refs ++ y ->
  all_letters ref_of_char refs ->
  exists l',
    ParseMode_reaches alloc s (List.length s) l l' /\
    state l' = PARSE_MODE_ACTION_REF_STATE /\
    action l' = set_ref (action l) (last_reference (ref (action l)) refs) /\
    actions l' = actions l /\
    (i l' <= List.length s)%nat /\
    skipn (i l') s = y.
Proof.
  induction refs as [|c refs IH]; intros l y Hs Hi Hx Hall.
  - exists l. cbn [last_reference fold_left]. rewrite set_ref_same.
    repeat split; try assumption. apply ParseMode_reaches_refl.
  - apply Forall_cons_iff in Hall. destruct Hall as [Hc Hall].
    cbn [app] in Hx. apply suffix_cons in Hx.
    destruct Hx as (Echar & Hx & Hlen).
    destruct (ref_of_char c) as [v|] eqn:Ec; [|contradiction].
    destruct (IH {| state := PARSE_MODE_ACTION_REF_STATE;
                    action := set_ref (action l) v;
                    actions := actions l; i := S (i l) |} y
                eq_refl Hlen Hx Hall)
      as (l' & Hr & Hs' & Ha' & Hacts' & Hi' & Hx').
    exists l'. cbn [state action actions i set_ref ref] in *.
    repeat split; try assumption.
    + eapply ParseMode_reaches_trans; [|exact Hr].
      apply ParseMode_reaches_step; [exact Hi|].
      rewrite ParseMode_body_REF by assumption.
      rewrite Echar, Ec. reflexivity.
    + rewrite Ha'. unfold last_reference. cbn [fold_left]. rewrite Ec.
      reflexivity.
Qed.

(** One group, from its operator to the END state. *)
Lemma ParseMode_reads_group g l y :
  state l = PARSE_MODE_ACTION_OP_STATE ->
  (i l <= List.length s)%nat ->
  skipn (i l) s = group_string g ++ y ->
  well_formed_group g ->
  perm_of_char (hd 0 y) = None ->
  ref_of_char (hd 0 y) = None ->
  exists l',
    ParseMode_reaches alloc s (List.length s) l l' /\
    state l' = PARSE_MODE_ACTION_END_STATE /\
    action l'
    = {| who := who (action l);
         op := match op_of_char (g_op g) with
               | Some o => o
               | None => CHMOD_OP_INVALID
               end;
         perm := union_from perm_of_char (perm (action l)) (g_perms g);
         ref := last_reference (ref (action l)) (g_refs g) |} /\
    actions l' = actions l /\
    (i l' <= List.length s)%nat /\
    skipn (i l') s = y.
Proof.
  intros Hs Hi Hx (Hc & Hp & Hr) Hyp Hyr.
  unfold group_string in Hx. cbn [app] in Hx.
  apply suffix_cons in Hx. destruct Hx as (Echar & Hx & Hlen).
  destruct (op_of_char (g_op g)) as [o|] eqn:Eo; [|contradiction].
  rewrite <- app_assoc in Hx.
  (* the operator *)
  pose (l1 := {| state := PARSE_MODE_ACTION_PERM_STATE;
                 action := set_op (action l) o;
                 actions := actions l; i := S (i l) |}).
  assert (R1 : ParseMode_reaches alloc s (List.length s) l l1).
  { apply ParseMode_reaches_step; [exact Hi|].
    rewrite ParseMode_body_OP by assumption. rewrite Echar, Eo.
    reflexivity. }
  (* the permission letters *)
  destruct (ParseMode_reads_perms (g_perms g) l1 (g_refs g ++ y)
              eq_refl Hlen Hx Hp)
    as (l2 & R2 & Hs2 & Ha2 & Hacts2 & Hi2 & Hx2).
  assert (Hhead : perm_of_char (wchar_at s (i l2)) = None).
  { rewrite <- hd_skipn, Hx2.
    destruct (g_refs g) as [|r refs]; [exact Hyp|].
    apply Forall_cons_iff in Hr. destruct Hr as [Hr _].
    apply ref_letter_only in Hr. cbn [app hd]. tauto. }
  pose (l3 := {| state := PARSE_MODE_ACTION_REF_STATE; action := action l2;
                 actions := actions l2; i := i l2 |}).
  assert (R3 : ParseMode_reaches alloc s (List.length s) l2 l3).
  { apply ParseMode_reaches_step; [exact Hi2|].
    rewrite ParseMode_body_PERM by assumption. rewrite Hhead.
    reflexivity. }
  (* the reference letters *)
  destruct (ParseMode_reads_refs (g_refs g) l3 y eq_refl Hi2 Hx2 Hr)
    as (l4 & R4 & Hs4 & Ha4 & Hacts4 & Hi4 & Hx4).
  assert (Hhead4 : ref_of_char (wchar_at s (i l4)) = None).
  { rewrite <- hd_skipn, Hx4. exact Hyr. }
  exists {| state := PARSE_MODE_ACTION_END_STATE; action := action l4;
            actions := actions l4; i := i l4 |}.
  cbn [state action actions i].
  split; [|split; [reflexivity|split; [|split; [|split]]]].
  - eapply ParseMode_reaches_trans; [exact R1|].
    eapply ParseMode_reaches_trans; [exact R2|].
    eapply ParseMode_reaches_trans; [exact R3|].
    eapply ParseMode_reaches_trans; [exact R4|].
    apply ParseMode_reaches_step; [exact Hi4|].
    rewrite ParseMode_body_REF by assumption. rewrite Hhead4.
    reflexivity.
  - rewrite Ha4. cbn [l3 action]. rewrite Ha2. cbn [l1 action].
    destruct (action l); reflexivity.
  - rewrite Hacts4. cbn [l3 actions]. rewrite Hacts2. reflexivity.
  - exact Hi4.
  - exact Hx4.
Qed.

(** The groups of a clause, up to the end of the string: one action for
    each, all with the who of the first. *)
Lemma ParseMode_reads_groups : forall gs l,
  gs <> [] ->
  state l = PARSE_MODE_ACTION_OP_STATE ->
  (i l <= List.length s)%nat ->
  skipn (i l) s = groups_string gs ->
  Forall well_formed_group gs ->
  perm (action l) = CHMOD_PERM_NA ->
  ref (action l) = CHMOD_WHO_NONE ->
  exists l',
    ParseMode_reaches alloc s (List.length s) l l' /\
    (List.length s < i l')%nat /\
    actions l'
    = actions l
      ++ map (group_action (if who (action l) =? CHMOD_WHO_NONE
                            then CHMOD_WHO_ALL else who (action l))) gs.
Proof.
  induction gs as [|g gs IH]; intros l Hne Hs Hi Hx Hall Hperm Href;
    [contradiction|].
  apply Forall_cons_iff in Hall. destruct Hall as [Hg Hall].
  rewrite groups_string_cons in Hx.
  destruct (groups_string_head gs Hall) as (Hyw & Hyp & Hyr).
  destruct (ParseMode_reads_group g l (groups_string gs) Hs Hi Hx Hg Hyp Hyr)
    as (l1 & R1 & Hs1 & Ha1 & Hacts1 & Hi1 & Hx1).
  rewrite Hperm, Href in Ha1.
  assert (Hstored : finalized (action l1)
                    = group_action (if who (action l) =? CHMOD_WHO_NONE
                                    then CHMOD_WHO_ALL else who (action l))
                        g).
  { rewrite Ha1. unfold finalized, group_action. cbn [who set_who].
    destruct (who (action l) =? CHMOD_WHO_NONE); reflexivity. }
  pose proof (ParseMode_body_END alloc s l1 Hs1) as Hend.
  cbv zeta in Hend. rewrite alloc_ok, <- hd_skipn, Hx1, Hstored in Hend.
  destruct gs as [|g' gs'].
  - (* the terminator *)
    cbn [groups_string flat_map hd] in Hend.
    change (0 =? wc ",") with false in Hend.
    change (0 =? 0) with true in Hend. cbv iota in Hend.
    destruct (suffix_nil s (i l1) Hi1 Hx1) as [_ Elen].
    eexists. split; [|split].
    + eapply ParseMode_reaches_trans; [exact R1|].
      apply ParseMode_reaches_step; [exact Hi1 | exact Hend].
    + cbn [i]. lia.
    + cbn [actions map]. now rewrite Hacts1.
  - (* another operator *)
    pose proof Hall as Hall'.
    apply Forall_cons_iff in Hall'. destruct Hall' as [(Hc' & _) _].
    cbn [groups_string flat_map group_string app hd] in Hend, Hyw.
    pose proof (operator_only _ Hc') as (_ & _ & _ & Hcomma & Hzero).
    apply Z.eqb_neq in Hcomma, Hzero. rewrite Hcomma, Hzero in Hend.
    destruct (op_of_char (g_op g')) as [o'|] eqn:Eo'; [|contradiction].
    pose (l2 := {| state := PARSE_MODE_ACTION_WHO_STATE;
                   action :=
                     set_who INIT_MODE_CHANGE_ACTION
                       (who (group_action
                               (if who (action l) =? CHMOD_WHO_NONE
                                then CHMOD_WHO_ALL else who (action l)) g));
                   actions :=
                     actions l1
                     ++ [group_action
                           (if who (action l) =? CHMOD_WHO_NONE
                            then CHMOD_WHO_ALL else who (action l)) g];
                   i := i l1 |}).
    pose (l3 := {| state := PARSE_MODE_ACTION_OP_STATE; action := action l2;
                   actions := actions l2; i := i l2 |}).
    assert (R3 : ParseMode_reaches alloc s (List.length s) l2 l3).
    { apply ParseMode_reaches_step; [exact Hi1|].
      rewrite ParseMode_body_WHO by reflexivity.
      cbn [l2 i]. rewrite <- hd_skipn, Hx1.
      cbn [groups_string flat_map group_string app hd]. rewrite Hyw.
      reflexivity. }
    destruct (IH l3 ltac:(discriminate) eq_refl Hi1 Hx1 Hall eq_refl eq_refl)
      as (l' & R' & Hdone & Hacts').
    exists l'. split; [|split; [exact Hdone|]].
    + eapply ParseMode_reaches_trans; [exact R1|].
      eapply ParseMode_reaches_trans;
        [apply ParseMode_reaches_step; [exact Hi1 | exact Hend]|].
      eapply ParseMode_reaches_trans; [exact R3 | exact R'].
    + rewrite Hacts'.
      cbn [l3 l2 action actions set_who who group_action].
      rewrite clause_who_idem, Hacts1, <- app_assoc. reflexivity.
Qed.

End ParserClauseFacts.

Lemma mode_string_cons c c' cls :
  mode_string (c :: c' :: cls)
  = clause_string c ++ wc "," :: mode_string (c' :: cls).
Proof. reflexivity. Qed.

Lemma clause_string_nonzero c :
  well_formed_clause c -> Forall (fun x => x <> 0) (clause_string c).
Proof.
  intros (Hw & _ & Hgs). unfold clause_string.
  apply Forall_app. split.
  - now apply (letters_nonzero who_of_char).
  - unfold groups_string. induction Hgs as [|g gs (Hc & Hp & Hr) _ IH];
      [constructor|].
    cbn [flat_map]. apply Forall_app. split; [|exact IH].
    unfold group_string. constructor.
    + apply operator_only in Hc. tauto.
    + apply Forall_app. split.
      * now apply (letters_nonzero perm_of_char).
      * now apply (letters_nonzero ref_of_char).
Qed.

Lemma mode_string_nonzero cls :
  Forall well_formed_clause cls -> Forall (fun x => x <> 0) (mode_string cls).
Proof.
  induction cls as [|c cls IH]; intros H; [constructor|].
  apply Forall_cons_iff in H. destruct H as [Hc Hcls].
  destruct cls as [|c' cls].
  - now apply clause_string_nonzero.
  - rewrite mode_string_cons. apply Forall_app. split.
    + now apply clause_string_nonzero.
    + constructor; [discriminate | now apply IH].
Qed.

Section ParserModeFacts.

Variable alloc : Z -> bool.
Hypothesis alloc_ok : alloc sizeof_MODE_CHANGE_ACTION = true.

(** The actions of one clause. *)
Lemma ParseMode_clause c :
  well_formed_clause c ->
  Z.of_nat (List.length (clause_string c)) < STRSAFE_MAX_CCH ->
  ParseMode alloc (clause_string c) = Some (clause_actions c).
Proof.
  intros Hwf Hmax. pose proof (clause_string_nonzero c Hwf) as Hnz.
  destruct Hwf as (Hw & Hne & Hgs). destruct c as [whos gs].
  cbn [fst snd] in *.
  set (s := clause_string (whos, gs)) in *.
  assert (Hl : StringCchLengthW s STRSAFE_MAX_CCH = Some (List.length s)).
  { unfold StringCchLengthW. rewrite (wcslen_all_nonzero s Hnz).
    apply Z.ltb_lt in Hmax.
    match goal with
    | |- (if ?b then _ else _) = _ =>
        replace b with true by (symmetry; exact Hmax)
    end.
    reflexivity. }
  destruct (ParseMode_reads_whos alloc s whos ParseMode_init
              (groups_string gs) eq_refl ltac:(cbn; lia) eq_refl Hw)
    as (l1 & R1 & Hs1 & Ha1 & Hacts1 & Hi1 & Hx1).
  destruct (groups_string_head gs Hgs) as (Hyw & _ & _).
  pose (l2 := {| state := PARSE_MODE_ACTION_OP_STATE; action := action l1;
                 actions := actions l1; i := i l1 |}).
  assert (R2 : ParseMode_reaches alloc s (List.length s) l1 l2).
  { apply ParseMode_reaches_step; [exact Hi1|].
    rewrite ParseMode_body_WHO by assumption.
    rewrite <- hd_skipn, Hx1, Hyw. reflexivity. }
  destruct (ParseMode_reads_groups alloc alloc_ok s gs l2 Hne eq_refl Hi1
              Hx1 Hgs)
    as (l3 & R3 & Hdone & Hacts3).
  { cbn [l2 action]. rewrite Ha1. reflexivity. }
  { cbn [l2 action]. rewrite Ha1. reflexivity. }
  rewrite (ParseMode_reaches_result alloc s (List.length s) l3 Hl);
    [|eapply ParseMode_reaches_trans; [exact R1|];
      eapply ParseMode_reaches_trans; [exact R2 | exact R3]
     |exact Hdone].
  rewrite Hacts3. cbn [l2 action actions]. rewrite Hacts1, Ha1.
  reflexivity.
Qed.

(** The actions of a mode: those of its clauses, one after the other. *)
Lemma ParseMode_mode_actions : forall cls,
  cls <> [] ->
  Forall well_formed_clause cls ->
  Z.of_nat (List.length (mode_string cls)) < STRSAFE_MAX_CCH ->
  ParseMode alloc (mode_string cls) = Some (mode_actions cls).
Proof.
  induction cls as [|c cls IH]; intros Hne Hwf Hmax; [contradiction|].
  apply Forall_cons_iff in Hwf. destruct Hwf as [Hc Hcls].
  destruct cls as [|c' cls].
  - cbn [mode_string mode_actions flat_map] in *. rewrite app_nil_r.
    now apply ParseMode_clause.
  - rewrite mode_string_cons in *.
    pose proof (clause_string_nonzero c Hc) as Hnz.
    pose proof (mode_string_nonzero (c' :: cls) Hcls) as Hnz'.
    rewrite length_app in Hmax. cbn [List.length] in Hmax.
    rewrite ParseMode_comma.
    + rewrite ParseMode_clause by (try assumption; lia).
      rewrite IH by (try assumption; try discriminate; lia).
      reflexivity.
    + exact Hnz.
    + rewrite wcslen_all_nonzero.
      * rewrite length_app. cbn [List.length]. lia.
      * apply Forall_app. split; [exact Hnz|].
        constructor; [discriminate | exact Hnz'].
Qed.

End ParserModeFacts.

(** *** Every accepted string has this structure *)

Lemma is_groups_structure x :
  is_groups x ->
  exists gs, gs <> [] /\ Forall well_formed_group gs /\ x = groups_string gs.
Proof.
  induction 1 as [g Hg|g x Hg _ (gs & Hne & Hwf & ->)];
    destruct Hg as [c perms refs Hc Hp Hr].
  - exists [{| g_op := c; g_perms := perms; g_refs := refs |}].
    split; [discriminate|]. split.
    + repeat constructor; assumption.
    + cbn. now rewrite app_nil_r.
  - exists ({| g_op := c; g_perms := perms; g_refs := refs |} :: gs).
    split; [discriminate|]. split.
    + constructor; [|exact Hwf]. repeat split; assumption.
    + reflexivity.
Qed.

Lemma is_clause_structure x :
  is_clause x -> exists c, well_formed_clause c /\ x = clause_string c.
Proof.
  intros (whos & y & Hw & Hy & ->).
  destruct (is_groups_structure y Hy) as (gs & Hne & Hwf & ->).
  exists (whos, gs). split; [|reflexivity]. repeat split; assumption.
Qed.

Lemma is_mode_structure x :
  is_mode x ->
  exists cls,
    cls <> [] /\ Forall well_formed_clause cls /\ x = mode_string cls.
Proof.
  induction 1 as [x Hc|x m Hc _ (cls & Hne & Hwf & ->)];
    destruct (is_clause_structure x Hc) as (c & Hcwf & ->).
  - exists [c]. split; [discriminate|]. split; [|reflexivity].
    now constructor.
  - exists (c :: cls). split; [discriminate|]. split.
    + now constructor.
    + destruct cls as [|c' cls]; [contradiction | reflexivity].
Qed.

Section ParserStructureFacts.

Variable alloc : Z -> bool.

(** Without memory for an action nothing is stored. *)
Lemma ParseMode_body_no_memory s l l' :
  alloc sizeof_MODE_CHANGE_ACTION = false ->
  ParseMode_body alloc s l = Continue l' ->
  actions l' = actions l.
Proof.
  intros Ha.
  destruct (state l) eqn:Hs.
  - rewrite ParseMode_body_WHO by assumption.
    destruct (who_of_char _); intros H; inversion H; reflexivity.
  - rewrite ParseMode_body_OP by assumption.
    destruct (op_of_char _); [|discriminate].
    intros H; inversion H; reflexivity.
  - rewrite ParseMode_body_PERM by assumption.
    destruct (perm_of_char _); intros H; inversion H; reflexivity.
  - rewrite ParseMode_body_REF by assumption.
    destruct (ref_of_char _); intros H; inversion H; reflexivity.
  - rewrite ParseMode_body_END by assumption. cbv zeta. rewrite Ha.
    discriminate.
Qed.

Lemma ParseMode_loop_no_memory fuel s len : forall l acts,
  alloc sizeof_MODE_CHANGE_ACTION = false ->
  ParseMode_loop alloc fuel s len l = Some (Some acts) ->
  acts = actions l.
Proof.
  induction fuel as [|fuel IH]; intros l acts Ha.
  - rewrite ParseMode_loop_O. destruct (len <? i l)%nat; [|discriminate].
    intros H. now injection H as <-.
  - rewrite ParseMode_loop_S. destruct (len <? i l)%nat.
    + intros H. now injection H as <-.
    + destruct (ParseMode_body alloc s l) as [l'|] eqn:Hb; [|discriminate].
      intros H. rewrite (IH l' acts Ha H).
      now apply (ParseMode_body_no_memory s).
Qed.

(** A list was returned, so the memory for an action was there. *)
Lemma ParseMode_had_memory s acts :
  ParseMode alloc s = Some acts -> alloc sizeof_MODE_CHANGE_ACTION = true.
Proof.
  intros H. pose proof (ParseMode_nonempty alloc s acts H) as Hne.
  destruct (alloc sizeof_MODE_CHANGE_ACTION) eqn:Ha; [reflexivity|].
  exfalso. apply Hne. revert H. unfold ParseMode.
  destruct (StringCchLengthW s STRSAFE_MAX_CCH) as [len|]; [|discriminate].
  destruct (ParseMode_loop alloc _ s len ParseMode_init) as [r|] eqn:E;
    [|discriminate].
  intros ->. now apply ParseMode_loop_no_memory in E.
Qed.

Lemma ParseMode_length s acts :
  ParseMode alloc s = Some acts ->
  Z.of_nat (wcslen s) < STRSAFE_MAX_CCH.
Proof.
  unfold ParseMode, StringCchLengthW.
  destruct (Z.of_nat (wcslen s) <? STRSAFE_MAX_CCH) eqn:E; [|discriminate].
  intros _. now apply Z.ltb_lt.
Qed.

Lemma ParseMode_is_mode s acts :
  ParseMode alloc s = Some acts -> is_mode (wcs s).
Proof.
  intros H.
  pose proof (ParseMode_had_memory s acts H) as Halloc.
  pose proof (ParseMode_length s acts H) as Hmax.
  rewrite <- ParseMode_wcs in H.
  assert (Hnz : Forall (fun c => c <> 0) (wcs s)) by apply wcs_nonzero.
  assert (Hlen : wcslen (wcs s) = List.length (wcs s))
    by now apply wcslen_all_nonzero.
  assert (Hl : StringCchLengthW (wcs s) STRSAFE_MAX_CCH
               = Some (List.length (wcs s))).
  { unfold StringCchLengthW. rewrite Hlen.
    rewrite <- (wcslen_wcs s), Hlen in Hmax.
    apply Z.ltb_lt in Hmax. now rewrite Hmax. }
  destruct (ParseMode_loop alloc (ParseMode_fuel (List.length (wcs s)))
              (wcs s) (List.length (wcs s)) ParseMode_init) as [r|] eqn:E;
    [|now apply ParseMode_fuel_enough in E].
  rewrite (ParseMode_by_loop alloc _ _ _ r Hl E) in H.
  pose proof (ParseMode_loop_accepts alloc Halloc (wcs s) Hnz _
                ParseMode_init r ltac:(cbn; lia) E) as Hacc.
  cbn [state i ParseMode_init skipn] in Hacc.
  apply accepted_from_WHO_mode, Hacc. rewrite H. discriminate.
Qed.

(** What ParseMode returns is the actions of the clauses of the string. *)
Lemma ParseMode_structure s acts :
  ParseMode alloc s = Some acts ->
  exists cls,
    cls <> [] /\ Forall well_formed_clause cls /\
    wcs s = mode_string cls /\ acts = mode_actions cls.
Proof.
  intros H.
  pose proof (ParseMode_had_memory s acts H) as Halloc.
  pose proof (ParseMode_length s acts H) as Hmax.
  destruct (is_mode_structure _ (ParseMode_is_mode s acts H))
    as (cls & Hne & Hwf & Hs).
  exists cls. repeat split; try assumption.
  rewrite <- ParseMode_wcs, Hs in H.
  rewrite (ParseMode_mode_actions alloc Halloc cls Hne Hwf) in H.
  - now injection H as <-.
  - rewrite <- Hs.
    pose proof (wcslen_all_nonzero (wcs s) (wcs_nonzero s)) as E.
    rewrite wcslen_wcs in E. unfold LPCWSTR, WCHAR in *. lia.
Qed.

End ParserStructureFacts.

(** The reference class of a group: none exactly when the group has no
    reference letter. *)
Lemma last_reference_letters refs : forall init,
  all_letters ref_of_char refs ->
  refs <> [] ->
  last_reference init refs = CHMOD_WHO_USER
  \/ last_reference init refs = CHMOD_WHO_GROUP
  \/ last_reference init refs = CHMOD_WHO_OTHER.
Proof.
  induction refs as [|c refs IH]; intros init Hall Hne; [contradiction|].
  apply Forall_cons_iff in Hall. destruct Hall as [Hc Hall].
  unfold last_reference. cbn [fold_left].
  destruct (ref_of_char c) as [v|] eqn:Ec; [|contradiction].
  destruct refs as [|c' refs].
  - cbn [fold_left]. apply ref_letter_cases in Ec. tauto.
  - apply (IH v Hall). discriminate.
Qed.

Lemma group_action_in cls c g :
  In c cls -> In g (snd c) ->
  In (group_action (clause_who (fst c)) g) (mode_actions cls).
Proof.
  intros Hc Hg. unfold mode_actions. apply in_flat_map.
  exists c. split; [exact Hc|]. unfold clause_actions. now apply in_map.
Qed.

Lemma mode_actions_in cls a :
  In a (mode_actions cls) ->
  exists c g, In c cls /\ In g (snd c)
              /\ a = group_action (clause_who (fst c)) g.
Proof.
  unfold mode_actions. rewrite in_flat_map.
  intros (c & Hc & Ha). unfold clause_actions in Ha.
  apply in_map_iff in Ha. destruct Ha as (g & <- & Hg).
  exists c, g. auto.
Qed.

(** C6.  In the END state the action is stored at the end of the list, with
    "all" in place of an empty [who].  When the character is an operator it
    is not consumed: the next three iterations go through the WHO and OP
    states to the PERM state of the next action, whose [who] is that of the
    action just stored; after a comma the next action starts afresh, and
    any other character but the terminator is refused.  So ParseMode
    returns, for every string of clauses, one action for each group of an
    operator with its letters, in the order of the string, every group of
    a clause with the who of the clause; and whatever it returns is the
    list of a string of clauses. *)
Theorem C6_END_state_stores_action :
  forall (alloc : Z -> bool),
    alloc sizeof_MODE_CHANGE_ACTION = true ->
    (forall (s : LPCWSTR) (l : ParseModeLocals),
       state l = PARSE_MODE_ACTION_END_STATE ->
       let c := wchar_at s (i l) in
       let stored := finalized (action l) in
       (who stored = (if who (action l) =? CHMOD_WHO_NONE then CHMOD_WHO_ALL
                      else who (action l))
        /\ op stored = op (action l) /\ perm stored = perm (action l)
        /\ ref stored = ref (action l)) /\
       (forall o, op_of_char c = Some o ->
          ParseMode_body alloc s l
          = Continue {| state := PARSE_MODE_ACTION_WHO_STATE;
                        action := set_who INIT_MODE_CHANGE_ACTION
                                    (who stored);
                        actions := actions l ++ [stored]; i := i l |} /\
          ParseMode_body alloc s
            {| state := PARSE_MODE_ACTION_WHO_STATE;
               action := set_who INIT_MODE_CHANGE_ACTION (who stored);
               actions := actions l ++ [stored]; i := i l |}
          = Continue {| state := PARSE_MODE_ACTION_OP_STATE;
                        action := set_who INIT_MODE_CHANGE_ACTION
                                    (who stored);
                        actions := actions l ++ [stored]; i := i l |} /\
          ParseMode_body alloc s
            {| state := PARSE_MODE_ACTION_OP_STATE;
               action := set_who INIT_MODE_CHANGE_ACTION (who stored);
               actions := actions l ++ [stored]; i := i l |}
          = Continue {| state := PARSE_MODE_ACTION_PERM_STATE;
                        action := {| who := who stored; op := o;
                                     perm := CHMOD_PERM_NA;
                                     ref := CHMOD_WHO_NONE |};
                        actions := actions l ++ [stored];
                        i := S (i l) |}) /\
       (c = wc "," ->
          ParseMode_body alloc s l
          = Continue {| state := PARSE_MODE_ACTION_WHO_STATE;
                        action := INIT_MODE_CHANGE_ACTION;
                        actions := actions l ++ [stored];
                        i := S (i l) |}) /\
       (c = 0 ->
          ParseMode_body alloc s l
          = Continue {| state := PARSE_MODE_ACTION_WHO_STATE;
                        action := set_who INIT_MODE_CHANGE_ACTION
                                    (who stored);
                        actions := actions l ++ [stored];
                        i := S (i l) |}) /\
       (c <> 0 -> c <> wc "," -> op_of_char c = None ->
          ParseMode_body alloc s l = ReturnFALSE) /\
       (forall len o, (i l <= len)%nat -> op_of_char c = Some o ->
          forall fuel,
            ParseMode_loop alloc (3 + fuel) s len l =
            ParseMode_loop alloc fuel s len
              {| state := PARSE_MODE_ACTION_PERM_STATE;
                 action := {| who := who stored; op := o;
                              perm := CHMOD_PERM_NA;
                              ref := CHMOD_WHO_NONE |};
                 actions := actions l ++ [stored];
                 i := S (i l) |}) /\
       (forall len fuel acts, (i l <= len)%nat ->
          ParseMode_loop alloc fuel s len l = Some (Some acts) ->
          exists more, acts = actions l ++ stored :: more)) /\
    (forall cls : list ModeClause,
       cls <> [] ->
       Forall well_formed_clause cls ->
       Z.of_nat (List.length (mode_string cls)) < STRSAFE_MAX_CCH ->
       ParseMode alloc (mode_string cls) = Some (mode_actions cls)) /\
    (forall (s : LPCWSTR) (acts : list MODE_CHANGE_ACTION),
       ParseMode alloc s = Some acts ->
       exists cls,
         cls <> [] /\ Forall well_formed_clause cls /\
         wcs s = mode_string cls /\ acts = mode_actions cls).
Proof.
  intros alloc Ha. split; [|split].
  - intros s l Hs c stored.
    pose proof (ParseMode_body_END alloc s l Hs) as Hend.
    cbv zeta in Hend. fold c in Hend. fold stored in Hend.
    rewrite Ha in Hend.
    split; [|split; [|split; [|split; [|split; [|split]]]]].
    + unfold stored, finalized.
      destruct (who (action l) =? CHMOD_WHO_NONE); repeat split.
    + intros o Ho.
      pose proof (operator_only c ltac:(congruence))
        as (Hw & _ & _ & Hcomma & Hzero).
      apply Z.eqb_neq in Hcomma, Hzero.
      rewrite Hcomma, Hzero, Ho in Hend.
      split; [exact Hend|]. split.
      * rewrite ParseMode_body_WHO by reflexivity. cbn [i]. fold c.
        rewrite Hw. reflexivity.
      * rewrite ParseMode_body_OP by reflexivity. cbn [i]. fold c.
        rewrite Ho. reflexivity.
    + intros Hc. rewrite Hc in Hend. exact Hend.
    + intros Hc. rewrite Hc in Hend. exact Hend.
    + intros H0 Hcomma Ho. apply Z.eqb_neq in H0, Hcomma.
      rewrite Hcomma, H0, Ho in Hend. exact Hend.
    + intros len o Hi Ho fuel. now apply ParseMode_reenters.
    + intros len fuel acts Hi H.
      destruct fuel as [|fuel].
      * rewrite ParseMode_loop_O in H.
        replace (len <? i l)%nat with false in H
          by (symmetry; apply Nat.ltb_ge; lia).
        discriminate H.
      * rewrite ParseMode_loop_S in H.
        replace (len <? i l)%nat with false in H
          by (symmetry; apply Nat.ltb_ge; lia).
        destruct (ParseMode_body alloc s l) as [l'|] eqn:Hb;
          [|discriminate].
        apply ParseMode_loop_extends in H. destruct H as [more ->].
        rewrite (ParseMode_body_END_appends alloc s l l' Hs Hb).
        exists more. rewrite <- app_assoc. reflexivity.
  - intros cls. now apply ParseMode_mode_actions.
  - intros s acts. apply ParseMode_structure.
Qed.

(** "u+r-w": two actions, the second with the who of the first. *)
Lemma C6_witness :
  ParseMode (fun _ => true) (L "u+r-w")
  = Some [{| who := CHMOD_WHO_USER; op := CHMOD_OP_PLUS;
             perm := CHMOD_PERM_R; ref := CHMOD_WHO_NONE |};
          {| who := CHMOD_WHO_USER; op := CHMOD_OP_MINUS;
             perm := CHMOD_PERM_W; ref := CHMOD_WHO_NONE |}].
Proof.
  refine (proj1 (proj2 (C6_END_state_stores_action (fun _ => true) eq_refl))
            [(L "u", [{| g_op := wc "+"; g_perms := L "r"; g_refs := [] |};
                      {| g_op := wc "-"; g_perms := L "w"; g_refs := [] |}])]
            _ _ _).
  - discriminate.
  - repeat constructor; discriminate.
  - vm_compute. reflexivity.
Defined.

(** C10.  The assertion at the entry of ComputeNewMode wants a reference
    class.  Whatever string ParseMode accepts, its actions are those of the
    groups of the string, and the action of a group has a reference class
    exactly when the group has a reference letter: for every group without
    one the assertion fails, whatever the mode, and a string without any
    reference letter gives only actions on which it fails; and every
    string of clauses is accepted with these actions.  With the assertion
    compiled away the code returns a mode for every action, the old mode
    for an empty permission set. *)
Theorem C10_assertion_fails_on_literal_clause :
  forall (UX_DIRECTORY : USHORT) (alloc : Z -> bool) (s : LPCWSTR)
         (acts : list MODE_CHANGE_ACTION),
    ParseMode alloc s = Some acts ->
    (exists cls,
       cls <> [] /\ Forall well_formed_clause cls /\
       wcs s = mode_string cls /\ acts = mode_actions cls /\
       (forall c g, In c cls -> In g (snd c) ->
          let a := group_action (clause_who (fst c)) g in
          In a acts /\
          (g_refs g = [] <-> ref a = CHMOD_WHO_NONE) /\
          (g_refs g = [] ->
           ComputeNewMode_asserts (op a) (ref a) = false /\
           forall oldMode,
             ComputeNewMode_checked UX_DIRECTORY oldMode (who a) (op a)
               (perm a) (ref a) = None) /\
          (g_refs g <> [] ->
           forall oldMode,
             ComputeNewMode_checked UX_DIRECTORY oldMode (who a) (op a)
               (perm a) (ref a)
             = Some (ComputeNewMode UX_DIRECTORY oldMode (who a) (op a)
                       (perm a) (ref a)))) /\
       ((forall c g, In c cls -> In g (snd c) -> g_refs g = []) ->
        Forall (fun a =>
                  ref a = CHMOD_WHO_NONE /\
                  forall oldMode,
                    ComputeNewMode_checked UX_DIRECTORY oldMode (who a)
                      (op a) (perm a) (ref a) = None) acts)) /\
    (forall a, In a acts -> ref a = CHMOD_WHO_NONE ->
       ComputeNewMode_asserts (op a) (ref a) = false /\
       forall oldMode,
         ComputeNewMode_checked UX_DIRECTORY oldMode (who a) (op a) (perm a)
           (ref a) = None /\
         (perm a = CHMOD_PERM_NA ->
          ComputeNewMode UX_DIRECTORY oldMode (who a) (op a) (perm a) (ref a)
          = oldMode)) /\
    (forall oldMode who op perm,
       ComputeNewMode_checked UX_DIRECTORY oldMode who op perm
         CHMOD_WHO_NONE = None) /\
    (forall oldMode who op perm ref,
       ComputeNewMode_checked UX_DIRECTORY oldMode who op perm ref
       = (if ComputeNewMode_asserts op ref
          then Some (ComputeNewMode UX_DIRECTORY oldMode who op perm ref)
          else None)) /\
    (forall cls : list ModeClause,
       cls <> [] ->
       Forall well_formed_clause cls ->
       Z.of_nat (List.length (mode_string cls)) < STRSAFE_MAX_CCH ->
       ParseMode alloc (mode_string cls) = Some (mode_actions cls)).
Proof.
  intros UXD alloc s acts H.
  assert (Hnone : forall op, ComputeNewMode_asserts op CHMOD_WHO_NONE = false)
    by (intros []; reflexivity).
  assert (Hchecked : forall oldMode who op perm,
            ComputeNewMode_checked UXD oldMode who op perm CHMOD_WHO_NONE
            = None).
  { intros. unfold ComputeNewMode_checked. now rewrite Hnone. }
  split; [|split; [|split; [|split]]].
  - destruct (ParseMode_structure alloc s acts H)
      as (cls & Hne & Hwf & Hs & Hacts).
    exists cls. repeat (split; [assumption|]).
    assert (Hgroup : forall c g, In c cls -> In g (snd c) ->
               well_formed_group g).
    { intros c g Hc Hg. rewrite Forall_forall in Hwf.
      destruct (Hwf c Hc) as (_ & _ & Hgs).
      rewrite Forall_forall in Hgs. now apply Hgs. }
    assert (Href : forall c g, In c cls -> In g (snd c) ->
               (g_refs g = []
                <-> ref (group_action (clause_who (fst c)) g)
                    = CHMOD_WHO_NONE)).
    { intros c g Hc Hg. cbn [group_action ref]. split.
      - intros ->. reflexivity.
      - intros E. destruct (g_refs g) as [|r refs] eqn:Er; [reflexivity|].
        destruct (Hgroup c g Hc Hg) as (_ & _ & Hr). rewrite Er in Hr.
        destruct (last_reference_letters (r :: refs) CHMOD_WHO_NONE Hr
                    ltac:(discriminate)) as [E'|[E'|E']];
          rewrite E in E'; discriminate E'. }
    split.
    + intros c g Hc Hg a.
      split; [rewrite Hacts; now apply group_action_in|].
      split; [now apply Href|]. split.
      * intros Hr. apply (Href c g Hc Hg) in Hr. fold a in Hr.
        rewrite Hr. split; [apply Hnone | intros; apply Hchecked].
      * intros Hr oldMode. unfold ComputeNewMode_checked.
        destruct (Hgroup c g Hc Hg) as (Ho & _ & Hrefs).
        assert (Hassert : ComputeNewMode_asserts (op a) (ref a) = true).
        { unfold a. cbn [group_action op ref].
          destruct (op_of_char (g_op g)) as [o|] eqn:Eo; [|contradiction].
          pose proof (op_of_char_valid (g_op g)) as Hvalid.
          rewrite Eo in Hvalid.
          destruct (last_reference_letters (g_refs g) CHMOD_WHO_NONE Hrefs
                      Hr) as [ -> | [ -> | -> ] ];
            destruct o; try reflexivity; now destruct Hvalid. }
        now rewrite Hassert.
    + intros Hall. rewrite Hacts. apply Forall_forall. intros a Ha.
      apply mode_actions_in in Ha. destruct Ha as (c & g & Hc & Hg & ->).
      pose proof (proj1 (Href c g Hc Hg) (Hall c g Hc Hg)) as Hr.
      split; [exact Hr|]. intros oldMode. rewrite Hr. apply Hchecked.
  - intros a _ Hr. rewrite Hr. split; [apply Hnone|].
    intros oldMode. split; [apply Hchecked|].
    intros Hperm. unfold ComputeNewMode. rewrite Hperm. reflexivity.
  - exact Hchecked.
  - reflexivity.
  - intros cls. apply ParseMode_mode_actions.
    exact (ParseMode_had_memory alloc s acts H).
Qed.

(** "u=rwx,g=rx,o=": the assertion fails on each of its three actions. *)
Lemma C10_witness :
  ParseMode (fun _ => true) (L "u=rwx,g=rx,o=")
  = Some [{| who := CHMOD_WHO_USER; op := CHMOD_OP_EQUAL;
             perm := 7; ref := CHMOD_WHO_NONE |};
          {| who := CHMOD_WHO_GROUP; op := CHMOD_OP_EQUAL;
             perm := 5; ref := CHMOD_WHO_NONE |};
          {| who := CHMOD_WHO_OTHER; op := CHMOD_OP_EQUAL;
             perm := CHMOD_PERM_NA; ref := CHMOD_WHO_NONE |}] /\
  Forall (fun a =>
            ComputeNewMode_checked example_UX_DIRECTORY (octal 6 4 0)
              (who a) (op a) (perm a) (ref a) = None)
    [{| who := CHMOD_WHO_USER; op := CHMOD_OP_EQUAL;
        perm := 7; ref := CHMOD_WHO_NONE |};
     {| who := CHMOD_WHO_GROUP; op := CHMOD_OP_EQUAL;
        perm := 5; ref := CHMOD_WHO_NONE |};
     {| who := CHMOD_WHO_OTHER; op := CHMOD_OP_EQUAL;
        perm := CHMOD_PERM_NA; ref := CHMOD_WHO_NONE |}].
Proof.
  assert (Hparse :
    ParseMode (fun _ => true) (L "u=rwx,g=rx,o=")
    = Some [{| who := CHMOD_WHO_USER; op := CHMOD_OP_EQUAL;
               perm := 7; ref := CHMOD_WHO_NONE |};
            {| who := CHMOD_WHO_GROUP; op := CHMOD_OP_EQUAL;
               perm := 5; ref := CHMOD_WHO_NONE |};
            {| who := CHMOD_WHO_OTHER; op := CHMOD_OP_EQUAL;
               perm := CHMOD_PERM_NA; ref := CHMOD_WHO_NONE |}])
    by (vm_compute; reflexivity).
  split; [exact Hparse|].
  destruct (C10_assertion_fails_on_literal_clause example_UX_DIRECTORY
              (fun _ => true) _ _ Hparse) as (_ & Hnone & _).
  apply Forall_forall. intros a Ha.
  assert (Href : ref a = CHMOD_WHO_NONE).
  { destruct Ha as [ <- | [ <- | [ <- | [] ] ] ]; reflexivity. }
  apply (proj2 (Hnone a Ha Href)).
Defined.

(** X20.  A group that is its operator alone, with no permission and no
    reference letter, gives an action without permissions and without a
    reference class, and ComputeNewMode returns the old mode for it,
    whatever the operator: in every string that ParseMode accepts, and so
    in a clause that is who letters and an operator.  "u=" and "a=" clear
    no bit. *)
Theorem X20_operator_alone_changes_nothing :
  forall (UX_DIRECTORY : USHORT) (alloc : Z -> bool),
    (forall (s : LPCWSTR) (acts : list MODE_CHANGE_ACTION),
       ParseMode alloc s = Some acts ->
       exists cls,
         cls <> [] /\ Forall well_formed_clause cls /\
         wcs s = mode_string cls /\ acts = mode_actions cls /\
         forall c g, In c cls -> In g (snd c) ->
           g_perms g = [] -> g_refs g = [] ->
           let a := group_action (clause_who (fst c)) g in
           In a acts /\ op_of_char (g_op g) = Some (op a) /\
           perm a = CHMOD_PERM_NA /\ ref a = CHMOD_WHO_NONE /\
           forall oldMode,
             ComputeNewMode UX_DIRECTORY oldMode (who a) (op a) (perm a)
               (ref a) = oldMode) /\
    (forall (whos : list WCHAR) (c : WCHAR) (o : CHMOD_OP),
       all_letters who_of_char whos ->
       op_of_char c = Some o ->
       alloc sizeof_MODE_CHANGE_ACTION = true ->
       Z.of_nat (List.length (whos ++ [c])) < STRSAFE_MAX_CCH ->
       ParseMode alloc (whos ++ [c])
       = Some [{| who := clause_who whos; op := o; perm := CHMOD_PERM_NA;
                  ref := CHMOD_WHO_NONE |}] /\
       forall oldMode,
         apply_actions UX_DIRECTORY
           [{| who := clause_who whos; op := o; perm := CHMOD_PERM_NA;
               ref := CHMOD_WHO_NONE |}] oldMode
         = oldMode).
Proof.
  intros UXD alloc. split.
  - intros s acts H.
    destruct (ParseMode_structure alloc s acts H)
      as (cls & Hne & Hwf & Hs & Hacts).
    exists cls. repeat (split; [assumption|]).
    intros c g Hc Hg Hp Hr a.
    split; [rewrite Hacts; now apply group_action_in|].
    assert (Hperm : perm a = CHMOD_PERM_NA)
      by (unfold a; cbn [group_action perm]; now rewrite Hp).
    assert (Href : ref a = CHMOD_WHO_NONE)
      by (unfold a; cbn [group_action ref]; now rewrite Hr).
    split; [|split; [exact Hperm|split; [exact Href|]]].
    + unfold a. cbn [group_action op].
      rewrite Forall_forall in Hwf. destruct (Hwf c Hc) as (_ & _ & Hgs).
      rewrite Forall_forall in Hgs. destruct (Hgs g Hg) as (Ho & _).
      destruct (op_of_char (g_op g)); [reflexivity | contradiction].
    + intros oldMode. unfold ComputeNewMode. rewrite Hperm, Href.
      reflexivity.
  - intros whos c o Hw Ho Ha Hmax. split; [|reflexivity].
    assert (Hwf : well_formed_clause
                    (whos, [{| g_op := c; g_perms := []; g_refs := [] |}])).
    { split; [exact Hw|]. split; [discriminate|].
      repeat constructor. cbn [g_op]. congruence. }
    pose proof (ParseMode_clause alloc Ha _ Hwf) as H.
    unfold clause_string, clause_actions, groups_string, group_string,
      group_action in H.
    cbn [fst snd flat_map map app g_op g_perms g_refs] in H.
    rewrite Ho in H. apply H. exact Hmax.
Qed.

Lemma X20_witness :
  ParseMode (fun _ => true) (L "u=")
  = Some [{| who := CHMOD_WHO_USER; op := CHMOD_OP_EQUAL;
             perm := CHMOD_PERM_NA; ref := CHMOD_WHO_NONE |}] /\
  forall oldMode,
    apply_actions example_UX_DIRECTORY
      [{| who := CHMOD_WHO_USER; op := CHMOD_OP_EQUAL;
          perm := CHMOD_PERM_NA; ref := CHMOD_WHO_NONE |}] oldMode
    = oldMode.
Proof.
  refine (proj2 (X20_operator_alone_changes_nothing example_UX_DIRECTORY
                   (fun _ => true))
            (L "u") (wc "=") CHMOD_OP_EQUAL _ _ _ _).
  - repeat constructor. discriminate.
  - reflexivity.
  - reflexivity.
  - vm_compute. reflexivity.
Defined.
